(** * Reconciliation between the session ledger and the remote calendar

    A shallow embedding of the synchronisation core of [pomodoro.py]:
    the two tables of [PomodoroDatabase] ([sessions], [sync_mapping]) and
    the three entry points of [CalDAVSync] ([sync_to_calendar],
    [sync_from_calendar], [sync]).

    Conventions of the embedding.
    - Text is a [string] of UTF-8 bytes.  The tomato marker is one code
      point, four bytes; substring search and replacement on valid UTF-8
      agree with the same operations on code points.
    - A date-time is a [Z]: seconds on the UTC time line.  The ledger keeps
      ISO-8601 text and SQLite compares Julian-day floats; both are
      idealised to exact integer seconds.
    - Integers of the ledger (row ids, durations) are [Z]; counters of a
      run are [nat].
    - The calendar server is outside the program.  It is modelled as a list
      of calendar objects together with a tape of answers: each request
      takes the next cell of the tape, [None] for success and [Some msg]
      for an exception carrying [msg].  An exhausted tape answers success.
    - [print] is not modelled. *)

From Stdlib Require Import ZArith Lia Ascii.
From stdpp Require Import base list strings pretty gmap sorting.

Local Open Scope Z_scope.

(** ** Text operations of the Python source *)

Module Text.

(** The marker put in front of every title: U+1F345, UTF-8 F0 9F 8D 85. *)
Definition tomato : string :=
  String "240" (String "159" (String "141" (String "133" ""))).

(** [s.startswith(p)] *)
Fixpoint startswith (p s : string) : bool :=
  match p, s with
  | "", _ => true
  | String a p', String b s' => if Ascii.eqb a b then startswith p' s' else false
  | String _ _, "" => false
  end.

(** [p in s] *)
Fixpoint contains (p s : string) : bool :=
  startswith p s ||
  match s with
  | "" => false
  | String _ s' => contains p s'
  end.

(** [s.replace(old, '')] for a non-empty [old]: occurrences are removed
    from left to right without overlap.  [skip] counts the bytes of the
    current occurrence that are still to be dropped. *)
Fixpoint remove_go (old : string) (skip : nat) (s : string) : string :=
  match s with
  | "" => ""
  | String c s' =>
      match skip with
      | S k => remove_go old k s'
      | O =>
          if startswith old s
          then remove_go old (Nat.pred (String.length old)) s'
          else String c (remove_go old O s')
      end
  end.
Definition remove (old s : string) : string := remove_go old O s.

(** [s.lower()], on the ASCII letters.  No code point outside ASCII
    lowers to one of the letters of the keyword searched for below. *)
Definition lower_ascii (c : ascii) : ascii :=
  let n := nat_of_ascii c in
  if (Nat.leb 65 n && Nat.leb n 90)%bool then ascii_of_nat (n + 32)%nat else c.
Fixpoint lower (s : string) : string :=
  match s with
  | "" => ""
  | String c s' => String (lower_ascii c) (lower s')
  end.

(** White space in the sense of [str.isspace]: the number of bytes of a
    leading white-space code point of [s], [0] when [s] does not start
    with one.  One byte: U+0009..U+000D, U+001C..U+001F, U+0020.  Two
    bytes: U+0085, U+00A0.  Three bytes: U+1680, U+2000..U+200A, U+2028,
    U+2029, U+202F, U+205F, U+3000. *)
Definition space1 (n : nat) : bool :=
  (Nat.leb 9 n && Nat.leb n 13 || Nat.leb 28 n && Nat.leb n 32)%bool.
Definition space3_e2_80 (n : nat) : bool :=
  (Nat.leb 128 n && Nat.leb n 138 || Nat.eqb n 168 || Nat.eqb n 169
   || Nat.eqb n 175)%bool.

Definition leading_space (s : list nat) : nat :=
  match s with
  | a :: r =>
      if space1 a then 1%nat
      else match a, r with
           | 194%nat, b :: _ =>
               if (Nat.eqb b 133 || Nat.eqb b 160)%bool then 2%nat else 0%nat
           | 225%nat, 154%nat :: 128%nat :: _ => 3%nat
           | 226%nat, 128%nat :: c :: _ => if space3_e2_80 c then 3%nat else 0%nat
           | 226%nat, 129%nat :: 159%nat :: _ => 3%nat
           | 227%nat, 128%nat :: 128%nat :: _ => 3%nat
           | _, _ => 0%nat
           end
  | [] => 0%nat
  end.

(** The same for the end of the text, read backwards. *)
Definition trailing_space (rev_s : list nat) : nat :=
  match rev_s with
  | a :: r =>
      if space1 a then 1%nat
      else match a, r with
           | 133%nat, 194%nat :: _ => 2%nat
           | 160%nat, 194%nat :: _ => 2%nat
           | 128%nat, 154%nat :: 225%nat :: _ => 3%nat
           | c, 128%nat :: 226%nat :: _ => if space3_e2_80 c then 3%nat else 0%nat
           | 159%nat, 129%nat :: 226%nat :: _ => 3%nat
           | 128%nat, 128%nat :: 227%nat :: _ => 3%nat
           | _, _ => 0%nat
           end
  | [] => 0%nat
  end.

(** Drop white-space code points at the head; [fuel] bounds the number of
    code points dropped and is the length of the text. *)
Fixpoint strip_go (width : list nat → nat) (fuel : nat) (s : list nat) : list nat :=
  match fuel with
  | O => s
  | S fuel' =>
      match width s with
      | O => s
      | n => strip_go width fuel' (drop n s)
      end
  end.

Fixpoint bytes_of (s : string) : list nat :=
  match s with
  | "" => []
  | String c s' => nat_of_ascii c :: bytes_of s'
  end.
Fixpoint of_bytes (l : list nat) : string :=
  match l with
  | [] => ""
  | n :: l' => String (ascii_of_nat n) (of_bytes l')
  end.

(** [s.strip()] *)
Definition strip (s : string) : string :=
  let b := bytes_of s in
  let b1 := strip_go leading_space (length b) b in
  let b2 := strip_go trailing_space (length b1) (reverse b1) in
  of_bytes (reverse b2).

(** Python's [x or default] on text. *)
Definition or_else (s default : string) : string :=
  if decide (s = "") then default else s.

End Text.

(** ** The ledger: tables [sessions] and [sync_mapping] *)

(** A row of [sessions].  [end_time] is nullable. *)
Record session := Session {
  id : Z;
  task_name : string;
  duration_seconds : Z;
  start_time : Z;
  end_time : option Z;
  status : string;
  completed_seconds : Z
}.

(** A row of [sync_mapping].  [session_id] is the primary key,
    [calendar_uid] is [UNIQUE NOT NULL], [calendar_url] is nullable. *)
Record sync_mapping := SyncMapping {
  session_id : Z;
  calendar_uid : string;
  calendar_url : option string;
  last_synced : Z
}.

(** The database file.  Rows are kept in insertion order.  [sessions_seq]
    is the counter SQLite keeps for an [AUTOINCREMENT] key: the largest
    [id] ever handed out.  Foreign keys are not enforced (the source never
    turns the pragma on), so deleting a session leaves its mapping row. *)
Record database := Database {
  sessions : list session;
  sessions_seq : Z;
  mappings : list sync_mapping
}.

Global Instance session_eq_dec : EqDecision session.
Proof. solve_decision. Defined.
Global Instance sync_mapping_eq_dec : EqDecision sync_mapping.
Proof. solve_decision. Defined.

Definition with_sessions (l : list session) (d : database) : database :=
  {| sessions := l; sessions_seq := sessions_seq d; mappings := mappings d |}.
Definition with_mappings (l : list sync_mapping) (d : database) : database :=
  {| sessions := sessions d; sessions_seq := sessions_seq d; mappings := l |}.

(** Python truthiness of an optional argument: [None], [0] and [''] are
    false. *)
Definition truthy_int (x : option Z) : option Z :=
  match x with
  | Some n => if decide (n = 0) then None else Some n
  | None => None
  end.
Definition truthy_str (x : option string) : option string :=
  match x with
  | Some s => if decide (s = "") then None else Some s
  | None => None
  end.

Module PomodoroDatabase.

Definition empty : database :=
  {| sessions := []; sessions_seq := 0; mappings := [] |}.

(** [ORDER BY start_time DESC]; the sort keeps rows with equal keys in
    table order. *)
Definition newer_first (a b : session) : Prop := start_time b ≤ start_time a.
Global Instance newer_first_dec : RelDecision newer_first.
Proof. intros a b. unfold newer_first. apply _. Defined.

Definition get_all_sessions (d : database) : list session :=
  merge_sort newer_first (sessions d).

Definition set_opt {A} (new : option A) (old : A) : A :=
  match new with Some v => v | None => old end.

(** [UPDATE sessions SET ... WHERE id = ?] with one clause for every
    argument that is not [None]. *)
Definition update_row (task : option string) (duration start : option Z)
    (end_ : option Z) (st : option string) (completed : option Z)
    (s : session) : session :=
  {| id := id s;
     task_name := set_opt task (task_name s);
     duration_seconds := set_opt duration (duration_seconds s);
     start_time := set_opt start (start_time s);
     end_time := match end_ with Some e => Some e | None => end_time s end;
     status := set_opt st (status s);
     completed_seconds := set_opt completed (completed_seconds s) |}.

Definition update_session (sid : Z) (task : option string)
    (duration start end_ : option Z) (st : option string)
    (completed : option Z) (d : database) : database :=
  with_sessions
    ((λ s, if decide (id s = sid)
           then update_row task duration start end_ st completed s
           else s) <$> sessions d) d.

Definition session_exists (sid : Z) (d : database) : bool :=
  bool_decide (0 < length (filter (λ s, id s = sid) (sessions d)))%nat.

(** The fuzzy lookup: same task, start within the tolerance, the closest
    first, one row at most. *)
Definition time_distance (t : Z) (s : session) : Z := Z.abs (start_time s - t).
Definition closer_first (t : Z) (a b : session) : Prop :=
  time_distance t a ≤ time_distance t b.
Global Instance closer_first_dec t : RelDecision (closer_first t).
Proof. intros a b. unfold closer_first. apply _. Defined.

Definition find_session_by_time_and_task (start : Z) (task : string)
    (tolerance_minutes : Z) (d : database) : option session :=
  let tolerance_seconds := tolerance_minutes * 60 in
  head (merge_sort (closer_first start)
          (filter (λ s, task_name s = task ∧
                        time_distance start s ≤ tolerance_seconds)
                  (sessions d))).

Definition delete_session (sid : Z) (d : database) : database :=
  with_sessions (filter (λ s, id s ≠ sid) (sessions d)) d.

Definition max_rowid (l : list session) : Z :=
  foldr (λ s m, Z.max (id s) m) 0 l.

(** [INSERT INTO sessions]; returns [lastrowid]. *)
Definition add_session (task : string) (duration start : Z)
    (end_ : option Z) (st : string) (completed : Z) (d : database)
    : Z * database :=
  let new_id := Z.max (max_rowid (sessions d)) (sessions_seq d) + 1 in
  (new_id,
   {| sessions := sessions d ++
        [ {| id := new_id; task_name := task; duration_seconds := duration;
             start_time := start; end_time := end_; status := st;
             completed_seconds := completed |} ];
      sessions_seq := new_id;
      mappings := mappings d |}).

(** One of the two selectors, or the whole table when neither is truthy. *)
Definition get_sync_mapping (sid : option Z) (uid : option string)
    (d : database) : list sync_mapping :=
  match truthy_int sid with
  | Some k => filter (λ m, session_id m = k) (mappings d)
  | None =>
      match truthy_str uid with
      | Some u => filter (λ m, calendar_uid m = u) (mappings d)
      | None => mappings d
      end
  end.

(** [INSERT OR REPLACE]: rows that clash on the primary key or on the
    unique column are removed before the new row is written. *)
Definition set_sync_mapping (sid : Z) (uid : string) (href : option string)
    (now : Z) (d : database) : database :=
  with_mappings
    (filter (λ m, session_id m ≠ sid ∧ calendar_uid m ≠ uid) (mappings d) ++
     [ {| session_id := sid; calendar_uid := uid; calendar_url := href;
          last_synced := now |} ]) d.

Definition delete_sync_mapping (sid : option Z) (uid : option string)
    (d : database) : database :=
  match truthy_int sid with
  | Some k => with_mappings (filter (λ m, session_id m ≠ k) (mappings d)) d
  | None =>
      match truthy_str uid with
      | Some u => with_mappings (filter (λ m, calendar_uid m ≠ u) (mappings d)) d
      | None => d
      end
  end.

End PomodoroDatabase.

(** ** The calendar server *)

(** A calendar object (a VEVENT).  [ev_uid] is [""] when the object
    carries no UID; DTSTART and DTEND may be missing. *)
Record event := Event {
  ev_uid : string;
  ev_summary : string;
  ev_description : string;
  ev_dtstart : option Z;
  ev_dtend : option Z;
  ev_url : string
}.

Global Instance event_eq_dec : EqDecision event.
Proof. solve_decision. Defined.

(** The collection on the server and the answers it will give. *)
Record server := Server {
  events : list event;
  tape : list (option string)
}.

(** What one [CalDAVSync] object and its surroundings hold: the ledger,
    [config['url']], whether the [caldav] package can be imported,
    whether [self.calendar] is set, and the server. *)
Record world := World {
  db : database;
  config_url : option string;
  caldav_installed : bool;
  calendar : bool;
  remote : server
}.

Definition with_db (d : database) (w : world) : world :=
  {| db := d; config_url := config_url w; caldav_installed := caldav_installed w;
     calendar := calendar w; remote := remote w |}.
Definition with_calendar (c : bool) (w : world) : world :=
  {| db := db w; config_url := config_url w; caldav_installed := caldav_installed w;
     calendar := c; remote := remote w |}.
Definition with_remote (r : server) (w : world) : world :=
  {| db := db w; config_url := config_url w; caldav_installed := caldav_installed w;
     calendar := calendar w; remote := r |}.
Definition with_events (l : list event) (w : world) : world :=
  with_remote {| events := l; tape := tape (remote w) |} w.
Definition with_tape (t : list (option string)) (w : world) : world :=
  with_remote {| events := events (remote w); tape := t |} w.

(** ** Computations that change a state and may raise *)

Inductive res (A : Type) : Type :=
| Ok (a : A)
| Raise (e : string).
Global Arguments Ok {A} a.
Global Arguments Raise {A} e.

Definition M (S A : Type) : Type := S → res A * S.

Definition ret {S A} (a : A) : M S A := λ s, (Ok a, s).
Definition raise {S A} (e : string) : M S A := λ s, (Raise e, s).
Definition bind {S A B} (m : M S A) (k : A → M S B) : M S B :=
  λ s, match m s with
       | (Ok a, s') => k a s'
       | (Raise e, s') => (Raise e, s')
       end.
(** [try: m except Exception as e: h e].  What [m] did to the state before
    it raised stays done. *)
Definition try_catch {S A} (m : M S A) (h : string → M S A) : M S A :=
  λ s, match m s with
       | (Ok a, s') => (Ok a, s')
       | (Raise e, s') => h e s'
       end.
Definition gets {S A} (f : S → A) : M S A := λ s, (Ok (f s), s).
Definition modify {S} (f : S → S) : M S unit := λ s, (Ok tt, f s).

Notation "x <- c1 ;; c2" := (bind c1 (λ x, c2))
  (at level 100, c1 at next level, right associativity).
Notation "c1 ;; c2" := (bind c1 (λ _, c2))
  (at level 100, right associativity).

(** [try: m except: pass] *)
Definition attempt {S} (m : M S unit) : M S unit := try_catch m (λ _, ret tt).

(** [for x in l: acc = body x acc] *)
Fixpoint for_each {S A C} (body : A → C → M S C) (l : list A) (acc : C) : M S C :=
  match l with
  | [] => ret acc
  | x :: l' => acc' <- body x acc ;; for_each body l' acc'
  end.

(** Run a ledger operation inside the world. *)
Definition on_db {A} (m : M database A) : M world A :=
  λ w, let '(r, d) := m (db w) in (r, with_db d w).

(** ** Requests to the server *)

Module Server.

(** Take the next answer from the tape. *)
Definition request : M world unit :=
  λ w, match tape (remote w) with
       | [] => (Ok tt, w)
       | None :: t => (Ok tt, with_tape t w)
       | Some e :: t => (Raise e, with_tape t w)
       end.

(** Where the client library stores an object it creates. *)
Definition href (uid : string) : string := uid +:+ ".ics".

(** The time-range filter of the server for an event: with DTEND,
    [lo < DTEND] and [DTSTART < hi]; without, [lo <= DTSTART < hi]. *)
Definition in_range (lo hi : Z) (e : event) : Prop :=
  match ev_dtstart e, ev_dtend e with
  | Some s, Some f => lo < f ∧ s < hi
  | Some s, None => lo ≤ s ∧ s < hi
  | None, _ => False
  end.
Global Instance in_range_dec lo hi e : Decision (in_range lo hi e).
Proof. unfold in_range. destruct (ev_dtstart e), (ev_dtend e); apply _. Defined.

(** [calendar.search(uid=...)] *)
Definition search_uid (uid : string) : M world (list event) :=
  request ;; gets (λ w, filter (λ e, ev_uid e = uid) (events (remote w))).

(** [calendar.search(start=..., end=...)] *)
Definition search_range (lo hi : Z) : M world (list event) :=
  request ;; gets (λ w, filter (in_range lo hi) (events (remote w))).

(** [event.load()] *)
Definition load (e : event) : M world unit := request.

(** [event.save()]: the stored object with this UID is overwritten. *)
Definition save (e : event) : M world unit :=
  request ;;
  modify (λ w, with_events
    ((λ x, if decide (ev_uid x = ev_uid e) then e else x) <$> events (remote w)) w).

(** [event.delete()] *)
Definition delete (e : event) : M world unit :=
  request ;;
  modify (λ w, with_events
    (filter (λ x, ev_uid x ≠ ev_uid e) (events (remote w))) w).

(** [calendar.client.delete(url)] *)
Definition delete_url (url : string) : M world unit :=
  request ;;
  modify (λ w, with_events
    (filter (λ x, ev_url x ≠ url) (events (remote w))) w).

(** [calendar.add_event(ical)] for an object built from these five
    fields.  The collection holds one object for a UID: an object that
    has this UID already is replaced. *)
Definition add_event (summary description : string) (dtstart dtend : Z)
    (uid : string) : M world unit :=
  request ;;
  modify (λ w, with_events
    (filter (λ x, ev_uid x ≠ uid) (events (remote w)) ++
     [ {| ev_uid := uid; ev_summary := summary; ev_description := description;
          ev_dtstart := Some dtstart; ev_dtend := Some dtend;
          ev_url := href uid |} ]) w).

End Server.

(** ** The results handed back to the caller *)

(** [{'success': True, 'synced', 'updated', 'deleted', 'message'}] or
    [{'success': False, 'error'}]. *)
Inductive to_result :=
| ToOk (synced updated deleted : nat) (message : string)
| ToFail (error : string).

(** [{'success': True, 'imported', 'updated', 'total_events', 'skipped',
    'message'}] or [{'success': False, 'error'}]. *)
Inductive from_result :=
| FromOk (imported updated total_events skipped : nat) (message : string)
| FromFail (error : string).

Definition to_success (r : to_result) : bool :=
  match r with ToOk _ _ _ _ => true | ToFail _ => false end.
Definition from_success (r : from_result) : bool :=
  match r with FromOk _ _ _ _ _ => true | FromFail _ => false end.

Record sync_result := SyncResult {
  success : bool;
  to_calendar : to_result;
  from_calendar : from_result
}.

(** Counters of the pull loop. *)
Record pull_counts := PullCounts {
  imported : nat;
  pulled : nat;   (* the local [updated] of [sync_from_calendar] *)
  skipped : nat
}.

(** ** The engine *)

Module CalDAVSync.
Import PomodoroDatabase.

Definition nl : string := String "010" "".
Definition year : Z := 365 * 86400.

(** [f"pomodoro-{session['id']}@pomodoro-timer"] *)
Definition session_uid (sid : Z) : string :=
  "pomodoro-" +:+ pretty sid +:+ "@pomodoro-timer".

(** [f"🍅 {session['task_name']}"] *)
Definition summary_of (s : session) : string :=
  Text.tomato +:+ " " +:+ task_name s.

Definition description_of (s : session) : string :=
  "Pomodoro session: " +:+ task_name s +:+ nl +:+
  "Duration: " +:+ pretty (duration_seconds s `div` 60) +:+ " minutes" +:+ nl +:+
  "Completed: " +:+ pretty (completed_seconds s `div` 60) +:+ " minutes" +:+ nl +:+
  "Status: " +:+ status s.

(** The end of the event: the stored end, or start plus planned duration. *)
Definition end_of (s : session) : Z :=
  match end_time s with
  | Some e => e
  | None => start_time s + duration_seconds s
  end.

(** The UID test and the title test by which an object counts as one of
    this application's. *)
Definition uid_is_pomodoro (uid : string) : bool :=
  Text.startswith "pomodoro-" uid && Text.contains "@pomodoro-timer" uid.
Definition summary_is_pomodoro (summary : string) : bool :=
  Text.contains Text.tomato summary ||
  Text.contains "pomodoro" (Text.lower summary).
Definition is_pomodoro (e : event) : bool :=
  uid_is_pomodoro (ev_uid e) || summary_is_pomodoro (ev_summary e).

Definition error_or (error : option string) (default : string) : string :=
  match error with
  | Some e => Text.or_else e default
  | None => default
  end.

(** [connect()].  The handshake with the server (client, principal,
    calendars, [make_calendar]) is one request. *)
Definition connect : M world (bool * option string) :=
  url <- gets config_url ;;
  match truthy_str url with
  | None => ret (false, Some "No CalDAV URL configured")
  | Some _ =>
      try_catch
        (installed <- gets caldav_installed ;;
         if installed : bool
         then Server.request ;; modify (with_calendar true) ;; ret (true, None)
         else ret (false,
                   Some "caldav package not installed. Install with: pip install caldav"))
        (λ e, ret (false, Some e))
  end.

(** Lines 495-517, and again 556-578: reload, delete, and on failure
    delete by location.  Counts one deletion when either succeeds. *)
Definition delete_with_fallback (ev : event) (deleted : nat) : M world nat :=
  attempt (Server.load ev) ;;
  try_catch
    (Server.delete ev ;; ret (S deleted))
    (λ delete_error,
       try_catch
         (Server.delete_url (ev_url ev) ;; ret (S deleted))
         (λ direct_delete_error, ret deleted)).

(** First loop of the push: one mapping row. *)
Definition sweep_mapping (session_ids : gset Z) (mapping : sync_mapping)
    (deleted : nat) : M world nat :=
  let session_id := session_id mapping in
  let calendar_uid := calendar_uid mapping in
  if decide (session_id ∈ session_ids) then ret deleted
  else
    try_catch
      (evs <- Server.search_uid calendar_uid ;;
       deleted' <- match evs with
                   | ev :: _ => delete_with_fallback ev deleted
                   | [] => ret deleted
                   end ;;
       on_db (modify (delete_sync_mapping None (Some calendar_uid))) ;;
       ret deleted')
      (λ e,
         on_db (modify (delete_sync_mapping None (Some calendar_uid))) ;;
         ret deleted).

(** Second loop of the push: one object of the calendar. *)
Definition sweep_event (session_ids : gset Z) (expected_uids : gset string)
    (ev : event) (deleted : nat) : M world nat :=
  let uid := ev_uid ev in
  if is_pomodoro ev && bool_decide (uid ∉ expected_uids) then
    mapping <- on_db (gets (get_sync_mapping None (Some uid))) ;;
    if match mapping with
       | [] => true
       | m :: _ => bool_decide (session_id m ∉ session_ids)
       end
    then
      deleted' <- delete_with_fallback ev deleted ;;
      match mapping with
      | [] => ret tt
      | _ :: _ => on_db (modify (delete_sync_mapping None (Some uid)))
      end ;;
      ret deleted'
    else ret deleted
  else ret deleted.

(** Lines 620-623: the four assignments on the loaded object.  The last
    two raise [KeyError] when the object has no such property. *)
Definition assign_fields (ev : event) (summary description : string)
    (start_time end_time : Z) : M world event :=
  match ev_dtstart ev, ev_dtend ev with
  | None, _ => raise "'dtstart'"
  | Some _, None => raise "'dtend'"
  | Some _, Some _ =>
      ret {| ev_uid := ev_uid ev; ev_summary := summary;
             ev_description := description;
             ev_dtstart := Some start_time; ev_dtend := Some end_time;
             ev_url := ev_url ev |}
  end.

(** Third loop of the push: one session.  The counters are
    [(synced, updated)]. *)
Definition push_session (now : Z) (s : session) (c : nat * nat)
    : M world (nat * nat) :=
  mapping <- on_db (gets (get_sync_mapping (Some (id s)) None)) ;;
  let start_time := start_time s in
  let end_time := end_of s in
  let uid := session_uid (id s) in
  let summary := summary_of s in
  let description := description_of s in
  match mapping with
  | m :: _ =>
      let calendar_uid := calendar_uid m in
      try_catch
        (evs <- Server.search_uid calendar_uid ;;
         match evs with
         | ev :: _ =>
             attempt (Server.load ev) ;;
             try_catch
               (ev' <- assign_fields ev summary description start_time end_time ;;
                Server.save ev' ;;
                ret (c.1, S c.2))
               (λ save_error,
                  try_catch
                    (attempt (Server.delete ev) ;;
                     Server.add_event summary description start_time end_time
                       calendar_uid ;;
                     ret (c.1, S c.2))
                    (λ recreate_error, ret c))
         | [] =>
             Server.add_event summary description start_time end_time
               calendar_uid ;;
             ret (S c.1, c.2)
         end)
        (λ e,
           Server.add_event summary description start_time end_time
             calendar_uid ;;
           ret (S c.1, c.2))
  | [] =>
      Server.add_event summary description start_time end_time uid ;;
      on_db (modify (set_sync_mapping (id s) uid None now)) ;;
      ret (S c.1, c.2)
  end.

Definition to_message (synced updated deleted : nat) (n_sessions n_mappings : nat)
    (checked : option nat) : string :=
  let result_msg :=
    "Synced " +:+ pretty synced +:+ " new, updated " +:+ pretty updated +:+
    " existing" in
  if decide (0 < deleted)%nat
  then result_msg +:+ ", deleted " +:+ pretty deleted +:+ " removed events"
  else if decide (n_sessions = 0%nat ∧ (0 < n_mappings)%nat)
  then result_msg +:+ " (checked " +:+ pretty (default 0%nat checked) +:+
       " calendar events for deletion)"
  else result_msg.

(** The body of [sync_to_calendar] under its outer [try]. *)
Definition push_body (now : Z) : M world to_result :=
  sessions <- on_db (gets get_all_sessions) ;;
  all_mappings <- on_db (gets (get_sync_mapping None None)) ;;
  let session_ids : gset Z := list_to_set (id <$> sessions) in
  let expected_uids : gset string :=
    list_to_set ((λ s, session_uid (id s)) <$> sessions) ∪
    list_to_set (calendar_uid <$>
                   filter (λ m, session_id m ∈ session_ids) all_mappings) in
  deleted <- for_each (sweep_mapping session_ids) all_mappings 0%nat ;;
  swept <- try_catch
             (all_calendar_events <- Server.search_range (now - year) (now + year) ;;
              deleted' <- for_each (sweep_event session_ids expected_uids)
                            all_calendar_events deleted ;;
              ret (Some (length all_calendar_events), deleted'))
             (λ e, ret (None, deleted)) ;;
  c <- for_each (push_session now) sessions (0%nat, 0%nat) ;;
  ret (ToOk c.1 c.2 swept.2
         (to_message c.1 c.2 swept.2 (length sessions) (length all_mappings)
            swept.1)).

(** [if not self.calendar: success, error = self.connect() ...]: the
    error to return, if any. *)
Definition ensure_calendar : M world (option string) :=
  c <- gets calendar ;;
  if c : bool then ret None
  else
    r <- connect ;;
    if r.1 : bool then ret None
    else ret (Some (error_or r.2 "Not connected to CalDAV server")).

Definition sync_to_calendar (now : Z) : M world to_result :=
  guard <- ensure_calendar ;;
  match guard with
  | Some error => ret (ToFail error)
  | None => try_catch (push_body now) (λ e, ret (ToFail e))
  end.

Section Pull.

(** [hash(str(dtstart.dt) + task_name_temp)]: Python's salted text
    hash of the printed start and the label. *)
Variable manual_key : Z → string → Z.

Definition task_label (summary : string) : string :=
  Text.or_else (Text.strip (Text.remove Text.tomato summary)) "Imported Session".

Definition bump_imported (c : pull_counts) : pull_counts :=
  {| imported := S (imported c); pulled := pulled c; skipped := skipped c |}.
Definition bump_pulled (c : pull_counts) : pull_counts :=
  {| imported := imported c; pulled := S (pulled c); skipped := skipped c |}.
Definition bump_skipped (c : pull_counts) : pull_counts :=
  {| imported := imported c; pulled := pulled c; skipped := S (skipped c) |}.

Definition import_session (now : Z) (ev : event) (uid task : string)
    (start_time end_time : Z) (c : pull_counts) : M database pull_counts :=
  let duration_seconds := end_time - start_time in
  session_id <- (λ d, let '(k, d') :=
                   add_session task duration_seconds start_time (Some end_time)
                     "completed" duration_seconds d in (Ok k, d')) ;;
  modify (set_sync_mapping session_id uid (Some (ev_url ev)) now) ;;
  ret (bump_imported c).

(** The body of the pull loop under its [try]. *)
Definition pull_event_body (now : Z) (ev : event) (c : pull_counts)
    : M database pull_counts :=
  let uid := ev_uid ev in
  let summary := ev_summary ev in
  let dtstart := ev_dtstart ev in
  let dtend := ev_dtend ev in
  let is_pomodoro_event := uid_is_pomodoro uid in
  if negb is_pomodoro_event && negb (summary_is_pomodoro summary)
  then ret (bump_skipped c)
  else
    uid <- (if negb is_pomodoro_event && bool_decide (uid = "")
            then
              let task_name_temp := task_label summary in
              match dtstart with
              | Some dt =>
                  ret ("pomodoro-manual-" +:+ pretty (manual_key dt task_name_temp)
                       +:+ "@pomodoro-timer")
              | None => raise "'NoneType' object has no attribute 'dt'"
              end
            else ret uid) ;;
    let task_name := task_label summary in
    match dtstart with
    | None => ret c
    | Some start_time =>
        let end_time :=
          match dtend with Some e => e | None => start_time + 25 * 60 end in
        let duration_seconds := end_time - start_time in
        mapping <- gets (get_sync_mapping None (Some uid)) ;;
        match mapping with
        | m :: _ =>
            let session_id := session_id m in
            live <- gets (session_exists session_id) ;;
            if live : bool then
              modify (update_session session_id (Some task_name)
                        (Some duration_seconds) (Some start_time)
                        (Some end_time) None None) ;;
              ret (bump_pulled c)
            else
              modify (delete_sync_mapping None (Some uid)) ;;
              import_session now ev uid task_name start_time end_time c
        | [] =>
            existing_session <-
              gets (find_session_by_time_and_task start_time task_name 5) ;;
            match existing_session with
            | Some s =>
                let session_id := id s in
                existing_mapping <- gets (get_sync_mapping (Some session_id) None) ;;
                match existing_mapping with
                | [] =>
                    modify (update_session session_id (Some task_name)
                              (Some duration_seconds) (Some start_time)
                              (Some end_time) None None) ;;
                    modify (set_sync_mapping session_id uid (Some (ev_url ev)) now) ;;
                    ret (bump_pulled c)
                | _ :: _ => ret (bump_skipped c)
                end
            | None => import_session now ev uid task_name start_time end_time c
            end
        end
    end.

Definition pull_event (now : Z) (ev : event) (c : pull_counts)
    : M database pull_counts :=
  try_catch (pull_event_body now ev c) (λ e, ret (bump_skipped c)).

Definition from_message (total imported updated skipped : nat) : string :=
  let result_msg :=
    "Found " +:+ pretty total +:+ " events. Imported " +:+ pretty imported +:+
    " new, updated " +:+ pretty updated +:+ " existing" in
  if decide (0 < skipped)%nat
  then result_msg +:+ ", skipped " +:+ pretty skipped +:+ " non-pomodoro events"
  else result_msg.

Definition pull_body (now : Z) : M world from_result :=
  events_list <- Server.search_range (now - year) (now + year) ;;
  let total_events := length events_list in
  c <- on_db (for_each (pull_event now) events_list
                {| imported := 0; pulled := 0; skipped := 0 |}) ;;
  ret (FromOk (imported c) (pulled c) total_events (skipped c)
         (from_message total_events (imported c) (pulled c) (skipped c))).

Definition sync_from_calendar (now : Z) : M world from_result :=
  guard <- ensure_calendar ;;
  match guard with
  | Some error => ret (FromFail error)
  | None => try_catch (pull_body now) (λ e, ret (FromFail e))
  end.

Definition sync (now : Z) : M world sync_result :=
  result_to <- sync_to_calendar now ;;
  result_from <- sync_from_calendar now ;;
  ret {| success := to_success result_to && from_success result_from;
         to_calendar := result_to;
         from_calendar := result_from |}.

End Pull.

End CalDAVSync.

(** * Specification vocabulary *)

(** The two uniqueness constraints of [sync_mapping]: the primary key and
    the [UNIQUE] column. *)
Definition mapping_unique (ms : list sync_mapping) : Prop :=
  NoDup (session_id <$> ms) ∧ NoDup (calendar_uid <$> ms).

(** The states of the database file that its nine operations produce from
    the empty file. *)
Inductive ledger_reachable : database → Prop :=
| reach_empty :
    ledger_reachable PomodoroDatabase.empty
| reach_add_session d task duration start end_ st completed :
    ledger_reachable d →
    ledger_reachable
      (PomodoroDatabase.add_session task duration start end_ st completed d).2
| reach_update_session d sid task duration start end_ st completed :
    ledger_reachable d →
    ledger_reachable
      (PomodoroDatabase.update_session sid task duration start end_ st completed d)
| reach_delete_session d sid :
    ledger_reachable d →
    ledger_reachable (PomodoroDatabase.delete_session sid d)
| reach_set_sync_mapping d sid uid href now :
    ledger_reachable d →
    ledger_reachable (PomodoroDatabase.set_sync_mapping sid uid href now d)
| reach_delete_sync_mapping d sid uid :
    ledger_reachable d →
    ledger_reachable (PomodoroDatabase.delete_sync_mapping sid uid d).

(** The UID under which the pull looks an object up: its own, or the one
    made up for a hand-made object that carries none. *)
Definition lookup_uid (manual_key : Z → string → Z) (ev : event) : string :=
  if negb (CalDAVSync.uid_is_pomodoro (ev_uid ev)) && bool_decide (ev_uid ev = "")
  then match ev_dtstart ev with
       | Some dt =>
           "pomodoro-manual-" +:+
           pretty (manual_key dt (CalDAVSync.task_label (ev_summary ev))) +:+
           "@pomodoro-timer"
       | None => ev_uid ev
       end
  else ev_uid ev.

(** The end the pull gives a session: DTEND, or 25 minutes after the start. *)
Definition pulled_end (ev : event) (start : Z) : Z :=
  match ev_dtend ev with Some e => e | None => start + 25 * 60 end.

(** What the pull writes into a session it updates from [ev]: label,
    duration, start and end; nothing else. *)
Definition pulled_update (ev : event) (start : Z) (sid : Z) (d : database)
    : database :=
  PomodoroDatabase.update_session sid
    (Some (CalDAVSync.task_label (ev_summary ev)))
    (Some (pulled_end ev start - start)) (Some start)
    (Some (pulled_end ev start)) None None d.

(** The session the pull creates from [ev]. *)
Definition pulled_session (ev : event) (start : Z) (new_id : Z) : session :=
  {| id := new_id;
     task_name := CalDAVSync.task_label (ev_summary ev);
     duration_seconds := pulled_end ev start - start;
     start_time := start;
     end_time := Some (pulled_end ev start);
     status := "completed";
     completed_seconds := pulled_end ev start - start |}.

(** The id [add_session] hands out next. *)
Definition next_id (d : database) : Z :=
  Z.max (PomodoroDatabase.max_rowid (sessions d)) (sessions_seq d) + 1.

(** The ledger after the pull has imported [ev] under [uid]: one more
    session, with a fresh id, and its mapping row. *)
Definition import_into (ev : event) (start : Z) (uid : string) (now : Z)
    (d : database) : database :=
  PomodoroDatabase.set_sync_mapping (next_id d) uid (Some (ev_url ev)) now
    {| sessions := sessions d ++ [pulled_session ev start (next_id d)];
       sessions_seq := next_id d;
       mappings := mappings d |}.

(** The object the push sends for session [s] under [uid]. *)
Definition pushed_event (s : session) (uid : string) : event :=
  {| ev_uid := uid;
     ev_summary := CalDAVSync.summary_of s;
     ev_description := CalDAVSync.description_of s;
     ev_dtstart := Some (start_time s);
     ev_dtend := Some (CalDAVSync.end_of s);
     ev_url := Server.href uid |}.

(** The objects of the collection that carry [uid]. *)
Definition objects_with (uid : string) (l : list event) : list event :=
  filter (λ e, ev_uid e = uid) l.

(** The server answers every request with success. *)
Definition fault_free (w : world) : Prop := tape (remote w) = [].

(** What a successful [add_event] leaves in the collection. *)
Definition put_event (s : session) (uid : string) (evs : list event)
    : list event :=
  filter (λ x, ev_uid x ≠ uid) evs ++ [pushed_event s uid].

(** The loaded object after the four assignments of the update. *)
Definition saved_event (ev : event) (s : session) : event :=
  {| ev_uid := ev_uid ev;
     ev_summary := CalDAVSync.summary_of s;
     ev_description := CalDAVSync.description_of s;
     ev_dtstart := Some (start_time s);
     ev_dtend := Some (CalDAVSync.end_of s);
     ev_url := ev_url ev |}.

(** The collection after a push of the mapped session [s] that the
    server answered without fault: the object is overwritten in place
    when it is there with both dates, deleted and created again when a
    date is missing, created when it is not there. *)
Definition update_events (s : session) (uid : string) (evs : list event)
    : list event :=
  match objects_with uid evs with
  | ev :: _ =>
      match ev_dtstart ev, ev_dtend ev with
      | Some _, Some _ =>
          (λ x, if decide (ev_uid x = ev_uid ev) then saved_event ev s else x) <$> evs
      | _, _ => put_event s uid (filter (λ x, ev_uid x ≠ ev_uid ev) evs)
      end
  | [] => put_event s uid evs
  end.

(** ** States of the ledger and of the mirror *)

(** What the schema and Python's truth tests need of the ledger: ids are a
    key and are positive (as [AUTOINCREMENT] makes them), the mapping
    table has its two uniqueness constraints, and no mapped UID is the
    empty text. *)
Record ledger_wf (d : database) : Prop := LedgerWf {
  wf_ids : NoDup (id <$> sessions d);
  wf_positive : ∀ s, s ∈ sessions d → 0 < id s;
  wf_unique : mapping_unique (mappings d);
  wf_uids : ∀ m, m ∈ mappings d → calendar_uid m ≠ ""
}.

(** Every mapping row belongs to a session that exists. *)
Definition no_orphans (d : database) : Prop :=
  ∀ m, m ∈ mappings d → session_id m ∈ id <$> sessions d.

(** Every session has a mapping row. *)
Definition all_mapped (d : database) : Prop :=
  ∀ s, s ∈ sessions d → id s ∈ session_id <$> mappings d.

(** The UID the push would derive for a session is not taken by a row
    while that session has no row of its own. *)
Definition no_collision (d : database) : Prop :=
  ∀ s m, s ∈ sessions d → m ∈ mappings d →
    calendar_uid m = CalDAVSync.session_uid (id s) →
    id s ∈ session_id <$> mappings d.

(** Every object of the collection that the engine recognises as its own
    is named by a mapping row. *)
Definition no_stray (d : database) (evs : list event) : Prop :=
  ∀ e, e ∈ evs → CalDAVSync.is_pomodoro e = true →
    ev_uid e ∈ calendar_uid <$> mappings d.

(** Every mapping row names an object that is in the collection. *)
Definition mirrored (d : database) (evs : list event) : Prop :=
  ∀ m, m ∈ mappings d → calendar_uid m ∈ ev_uid <$> evs.

(** A calendar is held, or [connect] has what it needs. *)
Definition connectable (w : world) : Prop :=
  calendar w = true ∨
  (truthy_str (config_url w) ≠ None ∧ caldav_installed w = true).

(** The states from which a sync has only creations, updates and orphan
    removals to do, and a server that answers. *)
Record push_ready (w : world) : Prop := PushReady {
  ready_wf : ledger_wf (db w);
  ready_no_collision : no_collision (db w);
  ready_no_stray : no_stray (db w) (events (remote w));
  ready_fault_free : fault_free w;
  ready_connectable : connectable w
}.

(** The states a successful sync leaves: ledger and collection mirror
    each other. *)
Record in_sync (w : world) : Prop := InSync {
  sync_wf : ledger_wf (db w);
  sync_no_orphans : no_orphans (db w);
  sync_all_mapped : all_mapped (db w);
  sync_mirrored : mirrored (db w) (events (remote w));
  sync_no_stray : no_stray (db w) (events (remote w));
  sync_fault_free : fault_free w;
  sync_calendar : calendar w = true
}.

(** The parts of the world that a push or a pull never changes once the
    calendar is held. *)
Definition same_frame (w w' : world) : Prop :=
  calendar w' = calendar w ∧ config_url w' = config_url w ∧
  caldav_installed w' = caldav_installed w ∧
  tape (remote w') = tape (remote w).

(** What the third loop of the push keeps true from session to session. *)
Record push_core (d : database) (evs : list event) : Prop := PushCore {
  core_wf : ledger_wf d;
  core_no_orphans : no_orphans d;
  core_no_collision : no_collision d;
  core_no_stray : no_stray d evs
}.

(** Session [s] has a mapping row and the row's object is in the
    collection. *)
Definition pushed (s : session) (d : database) (evs : list event) : Prop :=
  ∃ m, m ∈ mappings d ∧ session_id m = id s ∧ calendar_uid m ∈ ev_uid <$> evs.

(** ** Properties of computations *)

(** [m] keeps the property [P] of the world, however it ends. *)
Definition preserves {A} (P : world → Prop) (m : M world A) : Prop :=
  ∀ w r w', P w → m w = (r, w') → P w'.

(** [m] ends normally from every world: no exception leaves it. *)
Definition total {A} (m : M world A) : Prop :=
  ∀ w, ∃ a w', m w = (Ok a, w').

(** No mapping row is for session [k]. *)
Definition unmapped (k : Z) (w : world) : Prop :=
  ∀ r, r ∈ mappings (db w) → session_id r ≠ k.

(** No mapping row names [uid] and no object of the collection carries it. *)
Definition gone (uid : string) (w : world) : Prop :=
  (∀ r, r ∈ mappings (db w) → calendar_uid r ≠ uid) ∧
  uid ∉ ev_uid <$> events (remote w).

(** The session table is [l]. *)
Definition has_sessions (l : list session) (w : world) : Prop :=
  sessions (db w) = l.

(** Properties of the world that survive what the two sweeps of the push
    can do: a request answered, objects removed, mapping rows removed. *)
Record shrink_closed (P : world → Prop) : Prop := ShrinkClosed {
  sc_request : ∀ w t, (fault_free w → t = []) → P w → P (with_tape t w);
  sc_filter : ∀ w (Q : event → Prop) (dec : ∀ x, Decision (Q x)),
    P w → P (with_events (filter Q (events (remote w))) w);
  sc_unmap : ∀ w sid uid,
    P w → P (with_db (PomodoroDatabase.delete_sync_mapping sid uid (db w)) w)
}.

(** Properties that also survive what the third loop can do for session
    [j]: overwrite an object, create an object under a UID that a mapping
    row had when the step began or under the UID derived from [j], and
    write the row of [j]. *)
Record push_closed (j : session) (P : world → Prop) : Prop := PushClosed {
  pc_shrink : shrink_closed P;
  pc_save : ∀ w ev,
    P w →
    P (with_events
         ((λ x, if decide (ev_uid x = ev_uid ev) then ev else x) <$>
            events (remote w)) w);
  pc_add_mapped : ∀ w0 w m,
    P w0 → m ∈ mappings (db w0) → P w →
    P (with_events (put_event j (calendar_uid m) (events (remote w))) w);
  pc_add_new : ∀ w,
    P w →
    P (with_events
         (put_event j (CalDAVSync.session_uid (id j)) (events (remote w))) w);
  pc_map : ∀ w now,
    P w →
    P (with_db (PomodoroDatabase.set_sync_mapping (id j)
                  (CalDAVSync.session_uid (id j)) None now (db w)) w)
}.

(** Whenever [m] ends normally, [Q] holds of the world it leaves. *)
Definition post {A} (Q : world → Prop) (m : M world A) : Prop :=
  ∀ w a w', m w = (Ok a, w') → Q w'.

(** No mapping row names [uid]. *)
Definition no_row (uid : string) (w : world) : Prop :=
  ∀ r, r ∈ mappings (db w) → calendar_uid r ≠ uid.

(** Every mapping row is one of [ms]. *)
Definition rows_within (ms : list sync_mapping) (w : world) : Prop :=
  ∀ r, r ∈ mappings (db w) → r ∈ ms.

(** The part of [push_body] that follows the first loop. *)
Definition after_orphans (now : Z) (sessions : list session)
    (session_ids : gset Z) (expected_uids : gset string) (n_mappings : nat)
    (deleted : nat) : M world to_result :=
  swept <- try_catch
             (all_calendar_events <- Server.search_range (now - CalDAVSync.year) (now + CalDAVSync.year) ;;
              deleted' <- for_each (CalDAVSync.sweep_event session_ids expected_uids)
                            all_calendar_events deleted ;;
              ret (Some (length all_calendar_events), deleted'))
             (λ e, ret (None, deleted)) ;;
  c <- for_each (CalDAVSync.push_session now) sessions (0%nat, 0%nat) ;;
  ret (ToOk c.1 c.2 swept.2
         (CalDAVSync.to_message c.1 c.2 swept.2 (length sessions) n_mappings swept.1)).


(** The mapping row that the push writes for a session it creates on the
    calendar: the UID derived from the id, no href. *)
Definition new_row (s : session) (now : Z) : sync_mapping :=
  {| session_id := id s; calendar_uid := CalDAVSync.session_uid (id s);
     calendar_url := None; last_synced := now |}.

(** Session [s] has been created on the calendar by this push: its one
    mapping row is [new_row], no other session is mapped to its UID, and
    the collection has one object under that UID, with the session's
    fields. *)
Record settled (s : session) (now : Z) (w : world) : Prop := Settled {
  settled_row :
    filter (λ m, session_id m = id s) (mappings (db w)) = [new_row s now];
  settled_own : ∀ m, m ∈ mappings (db w) →
    calendar_uid m = CalDAVSync.session_uid (id s) → session_id m = id s;
  settled_object :
    objects_with (CalDAVSync.session_uid (id s)) (events (remote w)) =
      [pushed_event s (CalDAVSync.session_uid (id s))]
}.

(** * Concrete states used by the examples *)

(** A stand-in for Python's salted hash. *)
Definition no_key : Z → string → Z := λ _ _, 0.

Definition no_counts : pull_counts := {| imported := 0; pulled := 0; skipped := 0 |}.

(** An engine with no [url] in its configuration. *)
Definition unconfigured : world :=
  {| db := PomodoroDatabase.empty; config_url := None; caldav_installed := true;
     calendar := false; remote := {| events := []; tape := [] |} |}.


(** The table after two upserts that name the same calendar object. *)
Definition two_upserts : database :=
  PomodoroDatabase.set_sync_mapping 2 "pomodoro-1@pomodoro-timer" None 20
    (PomodoroDatabase.set_sync_mapping 1 "pomodoro-1@pomodoro-timer" None 10
       PomodoroDatabase.empty).



(** A ledger with one session, mapped, as a push leaves it. *)
Definition reading : session :=
  {| id := 1; task_name := "reading"; duration_seconds := 1500;
     start_time := 86400; end_time := Some 87900; status := "completed";
     completed_seconds := 1500 |}.

Definition reading_cancelled : session :=
  {| id := 1; task_name := "reading"; duration_seconds := 1500;
     start_time := 86400; end_time := Some 87000; status := "cancelled";
     completed_seconds := 600 |}.

Definition ledger_of (l : list session) (ms : list sync_mapping) : database :=
  {| sessions := l; sessions_seq := PomodoroDatabase.max_rowid l; mappings := ms |}.

Definition reading_mapping : sync_mapping :=
  {| session_id := 1; calendar_uid := "pomodoro-1@pomodoro-timer";
     calendar_url := None; last_synced := 90000 |}.

(** A connected engine over a ledger and a collection, with the answers
    the server is going to give. *)
Definition connected (d : database) (evs : list event)
    (answers : list (option string)) : world :=
  {| db := d; config_url := Some "https://dav.example.org";
     caldav_installed := true; calendar := true;
     remote := {| events := evs; tape := answers |} |}.

(** The object of session 1 as an earlier push left it. *)
Definition stale_reading_event : event :=
  {| ev_uid := "pomodoro-1@pomodoro-timer"; ev_summary := "🍅 reading (old)";
     ev_description := ""; ev_dtstart := Some 86400; ev_dtend := Some 87900;
     ev_url := "pomodoro-1@pomodoro-timer.ics" |}.

(** Session 1 is mapped, its object is on the server, and the server is
    going to refuse the update with a precondition failure: the answers
    are for the search, the reload, the save, the delete and the create. *)
Definition conflict_world : world :=
  connected (ledger_of [reading] [reading_mapping]) [stale_reading_event]
    [None; None; Some "412 Precondition Failed"; None; None].

(** The same with one more answer in front, for the date-range search
    that a whole push makes first. *)
Definition conflict_push_world : world :=
  connected (ledger_of [reading] [reading_mapping]) [stale_reading_event]
    [None; None; None; Some "412 Precondition Failed"; None; None].

(** A ledger with one cancelled session that was never synced, and an
    empty calendar. *)
Definition first_use : world :=
  connected (ledger_of [reading_cancelled] []) [] [].

(** An object left on the calendar by an earlier installation: its UID is
    the one this engine derives for session 2. *)
Definition leftover_event : event :=
  {| ev_uid := "pomodoro-2@pomodoro-timer"; ev_summary := "🍅 old notes";
     ev_description := ""; ev_dtstart := Some 86400; ev_dtend := Some 87900;
     ev_url := "pomodoro-2@pomodoro-timer.ics" |}.

(** A new ledger pulls that object in: it becomes session 1, mapped to the
    object's UID. *)
Definition after_import : world :=
  (CalDAVSync.sync_from_calendar no_key 90000
     (connected PomodoroDatabase.empty [leftover_event] [])).2.

(** Then a session is recorded locally and gets id 2; no sync has run
    since. *)
Definition after_second_session : world :=
  with_db
    (PomodoroDatabase.add_session "writing" 1500 90000 (Some 91500) "completed"
       1500 (db after_import)).2
    after_import.

(** Session 1 with its mapping and its object, everything in order. *)
Definition mirrored_reading : world :=
  connected (ledger_of [reading] [reading_mapping]) [stale_reading_event] [].

(** The session of the scenario, recorded and never synced; the calendar
    is empty. *)
Definition never_synced : world :=
  connected (ledger_of [reading] []) [] [].


(** The round trip: push at [now], then the mapping row of session 1 is
    deleted from the ledger. *)
Definition lost_linkage (now : Z) (w : world) : world :=
  let w1 := (CalDAVSync.sync_to_calendar now w).2 in
  with_db (PomodoroDatabase.delete_sync_mapping (Some 1) None (db w1)) w1.

(** Session 1 with its mapping and its object, and a server that answers
    the search and the reload, then refuses the delete, the delete by URL
    and the date-range search. *)
Definition refusing_deletes : world :=
  connected (ledger_of [reading] [reading_mapping]) [stale_reading_event]
    [None; None; Some "503 Service Unavailable"; Some "503 Service Unavailable";
     Some "503 Service Unavailable"].

(** * The rest of the program *)

(** ** Handlers of the statistics server that change the ledger *)

(** [DELETE /api/sessions/<id>], lines 1431-1442: the mapping row goes
    first, then the session.  The push that the handler starts in a
    thread afterwards is a call of [sync_to_calendar] like any other and
    is not part of this function. *)
Definition api_delete_session (session_id : Z) (d : database) : database :=
  PomodoroDatabase.delete_session session_id
    (PomodoroDatabase.delete_sync_mapping (Some session_id) None d).

(** ** More properties of computations *)

(** Whenever [m] ends normally, its result satisfies [R]. *)
Definition yields {S A} (R : A → Prop) (m : M S A) : Prop :=
  ∀ s a s', m s = (Ok a, s') → R a.

(** What one turn of the pull loop may do to the counters and to the
    session table, for a property [Q] of the ledger: ids are only added
    at the end, one for every import counted, at most one counter goes up
    by one, and [Q] is kept. *)
Definition pull_step_ok (Q : database → Prop) (c : pull_counts) (d : database)
    (c' : pull_counts) (d' : database) : Prop :=
  ∃ new : list Z,
    id <$> sessions d' = (id <$> sessions d) ++ new ∧
    imported c' = (imported c + length new)%nat ∧
    (imported c' + pulled c' + skipped c' ≤ S (imported c + pulled c + skipped c))%nat ∧
    (Q d → Q d').

(** ** Python built-ins used by the command line

    The text of a command-line word is taken to be ASCII and at most 4300
    bytes long ([cli_word]).  Python's [\d], [int] and [str.lower] also
    know the digits and letters of other scripts, and [int] refuses more
    than 4300 digits from version 3.11 on; inside [cli_word] none of that
    can happen. *)

Module Py.

Definition is_digit (c : ascii) : bool :=
  let n := nat_of_ascii c in (Nat.leb 48 n && Nat.leb n 57)%bool.

Definition digit_value (c : ascii) : Z := Z.of_nat (nat_of_ascii c) - 48.

(** [int(s)] for a text [s] of decimal digits, read from the left with
    the value so far in [acc]. *)
Fixpoint int_of_digits_go (acc : Z) (s : string) : Z :=
  match s with
  | "" => acc
  | String c s' => int_of_digits_go (10 * acc + digit_value c) s'
  end.
Definition int_of_digits (s : string) : Z := int_of_digits_go 0 s.

(** The digits of [int(s)] after the sign: digits, with single
    underscores allowed between two digits.  [after_digit] tells whether
    the byte before was a digit. *)
Fixpoint int_go (acc : Z) (after_digit : bool) (s : string) : option Z :=
  match s with
  | "" => if after_digit then Some acc else None
  | String c s' =>
      if is_digit c then int_go (10 * acc + digit_value c) true s'
      else if (Ascii.eqb c "_" && after_digit)%bool then int_go acc false s'
      else None
  end.

(** [int(s)] for a text without white space around it; [None] stands for
    [ValueError]. *)
Definition int (s : string) : option Z :=
  match s with
  | String "+" s' => int_go 0 false s'
  | String "-" s' => Z.opp <$> int_go 0 false s'
  | _ => int_go 0 false s
  end.

(** [re.search(r'(\d+)u', s)] for a byte [u] that is not a digit: group 1
    of the leftmost match, which is the first maximal run of digits that
    is followed by [u].  [run] is the run of digits read so far. *)
Fixpoint search_digits_go (u : ascii) (run : string) (s : string)
    : option string :=
  match s with
  | "" => None
  | String c s' =>
      if is_digit c then search_digits_go u (run +:+ String c "") s'
      else
        match run with
        | String _ _ => if Ascii.eqb c u then Some run
                        else search_digits_go u "" s'
        | "" => search_digits_go u "" s'
        end
  end.
Definition search_digits (u : ascii) (s : string) : option string :=
  search_digits_go u "" s.

(** [f"{x:02d}"] *)
Definition pad2 (x : Z) : string :=
  if decide (0 ≤ x < 10) then "0" +:+ pretty x else pretty x.

End Py.

Definition is_ascii (s : string) : Prop :=
  Forall (λ n, n < 128)%nat (Text.bytes_of s).
Definition cli_word (s : string) : Prop :=
  is_ascii s ∧ (String.length s ≤ 4300)%nat.

(** [parse_duration], lines 1116-1141. *)
Definition parse_duration (duration_str : string) : Z :=
  if decide (duration_str = "") then 25 * 60
  else
    let duration_str := Text.strip (Text.lower duration_str) in
    let total_seconds := 0 in
    let hour_match := Py.search_digits "h" duration_str in
    let minute_match := Py.search_digits "m" duration_str in
    let total_seconds :=
      match hour_match with
      | Some g => total_seconds + Py.int_of_digits g * 3600
      | None => total_seconds
      end in
    let total_seconds :=
      match minute_match with
      | Some g => total_seconds + Py.int_of_digits g * 60
      | None => total_seconds
      end in
    match hour_match, minute_match with
    | None, None =>
        match Py.int duration_str with
        | Some n =>
            let total_seconds := n * 60 in
            if decide (0 < total_seconds) then total_seconds else 25 * 60
        | None => 25 * 60
        end
    | _, _ => if decide (0 < total_seconds) then total_seconds else 25 * 60
    end.

(** [PomodoroTimer.format_time], lines 917-920, for a whole number of
    seconds. *)
Definition format_time (seconds : Z) : string :=
  let mins := seconds `div` 60 in
  let secs := seconds `mod` 60 in
  Py.pad2 mins +:+ ":" +:+ Py.pad2 secs.

(** [format_time_display], lines 4331-4337. *)
Definition format_time_display (seconds : Z) : string :=
  let hours := seconds `div` 3600 in
  let minutes := (seconds `mod` 3600) `div` 60 in
  if decide (0 < hours)
  then pretty hours +:+ "h " +:+ pretty minutes +:+ "m"
  else pretty minutes +:+ "m".

(** ** Looking for a free port *)

Section Ports.

(** [is_port_in_use], lines 1143-1151: the answer of the operating
    system to an attempt to bind the port. *)
Variable is_port_in_use : Z → bool.



End Ports.

(** A text of decimal digits. *)
Fixpoint all_digits (s : string) : bool :=
  match s with
  | "" => true
  | String c s' => Py.is_digit c && all_digits s'
  end.

(** A byte value that is not a decimal digit. *)
Definition plain_byte (n : nat) : Prop := (n < 256)%nat ∧ ¬ (48 ≤ n ≤ 57)%nat.

(** A text without any decimal digit. *)
Fixpoint no_digit (s : string) : bool :=
  match s with
  | "" => true
  | String c s' => negb (Py.is_digit c) && no_digit s'
  end.

(** ** Statistics *)

(** [save_session], lines 144-154: the same [INSERT] as [add_session],
    without the id; the end is always given. *)
Definition save_session (task : string) (duration start end_ : Z)
    (st : string) (completed : Z) (d : database) : database :=
  (PomodoroDatabase.add_session task duration start (Some end_) st completed d).2.

(** The rows of [by_task] and of [by_date]. *)
Record task_stat := TaskStat {
  stat_task_name : string;
  stat_count : nat;
  stat_total_time : Z
}.
Record date_stat := DateStat {
  day_date : Z;
  day_count : nat;
  day_total_time : Z
}.

(** The dictionary that [get_stats] returns. *)
Record stats := Stats {
  period : string;
  total_sessions : nat;
  total_time_all : Z;
  by_task : list task_stat;
  by_date : list date_stat
}.

(** [DATE(start_time)], and [datetime.now().date()]: the number of the
    day. *)
Definition date_of (t : Z) : Z := t `div` 86400.

(** The first day of the period, [None] for all time: every period name
    other than the three is all time. *)
Definition period_start (period : string) (today : Z) : option Z :=
  if decide (period = "week") then Some (today - 7)
  else if decide (period = "month") then Some (today - 30)
  else if decide (period = "year") then Some (today - 365)
  else None.

(** [WHERE DATE(start_time) >= start_date], or no filter. *)
Definition since (start_date : option Z) (s : session) : Prop :=
  match start_date with
  | Some d0 => d0 ≤ date_of (start_time s)
  | None => True
  end.
Global Instance since_dec start_date s : Decision (since start_date s).
Proof. destruct start_date; unfold since; apply _. Defined.

(** [SUM(completed_seconds)], with [or 0] for no row. *)
Definition sum_completed (l : list session) : Z :=
  foldr (λ s acc, completed_seconds s + acc) 0 l.

Definition task_group (rows : list session) (name : string) : task_stat :=
  let group := filter (λ s, task_name s = name) rows in
  {| stat_task_name := name; stat_count := length group;
     stat_total_time := sum_completed group |}.

Definition date_group (rows : list session) (date : Z) : date_stat :=
  let group := filter (λ s, date_of (start_time s) = date) rows in
  {| day_date := date; day_count := length group;
     day_total_time := sum_completed group |}.

Definition longer_first (a b : task_stat) : Prop :=
  stat_total_time b ≤ stat_total_time a.
Global Instance longer_first_dec : RelDecision longer_first.
Proof. intros a b. unfold longer_first. apply _. Defined.

Definition later_first (a b : date_stat) : Prop := day_date b ≤ day_date a.
Global Instance later_first_dec : RelDecision later_first.
Proof. intros a b. unfold later_first. apply _. Defined.

(** [get_stats], lines 166-226.  [GROUP BY] makes one row for every
    value of the key; [ORDER BY] sorts the rows (rows with equal keys
    stay in the order of first appearance in the table, which SQL leaves
    open). *)
Definition get_stats (period : string) (now : Z) (d : database) : stats :=
  let today := date_of now in
  let start_date := period_start period today in
  let rows := filter (since start_date) (sessions d) in
  {| period := period;
     total_sessions := length rows;
     total_time_all := sum_completed rows;
     by_task :=
       merge_sort longer_first
         (task_group rows <$> remove_dups (task_name <$> rows));
     by_date :=
       merge_sort later_first
         (date_group rows <$> remove_dups ((λ s, date_of (start_time s)) <$> rows)) |}.

(** Sums over the rows of a result. *)
Definition sum_Z (l : list Z) : Z := foldr Z.add 0 l.

(** Session 1 was mapped and mirrored, and has just been deleted through
    the server's handler: its object is still on the calendar. *)
Definition after_api_delete : world :=
  with_db (api_delete_session 1 (db mirrored_reading)) mirrored_reading.

(** ** Task colours *)

Module TaskColorManager.

Section Colors.

(** [generate_color], lines 55-93, computes a colour from Python's salted
    hash of the task name with floating-point arithmetic.  It is a
    function of the task name for the life of the process, which is all
    that is used here. *)
Variable generate_color : string → string.

(** [self.colors] is a dictionary from task names to colours.  Writing it
    to its file ([save_colors]) is not modelled. *)
Definition get_color (task_name : string) (colors : gmap string string)
    : string * gmap string string :=
  match colors !! task_name with
  | Some color => (color, colors)
  | None =>
      let colors := <[task_name := generate_color task_name]> colors in
      (generate_color task_name, colors)
  end.

Definition set_color (task_name color : string) (colors : gmap string string)
    : gmap string string :=
  <[task_name := color]> colors.

Definition get_all_colors (colors : gmap string string) : gmap string string :=
  colors.

End Colors.

End TaskColorManager.

(** [GET /api/task-colors], lines 1348-1359: a colour for every task name
    of the ledger that is not empty, then the whole dictionary. *)
Definition api_get_task_colors (generate_color : string → string) (d : database)
    (colors : gmap string string) : gmap string string :=
  let sessions := PomodoroDatabase.get_all_sessions d in
  let task_names : gset string :=
    list_to_set (filter (λ n, n ≠ "") (task_name <$> sessions)) in
  let colors :=
    set_fold (λ task_name colors,
                (TaskColorManager.get_color generate_color task_name colors).2)
      colors task_names in
  TaskColorManager.get_all_colors colors.

(** * Properties

    ** Text *)

Example tomato_is_the_literal : Text.tomato = "🍅".
Proof. reflexivity. Qed.

Example strip_example : Text.strip "  deep work	 " = "deep work".
Proof. vm_compute. reflexivity. Qed.

Example remove_example :
  Text.remove Text.tomato ("🍅 a🍅b") = " ab".
Proof. vm_compute. reflexivity. Qed.

Example lower_example : Text.lower "My POMODORO" = "my pomodoro".
Proof. vm_compute. reflexivity. Qed.

(** ** The mapping table *)

Section MappingTable.
Import PomodoroDatabase.

Lemma NoDup_fmap_filter {A B} (f : A → B) (P : A → Prop)
    `{!∀ x, Decision (P x)} (l : list A) :
  NoDup (f <$> l) → NoDup (f <$> filter P l).
Proof.
  intros Hnd. eapply sublist_NoDup; [exact Hnd|].
  apply fmap_sublist, sublist_filter.
Qed.

Lemma mapping_unique_filter (P : sync_mapping → Prop)
    `{!∀ x, Decision (P x)} ms :
  mapping_unique ms → mapping_unique (filter P ms).
Proof. intros [H1 H2]. split; by apply NoDup_fmap_filter. Qed.

Lemma set_sync_mapping_unique sid uid href now d :
  mapping_unique (mappings d) →
  mapping_unique (mappings (set_sync_mapping sid uid href now d)).
Proof.
  intros Hu. unfold set_sync_mapping, with_mappings; simpl.
  pose proof (mapping_unique_filter
    (λ m, session_id m ≠ sid ∧ calendar_uid m ≠ uid) _ Hu) as [H1 H2].
  split; rewrite fmap_app; simpl; apply NoDup_app; (split; [done|]);
    (split; [|apply NoDup_singleton]);
    intros x Hx Hin; apply list_elem_of_singleton in Hin; subst x;
    apply list_elem_of_fmap in Hx as (m & Hm & Hin);
    apply list_elem_of_filter in Hin as [[Hs Hc] _]; congruence.
Qed.

Lemma delete_sync_mapping_unique sid uid d :
  mapping_unique (mappings d) →
  mapping_unique (mappings (delete_sync_mapping sid uid d)).
Proof.
  intros Hu. unfold delete_sync_mapping.
  destruct (truthy_int sid); [by apply mapping_unique_filter|].
  destruct (truthy_str uid); [by apply mapping_unique_filter|done].
Qed.

End MappingTable.

(** C9.  Mapping uniqueness: in every state of the database file that the
    ledger operations reach, no two rows of [sync_mapping] have the same
    session id and no two rows have the same calendar UID.  The upsert
    ([set_sync_mapping]) and the delete ([delete_sync_mapping]) are the
    two steps that touch the table, and both keep the invariant. *)
Theorem mapping_uniqueness d :
  ledger_reachable d → mapping_unique (mappings d).
Proof.
  induction 1 as [| | | | d sid uid href now _ IH | d sid uid _ IH]; try done.
  - split; constructor.
  - by apply set_sync_mapping_unique.
  - by apply delete_sync_mapping_unique.
Qed.

Lemma mapping_uniqueness_witness :
  ledger_reachable two_upserts ∧ mapping_unique (mappings two_upserts).
Proof.
  assert (ledger_reachable two_upserts) as Hreach
    by (unfold two_upserts; repeat constructor).
  split; [exact Hreach | exact (mapping_uniqueness two_upserts Hreach)].
Defined.

(** ** Lookups in the mapping table *)

Section Lookups.
Import PomodoroDatabase CalDAVSync.

Lemma get_sync_mapping_by_uid u d :
  u ≠ "" →
  get_sync_mapping None (Some u) d = filter (λ m, calendar_uid m = u) (mappings d).
Proof. intros H. unfold get_sync_mapping; simpl. by rewrite decide_False. Qed.

Lemma get_sync_mapping_by_id k d :
  k ≠ 0 →
  get_sync_mapping (Some k) None d = filter (λ m, session_id m = k) (mappings d).
Proof. intros H. unfold get_sync_mapping; simpl. by rewrite decide_False. Qed.

Lemma delete_sync_mapping_by_uid u d :
  u ≠ "" →
  delete_sync_mapping None (Some u) d =
    with_mappings (filter (λ m, calendar_uid m ≠ u) (mappings d)) d.
Proof. intros H. unfold delete_sync_mapping; simpl. by rewrite decide_False. Qed.



Lemma filter_nil_of_filter {A} (P Q : A → Prop) `{!∀ x, Decision (P x)}
    `{!∀ x, Decision (Q x)} (l : list A) :
  (∀ x, Q x → P x → False) → filter P (filter Q l) = [].
Proof.
  intros Hno. induction l as [|x l IH]; [done|].
  rewrite (filter_cons Q). case_decide; [|done].
  rewrite filter_cons. case_decide; [exfalso; eauto|done].
Qed.

Lemma get_by_uid_after_set k u href now d :
  u ≠ "" →
  get_sync_mapping None (Some u) (set_sync_mapping k u href now d) =
    [ {| session_id := k; calendar_uid := u; calendar_url := href;
         last_synced := now |} ].
Proof.
  intros Hu. rewrite get_sync_mapping_by_uid by done.
  unfold set_sync_mapping, with_mappings; simpl.
  rewrite filter_app. rewrite filter_nil_of_filter; [|by intros x [? ?] ?].
  rewrite filter_cons. rewrite decide_True; done.
Qed.

Lemma get_by_id_after_set k u href now d :
  k ≠ 0 →
  get_sync_mapping (Some k) None (set_sync_mapping k u href now d) =
    [ {| session_id := k; calendar_uid := u; calendar_url := href;
         last_synced := now |} ].
Proof.
  intros Hu. rewrite get_sync_mapping_by_id by done.
  unfold set_sync_mapping, with_mappings; simpl.
  rewrite filter_app. rewrite filter_nil_of_filter; [|by intros x [? ?] ?].
  rewrite filter_cons. rewrite decide_True; done.
Qed.

End Lookups.

(** ** Derived UIDs and keys *)

Section Keys.
Import PomodoroDatabase CalDAVSync.

Lemma string_length_app (s t : string) :
  String.length (s +:+ t) = (String.length s + String.length t)%nat.
Proof.
  induction s as [|a s IH]; [done|].
  change (S (String.length (s +:+ t)) = S (String.length s + String.length t)).
  by rewrite IH.
Qed.

Lemma string_app_inj_r (s1 s2 t : string) : s1 +:+ t = s2 +:+ t → s1 = s2.
Proof.
  revert s2. induction s1 as [|a s1 IH]; intros [|b s2] H.
  - done.
  - apply (f_equal String.length) in H.
    rewrite !string_length_app in H. simpl in H. lia.
  - apply (f_equal String.length) in H.
    rewrite !string_length_app in H. simpl in H. lia.
  - change (String a (s1 +:+ t) = String b (s2 +:+ t)) in H.
    injection H as -> H. f_equal. by apply IH.
Qed.

Lemma session_uid_inj a b : session_uid a = session_uid b → a = b.
Proof.
  unfold session_uid. intros H.
  apply (inj (String.app "pomodoro-")) in H.
  apply string_app_inj_r in H. by apply (inj pretty) in H.
Qed.

Lemma session_uid_nonempty k : session_uid k ≠ "".
Proof. done. Qed.

Lemma NoDup_fmap_eq {A B} (f : A → B) (l : list A) x y :
  NoDup (f <$> l) → x ∈ l → y ∈ l → f x = f y → x = y.
Proof.
  induction l as [|a l IH]; intros Hnd Hx Hy Hf; [by apply elem_of_nil in Hx|].
  rewrite fmap_cons in Hnd. apply NoDup_cons in Hnd as [Ha Hnd].
  apply elem_of_cons in Hx as [->|Hx]; apply elem_of_cons in Hy as [->|Hy].
  - done.
  - exfalso. apply Ha. rewrite Hf. by apply list_elem_of_fmap_2.
  - exfalso. apply Ha. rewrite <- Hf. by apply list_elem_of_fmap_2.
  - by apply IH.
Qed.

End Keys.

(** ** The collection after a push step *)

Section EventFacts.
Import PomodoroDatabase CalDAVSync.

Lemma elem_of_put_event s uid evs e :
  e ∈ put_event s uid evs → e ∈ evs ∨ e = pushed_event s uid.
Proof.
  unfold put_event. rewrite elem_of_app, list_elem_of_filter, list_elem_of_singleton.
  tauto.
Qed.

Lemma put_event_uids s uid evs x :
  x ∈ ev_uid <$> put_event s uid evs ↔ x = uid ∨ x ∈ ev_uid <$> evs.
Proof.
  unfold put_event. rewrite fmap_app, elem_of_app. simpl.
  rewrite list_elem_of_singleton. rewrite !list_elem_of_fmap.
  split.
  - intros [(e & -> & He) | ->]; [|by left].
    apply list_elem_of_filter in He as [_ He]. right. eauto.
  - intros [-> | (e & -> & He)]; [by right|].
    destruct (decide (ev_uid e = uid)) as [<-|Hne]; [by right|].
    left. exists e. split; [done|]. by apply list_elem_of_filter.
Qed.

Lemma objects_with_head uid evs ev rest :
  objects_with uid evs = ev :: rest → ev ∈ evs ∧ ev_uid ev = uid.
Proof.
  intros Hev. assert (ev ∈ objects_with uid evs) as Hin by (rewrite Hev; left).
  apply list_elem_of_filter in Hin. tauto.
Qed.

Lemma objects_with_nil uid evs :
  objects_with uid evs = [] ↔ uid ∉ ev_uid <$> evs.
Proof.
  split.
  - intros Hnil (e & -> & He)%list_elem_of_fmap.
    by eapply (filter_nil_not_elem_of _ _ e) in Hnil.
  - intros Hno. unfold objects_with.
    induction evs as [|e evs IH]; [done|].
    rewrite filter_cons. case_decide as He.
    + exfalso. apply Hno. rewrite <- He. left.
    + apply IH. intros Hin. apply Hno. by right.
Qed.

Lemma elem_of_update_events s uid evs e :
  e ∈ update_events s uid evs → e ∈ evs ∨ ev_uid e = uid.
Proof.
  unfold update_events.
  destruct (objects_with uid evs) as [|ev rest] eqn:Hev.
  { intros [?| ->]%elem_of_put_event; [by left|by right]. }
  apply objects_with_head in Hev as [_ Hu].
  assert (e ∈ put_event s uid (filter (λ x, ev_uid x ≠ ev_uid ev) evs) →
          e ∈ evs ∨ ev_uid e = uid) as Hput.
  { intros [He| ->]%elem_of_put_event; [|by right].
    apply list_elem_of_filter in He as [_ He]. by left. }
  destruct (ev_dtstart ev), (ev_dtend ev); try exact Hput.
  intros (x & -> & Hx)%list_elem_of_fmap. case_decide; [by right|by left].
Qed.

Lemma update_events_uids s uid evs x :
  x ∈ ev_uid <$> update_events s uid evs ↔ x = uid ∨ x ∈ ev_uid <$> evs.
Proof.
  unfold update_events.
  destruct (objects_with uid evs) as [|ev rest] eqn:Hev; [apply put_event_uids|].
  apply objects_with_head in Hev as [Hin Hu].
  assert (uid ∈ ev_uid <$> evs) as Huid by (subst uid; by apply list_elem_of_fmap_2).
  assert (x ∈ ev_uid <$>
            put_event s uid (filter (λ x, ev_uid x ≠ ev_uid ev) evs) ↔
          x = uid ∨ x ∈ ev_uid <$> evs) as Hput.
  { rewrite put_event_uids. rewrite !list_elem_of_fmap. split.
    - intros [-> | (e & -> & He)]; [by left|].
      apply list_elem_of_filter in He as [_ He]. right. eauto.
    - intros [-> | (e & -> & He)]; [by left|].
      destruct (decide (ev_uid e = uid)) as [<-|Hne]; [by left|].
      right. exists e. split; [done|]. apply list_elem_of_filter. split; [congruence|done]. }
  destruct (ev_dtstart ev), (ev_dtend ev); try exact Hput.
  rewrite <- list_fmap_compose.
  erewrite (list_fmap_ext _ ev_uid).
  - split; [by right|]. by intros [->|?].
  - intros i e _. simpl. by case_decide.
Qed.

End EventFacts.

(** ** The monad *)

Section Monad.
Context {S A B : Type}.

Lemma bind_ok (m : M S A) (k : A → M S B) s a s' :
  m s = (Ok a, s') → bind m k s = k a s'.
Proof. intros H. unfold bind. by rewrite H. Qed.

Lemma bind_raise (m : M S A) (k : A → M S B) s e s' :
  m s = (Raise e, s') → bind m k s = (Raise e, s').
Proof. intros H. unfold bind. by rewrite H. Qed.

Lemma try_catch_ok (m : M S A) h s a s' :
  m s = (Ok a, s') → try_catch m h s = (Ok a, s').
Proof. intros H. unfold try_catch. by rewrite H. Qed.

Lemma try_catch_raise (m : M S A) h s e s' :
  m s = (Raise e, s') → try_catch m h s = h e s'.
Proof. intros H. unfold try_catch. by rewrite H. Qed.

End Monad.

(** ** Connecting *)

Section Connecting.
Import PomodoroDatabase CalDAVSync.

Lemma connect_no_url w :
  truthy_str (config_url w) = None →
  connect w = (Ok (false, Some "No CalDAV URL configured"), w).
Proof. intros H. unfold connect, bind, gets. by rewrite H. Qed.

Lemma ensure_calendar_no_url w :
  calendar w = false → truthy_str (config_url w) = None →
  ensure_calendar w = (Ok (Some "No CalDAV URL configured"), w).
Proof.
  intros Hc Hu. unfold ensure_calendar, bind at 1, gets at 1. rewrite Hc.
  by erewrite bind_ok by (by apply connect_no_url).
Qed.



(** C4, as the code has it.  With no URL in the configuration and no
    calendar held, [sync] touches nothing and hands back a failure: the
    overall flag is false and both halves carry the explanatory message
    "No CalDAV URL configured". *)
Theorem sync_without_url mk now w :
  calendar w = false → truthy_str (config_url w) = None →
  sync mk now w =
    (Ok {| success := false;
           to_calendar := ToFail "No CalDAV URL configured";
           from_calendar := FromFail "No CalDAV URL configured" |}, w).
Proof.
  intros Hc Hu. unfold sync, sync_to_calendar, sync_from_calendar.
  erewrite bind_ok; last first.
  { erewrite bind_ok by (by apply ensure_calendar_no_url). reflexivity. }
  erewrite bind_ok; last first.
  { erewrite bind_ok by (by apply ensure_calendar_no_url). reflexivity. }
  reflexivity.
Qed.


End Connecting.

Lemma sync_without_url_witness :
  CalDAVSync.sync no_key 90000 unconfigured =
    (Ok {| success := false;
           to_calendar := ToFail "No CalDAV URL configured";
           from_calendar := FromFail "No CalDAV URL configured" |}, unconfigured).
Proof. exact (sync_without_url no_key 90000 unconfigured eq_refl eq_refl). Defined.

(** The claim C4 says the result is a success.  It is not. *)
Lemma unconfigured_sync_is_a_failure :
  truthy_str (config_url unconfigured) = None ∧
  ∃ r, (CalDAVSync.sync no_key 90000 unconfigured).1 = Ok r ∧
       success r = false ∧ to_success (to_calendar r) = false ∧
       from_success (from_calendar r) = false.
Proof.
  split; [reflexivity|]. eexists.
  split; [vm_compute; reflexivity | repeat split].
Qed.


(** ** Loops *)

Section Loops.
Context {S A C : Type} (body : A → C → M S C).

(** A loop whose every turn ends normally and carries an invariant over
    the elements still to come. *)
Lemma for_each_invariant (I : list A → C → S → Prop) l c s :
  (∀ x rest c s, I (x :: rest) c s →
     ∃ c' s', body x c s = (Ok c', s') ∧ I rest c' s') →
  I l c s →
  ∃ c' s', for_each body l c s = (Ok c', s') ∧ I [] c' s'.
Proof.
  intros Hstep. revert c s. induction l as [|x l IH]; intros c s HI.
  - by exists c, s.
  - destruct (Hstep x l c s HI) as (c1 & s1 & Hx & HI1).
    destruct (IH c1 s1) as (c' & s' & Hl & HI'); [done|].
    exists c', s'. split; [|done]. simpl. by erewrite bind_ok.
Qed.

(** A property of the state that every turn keeps, however the turn and
    the loop end. *)
Lemma for_each_preserves (P : S → Prop) l c s r s' :
  (∀ x c s r s', x ∈ l → P s → body x c s = (r, s') → P s') →
  P s → for_each body l c s = (r, s') → P s'.
Proof.
  revert c s. induction l as [|x l IH]; intros c s Hstep HP Hrun.
  - by injection Hrun as _ <-.
  - simpl in Hrun. unfold bind in Hrun.
    destruct (body x c s) as [[c1|e] s1] eqn:Hx.
    + eapply (IH c1 s1); [|by eapply Hstep; [left|..]|done].
      intros y c2 s2 r2 s2' Hy. apply Hstep. by right.
    + injection Hrun as _ <-. eapply Hstep; [left|..]; done.
Qed.

End Loops.

(** ** One object of the pull loop *)

Section PullSteps.
Import PomodoroDatabase CalDAVSync.
Variable mk : Z → string → Z.
Variables (now : Z) (ev : event) (c : pull_counts) (d : database).

Lemma is_pomodoro_not_skipped :
  is_pomodoro ev = true →
  negb (uid_is_pomodoro (ev_uid ev)) && negb (summary_is_pomodoro (ev_summary ev)) = false.
Proof. unfold is_pomodoro. destruct (uid_is_pomodoro _), (summary_is_pomodoro _); done. Qed.

Ltac pull_start Hp Hs :=
  unfold pull_event, try_catch, pull_event_body;
  rewrite (is_pomodoro_not_skipped Hp), Hs;
  unfold lookup_uid, pulled_end in *; rewrite ?Hs in *;
  destruct (negb (uid_is_pomodoro (ev_uid ev)) && bool_decide (ev_uid ev = ""));
  unfold bind, gets, ret, modify.

Lemma pull_event_foreign :
  is_pomodoro ev = false →
  pull_event mk now ev c d = (Ok (bump_skipped c), d).
Proof.
  intros Hp. unfold pull_event, try_catch, pull_event_body.
  unfold is_pomodoro in Hp. apply orb_false_iff in Hp as [-> ->]. done.
Qed.

Lemma pull_event_live start m ms :
  is_pomodoro ev = true → ev_dtstart ev = Some start →
  get_sync_mapping None (Some (lookup_uid mk ev)) d = m :: ms →
  session_exists (session_id m) d = true →
  pull_event mk now ev c d =
    (Ok (bump_pulled c), pulled_update ev start (session_id m) d).
Proof.
  intros Hp Hs Hm Hl. pull_start Hp Hs; rewrite Hm, Hl; done.
Qed.

Lemma pull_event_stale start m ms :
  is_pomodoro ev = true → ev_dtstart ev = Some start →
  get_sync_mapping None (Some (lookup_uid mk ev)) d = m :: ms →
  session_exists (session_id m) d = false →
  pull_event mk now ev c d =
    (Ok (bump_imported c),
     import_into ev start (lookup_uid mk ev) now
       (delete_sync_mapping None (Some (lookup_uid mk ev)) d)).
Proof.
  intros Hp Hs Hm Hl. pull_start Hp Hs; rewrite Hm, Hl; done.
Qed.



Lemma pull_event_linked start s m ms :
  is_pomodoro ev = true → ev_dtstart ev = Some start →
  get_sync_mapping None (Some (lookup_uid mk ev)) d = [] →
  find_session_by_time_and_task start (task_label (ev_summary ev)) 5 d = Some s →
  get_sync_mapping (Some (id s)) None d = m :: ms →
  pull_event mk now ev c d = (Ok (bump_skipped c), d).
Proof.
  intros Hp Hs Hm Hf He. pull_start Hp Hs; rewrite Hm, Hf, He; done.
Qed.

End PullSteps.

(** ** What the pull does with one object *)

Section PullClaims.
Import PomodoroDatabase CalDAVSync.

(** C10.  Frame of a pull update: when the object's UID has a mapping row
    and the session of that row exists, the pull writes the session's task
    name, start, end and duration from the object and nothing else: every
    session keeps its id, its [status] and its [completed_seconds], the
    other sessions are untouched, and the mapping table is as it was. *)
Theorem pull_update_frame mk now ev c d start m ms :
  is_pomodoro ev = true → ev_dtstart ev = Some start →
  get_sync_mapping None (Some (lookup_uid mk ev)) d = m :: ms →
  session_exists (session_id m) d = true →
  ∃ d',
    pull_event mk now ev c d = (Ok (bump_pulled c), d') ∧
    mappings d' = mappings d ∧
    length (sessions d') = length (sessions d) ∧
    ∀ i s, sessions d !! i = Some s →
      ∃ s', sessions d' !! i = Some s' ∧
        id s' = id s ∧
        status s' = status s ∧
        completed_seconds s' = completed_seconds s ∧
        (id s = session_id m →
           task_name s' = task_label (ev_summary ev) ∧
           start_time s' = start ∧
           end_time s' = Some (pulled_end ev start) ∧
           duration_seconds s' = pulled_end ev start - start) ∧
        (id s ≠ session_id m → s' = s).
Proof.
  intros Hp Hs Hm Hl. eexists. split; [by eapply pull_event_live|].
  unfold pulled_update, update_session, with_sessions; simpl.
  split; [done|]. split; [by rewrite length_fmap|].
  intros i s Hi. rewrite list_lookup_fmap, Hi; simpl.
  eexists; split; [done|]. case_decide; simpl; naive_solver.
Qed.


End PullClaims.

Lemma pull_update_frame_witness :
  ∃ d',
    CalDAVSync.pull_event no_key 90000
      {| ev_uid := "pomodoro-1@pomodoro-timer"; ev_summary := "🍅 writing";
         ev_description := ""; ev_dtstart := Some 86400; ev_dtend := None;
         ev_url := "pomodoro-1@pomodoro-timer.ics" |}
      no_counts (ledger_of [reading_cancelled] [reading_mapping])
    = (Ok {| imported := 0; pulled := 1; skipped := 0 |}, d') ∧
    sessions d' =
      [ {| id := 1; task_name := "writing"; duration_seconds := 1500;
           start_time := 86400; end_time := Some 87900; status := "cancelled";
           completed_seconds := 600 |} ].
Proof.
  destruct (pull_update_frame no_key 90000
              {| ev_uid := "pomodoro-1@pomodoro-timer"; ev_summary := "🍅 writing";
                 ev_description := ""; ev_dtstart := Some 86400; ev_dtend := None;
                 ev_url := "pomodoro-1@pomodoro-timer.ics" |}
              no_counts (ledger_of [reading_cancelled] [reading_mapping])
              86400 reading_mapping [] eq_refl eq_refl eq_refl eq_refl)
    as (d' & Hrun & _ & Hlen & Hrows).
  exists d'. split; [exact Hrun|].
  destruct (Hrows 0%nat reading_cancelled eq_refl)
    as (s' & Hs' & Hid & Hst & Hco & Hw & _).
  destruct (Hw eq_refl) as (Ht & Hb & He & Hd).
  destruct (sessions d') as [|x [|y l]]; simplify_eq/=.
  destruct s'; simplify_eq/=. reflexivity.
Defined.



(** ** One session of the push loop, when the server answers every request *)

Section PushSteps.
Import PomodoroDatabase CalDAVSync.

Lemma with_db_id w : with_db (db w) w = w.
Proof. by destruct w. Qed.

Lemma on_db_gets {A} (f : database → A) w : on_db (gets f) w = (Ok (f (db w)), w).
Proof. unfold on_db, gets. by rewrite with_db_id. Qed.

Lemma on_db_modify (f : database → database) w :
  on_db (modify f) w = (Ok tt, with_db (f (db w)) w).
Proof. done. Qed.

Section FaultFree.
Variable w : world.
Hypothesis Hff : fault_free w.

Lemma request_ff : Server.request w = (Ok tt, w).
Proof. unfold Server.request. by rewrite Hff. Qed.

Lemma search_uid_ff uid :
  Server.search_uid uid w = (Ok (objects_with uid (events (remote w))), w).
Proof. unfold Server.search_uid. by erewrite bind_ok by apply request_ff. Qed.

Lemma search_range_ff lo hi :
  Server.search_range lo hi w =
    (Ok (filter (Server.in_range lo hi) (events (remote w))), w).
Proof. unfold Server.search_range. by erewrite bind_ok by apply request_ff. Qed.

Lemma load_ff ev : Server.load ev w = (Ok tt, w).
Proof. apply request_ff. Qed.

Lemma attempt_load_ff ev : attempt (Server.load ev) w = (Ok tt, w).
Proof. unfold attempt. by erewrite try_catch_ok by apply load_ff. Qed.

Lemma save_ff ev :
  Server.save ev w =
    (Ok tt, with_events
       ((λ x, if decide (ev_uid x = ev_uid ev) then ev else x) <$> events (remote w)) w).
Proof. unfold Server.save. by erewrite bind_ok by apply request_ff. Qed.

Lemma delete_ff ev :
  Server.delete ev w =
    (Ok tt, with_events (filter (λ x, ev_uid x ≠ ev_uid ev) (events (remote w))) w).
Proof. unfold Server.delete. by erewrite bind_ok by apply request_ff. Qed.

Lemma add_event_ff s uid :
  Server.add_event (summary_of s) (description_of s) (start_time s) (end_of s) uid w =
    (Ok tt, with_events (put_event s uid (events (remote w))) w).
Proof. unfold Server.add_event. by erewrite bind_ok by apply request_ff. Qed.

End FaultFree.

Lemma fault_free_with_events l w : fault_free w → fault_free (with_events l w).
Proof. done. Qed.
Lemma fault_free_with_db d w : fault_free w → fault_free (with_db d w).
Proof. done. Qed.

Lemma delete_with_fallback_ff w ev n :
  fault_free w →
  delete_with_fallback ev n w =
    (Ok (S n), with_events (filter (λ x, ev_uid x ≠ ev_uid ev) (events (remote w))) w).
Proof.
  intros Hff. unfold delete_with_fallback.
  erewrite bind_ok by (by apply attempt_load_ff).
  erewrite try_catch_ok; [done|].
  by erewrite bind_ok by (by apply delete_ff).
Qed.

Lemma push_session_unmapped_ff now s c w :
  fault_free w →
  get_sync_mapping (Some (id s)) None (db w) = [] →
  push_session now s c w =
    (Ok (S c.1, c.2),
     with_db (set_sync_mapping (id s) (session_uid (id s)) None now (db w))
       (with_events (put_event s (session_uid (id s)) (events (remote w))) w)).
Proof.
  intros Hff Hm. unfold push_session.
  erewrite bind_ok by apply on_db_gets. rewrite Hm.
  erewrite bind_ok by (by apply add_event_ff). done.
Qed.

Lemma push_session_mapped_ff now s c w m ms :
  fault_free w →
  get_sync_mapping (Some (id s)) None (db w) = m :: ms →
  push_session now s c w =
    (Ok (match objects_with (calendar_uid m) (events (remote w)) with
         | [] => (S c.1, c.2)
         | _ :: _ => (c.1, S c.2)
         end),
     with_events (update_events s (calendar_uid m) (events (remote w))) w).
Proof.
  intros Hff Hm. unfold push_session.
  erewrite bind_ok by apply on_db_gets. rewrite Hm.
  unfold update_events.
  erewrite try_catch_ok; [reflexivity|].
  erewrite bind_ok by (by apply search_uid_ff).
  destruct (objects_with (calendar_uid m) (events (remote w))) as [|ev evs] eqn:Hev.
  - by erewrite bind_ok by (by apply add_event_ff).
  - erewrite bind_ok by (by apply attempt_load_ff).
    unfold assign_fields.
    destruct (ev_dtstart ev) eqn:Hs; [destruct (ev_dtend ev) eqn:He|].
    + erewrite try_catch_ok; [reflexivity|].
      unfold bind at 1, ret at 1.
      by erewrite bind_ok by (by apply save_ff).
    + erewrite try_catch_raise by (unfold bind, raise; reflexivity).
      erewrite try_catch_ok; [reflexivity|].
      erewrite bind_ok; last first.
      { unfold attempt. erewrite try_catch_ok by (by apply delete_ff). done. }
      by erewrite bind_ok by (by apply add_event_ff).
    + erewrite try_catch_raise by (unfold bind, raise; reflexivity).
      erewrite try_catch_ok; [reflexivity|].
      erewrite bind_ok; last first.
      { unfold attempt. erewrite try_catch_ok by (by apply delete_ff). done. }
      by erewrite bind_ok by (by apply add_event_ff).
Qed.

End PushSteps.

(** ** One session of the push loop, when the server refuses the update *)

Section Conflict.
Import PomodoroDatabase CalDAVSync.

Lemma request_ok w t :
  tape (remote w) = None :: t → Server.request w = (Ok tt, with_tape t w).
Proof. intros H. unfold Server.request. by rewrite H. Qed.

Lemma request_fail w e t :
  tape (remote w) = Some e :: t → Server.request w = (Raise e, with_tape t w).
Proof. intros H. unfold Server.request. by rewrite H. Qed.

Lemma objects_with_put s uid evs :
  objects_with uid (put_event s uid evs) = [pushed_event s uid].
Proof.
  unfold objects_with, put_event. rewrite filter_app.
  rewrite filter_nil_of_filter; [|by intros x ? ?].
  rewrite filter_cons. by rewrite decide_True.
Qed.

(** C3.  Conflict recovery on push: the session has a mapping row, the
    search by the mapped UID finds the object, and the server refuses the
    save (with a precondition failure or any other error).  Then, whether
    the reload and the delete succeed or not, and provided the server
    accepts the new object, the step ends normally (no exception leaves
    it), counts the session as updated and not as new, leaves the ledger
    as it was, and the collection holds exactly one object with the mapped
    UID: the one built from the session. *)
Theorem conflict_recovery now s c w m ms ev evs s0 e0
    load_answer save_error delete_answer rest :
  get_sync_mapping (Some (id s)) None (db w) = m :: ms →
  objects_with (calendar_uid m) (events (remote w)) = ev :: evs →
  ev_dtstart ev = Some s0 → ev_dtend ev = Some e0 →
  tape (remote w) =
    None :: load_answer :: Some save_error :: delete_answer :: None :: rest →
  ∃ w',
    push_session now s c w = (Ok (c.1, S c.2), w') ∧
    db w' = db w ∧
    tape (remote w') = rest ∧
    objects_with (calendar_uid m) (events (remote w')) =
      [ pushed_event s (calendar_uid m) ].
Proof.
  intros Hm Hev Hs He Ht. unfold push_session.
  erewrite bind_ok by apply on_db_gets. rewrite Hm.
  assert (∃ w1, attempt (Server.load ev) (with_tape
            (load_answer :: Some save_error :: delete_answer :: None :: rest) w)
          = (Ok tt, w1) ∧ db w1 = db w ∧ events (remote w1) = events (remote w) ∧
            tape (remote w1) = Some save_error :: delete_answer :: None :: rest)
    as (w1 & Hload & Hdb1 & Hev1 & Ht1).
  { unfold attempt, try_catch, Server.load.
    destruct load_answer as [e|].
    - erewrite request_fail by done. by eexists.
    - erewrite request_ok by done. by eexists. }
  assert (∃ w2, attempt (Server.delete ev) (with_tape (delete_answer :: None :: rest) w1)
          = (Ok tt, w2) ∧ db w2 = db w ∧ tape (remote w2) = None :: rest)
    as (w2 & Hdel & Hdb2 & Ht2).
  { unfold attempt, try_catch, Server.delete.
    destruct delete_answer as [e|].
    - erewrite bind_raise by (by apply request_fail). by eexists.
    - erewrite bind_ok by (by apply request_ok). by eexists. }
  eexists. split.
  - erewrite try_catch_ok; [reflexivity|].
    erewrite bind_ok; last first.
    { unfold Server.search_uid. erewrite bind_ok by (by apply request_ok). done. }
    simpl. fold (objects_with (calendar_uid m) (events (remote w))). rewrite Hev.
    erewrite bind_ok by exact Hload.
    erewrite try_catch_raise; last first.
    { unfold assign_fields. rewrite Hs, He.
      unfold bind at 1, ret at 1.
      erewrite bind_raise; [done|].
      unfold Server.save. erewrite bind_raise; [done|].
      by apply request_fail. }
    erewrite try_catch_ok; [reflexivity|].
    erewrite bind_ok by exact Hdel.
    erewrite bind_ok; last first.
    { unfold Server.add_event. erewrite bind_ok by (by apply request_ok). done. }
    reflexivity.
  - simpl. split; [done|]. split; [done|].
    apply (objects_with_put s).
Qed.

End Conflict.

Lemma conflict_recovery_witness :
  ∃ w',
    CalDAVSync.push_session 90000 reading (0%nat, 0%nat) conflict_world
    = (Ok (0%nat, 1%nat), w') ∧
    db w' = db conflict_world ∧
    tape (remote w') = [] ∧
    objects_with "pomodoro-1@pomodoro-timer" (events (remote w')) =
      [ pushed_event reading "pomodoro-1@pomodoro-timer" ].
Proof.
  exact (conflict_recovery 90000 reading (0%nat, 0%nat) conflict_world
           reading_mapping [] stale_reading_event [] 86400 87900
           None "412 Precondition Failed" None []
           eq_refl eq_refl eq_refl eq_refl eq_refl).
Defined.

(** The whole push over the same state: the refused save does not make
    the push fail. *)
Example conflict_recovery_whole_push :
  (CalDAVSync.sync_to_calendar 90000 conflict_push_world).1 =
    Ok (ToOk 0 1 0 "Synced 0 new, updated 1 existing").
Proof. vm_compute. reflexivity. Qed.

(** ** Properties kept by computations *)

Section KeptProperties.
Import PomodoroDatabase CalDAVSync.

Section Preserves.
Context (P : world → Prop).

Lemma preserves_ret {A} (a : A) : preserves P (ret a).
Proof. intros w r w' HP [= _ <-]. done. Qed.

Lemma preserves_raise {A} e : preserves P (raise (A:=A) e).
Proof. intros w r w' HP [= _ <-]. done. Qed.

Lemma preserves_gets {A} (f : world → A) : preserves P (gets f).
Proof. intros w r w' HP [= _ <-]. done. Qed.

Lemma preserves_on_db_gets {A} (f : database → A) : preserves P (on_db (gets f)).
Proof. intros w r w' HP. rewrite on_db_gets. intros [= _ <-]. done. Qed.

Lemma preserves_modify (f : world → world) :
  (∀ w, P w → P (f w)) → preserves P (modify f).
Proof. intros Hf w r w' HP [= _ <-]. auto. Qed.

Lemma preserves_on_db_modify (f : database → database) :
  (∀ w, P w → P (with_db (f (db w)) w)) → preserves P (on_db (modify f)).
Proof. intros Hf w r w' HP [= _ <-]. auto. Qed.

Lemma preserves_bind {A B} (m : M world A) (k : A → M world B) :
  preserves P m → (∀ a, preserves P (k a)) → preserves P (bind m k).
Proof.
  intros Hm Hk w r w' HP. unfold bind.
  destruct (m w) as [[a|e] w1] eqn:Hrun.
  - apply (Hk a). by eapply Hm.
  - intros [= _ <-]. by eapply Hm.
Qed.

Lemma preserves_try_catch {A} (m : M world A) h :
  preserves P m → (∀ e, preserves P (h e)) → preserves P (try_catch m h).
Proof.
  intros Hm Hh w r w' HP. unfold try_catch.
  destruct (m w) as [[a|e] w1] eqn:Hrun.
  - intros [= _ <-]. by eapply Hm.
  - apply (Hh e). by eapply Hm.
Qed.

Lemma preserves_attempt (m : M world unit) : preserves P m → preserves P (attempt m).
Proof. intros Hm. apply preserves_try_catch; [done|]. intros e. apply preserves_ret. Qed.

Lemma preserves_for_each {A C} (body : A → C → M world C) l c :
  (∀ x c, x ∈ l → preserves P (body x c)) → preserves P (for_each body l c).
Proof.
  intros Hbody w r w' HP Hrun.
  eapply (for_each_preserves body P); [|exact HP|exact Hrun].
  intros x c1 s r1 s1 Hx HPs. by apply (Hbody x c1 Hx).
Qed.

End Preserves.

Section Total.

Lemma total_ret {A} (a : A) : total (ret a).
Proof. intros w. by eexists _, _. Qed.

Lemma total_gets {A} (f : world → A) : total (gets f).
Proof. intros w. by eexists _, _. Qed.

Lemma total_on_db {A} (m : M database A) :
  (∀ d, ∃ a d', m d = (Ok a, d')) → total (on_db m).
Proof.
  intros Hm w. unfold on_db. destruct (Hm (db w)) as (a & d' & ->). by eexists _, _.
Qed.

Lemma total_bind {A B} (m : M world A) (k : A → M world B) :
  total m → (∀ a, total (k a)) → total (bind m k).
Proof.
  intros Hm Hk w. destruct (Hm w) as (a & w1 & Hrun).
  destruct (Hk a w1) as (b & w2 & Hrun2). exists b, w2.
  by erewrite bind_ok.
Qed.

Lemma total_try_catch {A} (m : M world A) h :
  (∀ e, total (h e)) → total (try_catch m h).
Proof.
  intros Hh w. unfold try_catch. destruct (m w) as [[a|e] w1].
  - by eexists _, _.
  - apply Hh.
Qed.

Lemma total_attempt (m : M world unit) : total (attempt m).
Proof. apply total_try_catch. intros e. apply total_ret. Qed.

Lemma total_for_each {A C} (body : A → C → M world C) l c :
  (∀ x c, total (body x c)) → total (for_each body l c).
Proof.
  intros Hbody. revert c. induction l as [|x l IH]; intros c; [apply total_ret|].
  simpl. apply total_bind; [apply Hbody|]. intros c1. apply IH.
Qed.

Lemma total_delete_with_fallback ev n : total (delete_with_fallback ev n).
Proof.
  unfold delete_with_fallback. apply total_bind; [apply total_attempt|].
  intros _. apply total_try_catch. intros e. apply total_try_catch.
  intros e'. apply total_ret.
Qed.

Lemma total_sweep_mapping ids m n : total (sweep_mapping ids m n).
Proof.
  unfold sweep_mapping. case_decide; [apply total_ret|].
  apply total_try_catch. intros e.
  apply total_bind; [|intros; apply total_ret].
  apply total_on_db. intros d. by eexists _, _.
Qed.

Lemma total_sweep_event ids exp ev n : total (sweep_event ids exp ev n).
Proof.
  unfold sweep_event.
  destruct (is_pomodoro ev && bool_decide (ev_uid ev ∉ exp)); [|apply total_ret].
  apply total_bind; [apply total_on_db; intros d; by eexists _, _|].
  intros mapping.
  destruct (match mapping with [] => true | m :: _ => _ end); [|apply total_ret].
  apply total_bind; [apply total_delete_with_fallback|]. intros n'.
  apply total_bind; [|intros; apply total_ret].
  destruct mapping; [apply total_ret|].
  apply total_on_db. intros d. by eexists _, _.
Qed.

End Total.

End KeptProperties.

(** ** What the sweeps and the push of one session keep *)


Section Shrinking.
Import PomodoroDatabase CalDAVSync.
Context (P : world → Prop) (HP : shrink_closed P).

Lemma preserves_request : preserves P Server.request.
Proof.
  intros w r w' Hw. unfold Server.request.
  destruct (tape (remote w)) as [|[e|] t] eqn:Ht; intros [= _ <-]; try done.
  - apply (sc_request _ HP); [|done]. unfold fault_free. by rewrite Ht.
  - apply (sc_request _ HP); [|done]. unfold fault_free. by rewrite Ht.
Qed.

Lemma preserves_search_uid uid : preserves P (Server.search_uid uid).
Proof.
  apply preserves_bind; [apply preserves_request|]. intros _. apply preserves_gets.
Qed.

Lemma preserves_search_range lo hi : preserves P (Server.search_range lo hi).
Proof.
  apply preserves_bind; [apply preserves_request|]. intros _. apply preserves_gets.
Qed.

Lemma preserves_delete ev : preserves P (Server.delete ev).
Proof.
  apply preserves_bind; [apply preserves_request|]. intros _.
  apply preserves_modify. intros w. apply (sc_filter _ HP).
Qed.

Lemma preserves_delete_url url : preserves P (Server.delete_url url).
Proof.
  apply preserves_bind; [apply preserves_request|]. intros _.
  apply preserves_modify. intros w. apply (sc_filter _ HP).
Qed.

Lemma preserves_delete_with_fallback ev n : preserves P (delete_with_fallback ev n).
Proof.
  unfold delete_with_fallback.
  apply preserves_bind; [apply preserves_attempt, preserves_request|]. intros _.
  apply preserves_try_catch.
  - apply preserves_bind; [apply preserves_delete|]. intros _. apply preserves_ret.
  - intros e. apply preserves_try_catch; [|intros e'; apply preserves_ret].
    apply preserves_bind; [apply preserves_delete_url|]. intros _. apply preserves_ret.
Qed.

Lemma preserves_unmap sid uid :
  preserves P (on_db (modify (delete_sync_mapping sid uid))).
Proof. apply preserves_on_db_modify. intros w. apply (sc_unmap _ HP). Qed.

Lemma preserves_sweep_mapping ids m n : preserves P (sweep_mapping ids m n).
Proof.
  unfold sweep_mapping. case_decide; [apply preserves_ret|].
  apply preserves_try_catch.
  - apply preserves_bind; [apply preserves_search_uid|]. intros evs.
    apply preserves_bind.
    { destruct evs; [apply preserves_ret|apply preserves_delete_with_fallback]. }
    intros n'. apply preserves_bind; [apply preserves_unmap|].
    intros _. apply preserves_ret.
  - intros e. apply preserves_bind; [apply preserves_unmap|].
    intros _. apply preserves_ret.
Qed.

Lemma preserves_sweep_event ids exp ev n : preserves P (sweep_event ids exp ev n).
Proof.
  unfold sweep_event.
  destruct (is_pomodoro ev && bool_decide (ev_uid ev ∉ exp)); [|apply preserves_ret].
  apply preserves_bind; [apply preserves_on_db_gets|]. intros mapping.
  destruct (match mapping with [] => true | m :: _ => _ end); [|apply preserves_ret].
  apply preserves_bind; [apply preserves_delete_with_fallback|]. intros n'.
  apply preserves_bind; [|intros; apply preserves_ret].
  destruct mapping; [apply preserves_ret|apply preserves_unmap].
Qed.

End Shrinking.

Section Pushing.
Import PomodoroDatabase CalDAVSync.
Context (j : session) (P : world → Prop) (HP : push_closed j P).

Lemma preserves_save ev : preserves P (Server.save ev).
Proof.
  apply preserves_bind; [apply preserves_request, HP|]. intros _.
  apply preserves_modify. intros w. apply (pc_save _ _ HP).
Qed.

Lemma preserves_add_event uid :
  (∀ w, P w → P (with_events (put_event j uid (events (remote w))) w)) →
  preserves P
    (Server.add_event (summary_of j) (description_of j) (start_time j) (end_of j) uid).
Proof.
  intros Hadd. apply preserves_bind; [apply preserves_request, HP|]. intros _.
  apply preserves_modify. exact Hadd.
Qed.

Lemma preserves_assign_fields ev :
  preserves P
    (assign_fields ev (summary_of j) (description_of j) (start_time j) (end_of j)).
Proof.
  unfold assign_fields.
  destruct (ev_dtstart ev); [destruct (ev_dtend ev)|];
    (apply preserves_ret || apply preserves_raise).
Qed.

Lemma get_sync_mapping_subset sid uid d m :
  m ∈ get_sync_mapping sid uid d → m ∈ mappings d.
Proof.
  unfold get_sync_mapping.
  destruct (truthy_int sid); [by intros [_ ?]%list_elem_of_filter|].
  destruct (truthy_str uid); [by intros [_ ?]%list_elem_of_filter|done].
Qed.

Lemma preserves_push_session now c : preserves P (push_session now j c).
Proof.
  intros w0 r w' Hw0. unfold push_session.
  erewrite bind_ok by apply on_db_gets.
  destruct (get_sync_mapping (Some (id j)) None (db w0)) as [|m ms] eqn:Hget;
    intros Hrun.
  - refine (preserves_bind P _ _ _ _ w0 r w' Hw0 Hrun).
    { apply preserves_add_event. apply (pc_add_new _ _ HP). }
    intros _. apply preserves_bind; [|intros; apply preserves_ret].
    apply preserves_on_db_modify. intros w. apply (pc_map _ _ HP).
  - assert (m ∈ mappings (db w0)) as Hm.
    { eapply get_sync_mapping_subset. rewrite Hget. left. }
    assert (preserves P
              (Server.add_event (summary_of j) (description_of j) (start_time j)
                 (end_of j) (calendar_uid m))) as Hadd.
    { apply preserves_add_event. intros w. by apply (pc_add_mapped _ _ HP w0). }
    refine (preserves_try_catch P _ _ _ _ w0 r w' Hw0 Hrun).
    + apply preserves_bind; [apply preserves_search_uid, HP|]. intros [|ev evs].
      * apply preserves_bind; [exact Hadd|]. intros _. apply preserves_ret.
      * apply preserves_bind; [apply preserves_attempt, preserves_request, HP|].
        intros _. apply preserves_try_catch.
        -- apply preserves_bind; [apply preserves_assign_fields|]. intros ev'.
           apply preserves_bind; [apply preserves_save|]. intros _.
           apply preserves_ret.
        -- intros e. apply preserves_try_catch; [|intros; apply preserves_ret].
           apply preserves_bind; [apply preserves_attempt, preserves_delete, HP|].
           intros _. apply preserves_bind; [exact Hadd|]. intros _.
           apply preserves_ret.
    + intros e. apply preserves_bind; [exact Hadd|]. intros _. apply preserves_ret.
Qed.

End Pushing.

Section Instances.
Import PomodoroDatabase CalDAVSync.

Lemma fault_free_shrink_closed : shrink_closed fault_free.
Proof.
  split.
  - intros w t Ht Hff. unfold fault_free. simpl. by apply Ht.
  - by intros w Q dec Hff.
  - by intros w sid uid Hff.
Qed.

Lemma has_sessions_shrink_closed l : shrink_closed (has_sessions l).
Proof.
  split; unfold has_sessions.
  - by intros w t _ H.
  - by intros w Q dec H.
  - intros w sid uid H. simpl. unfold delete_sync_mapping.
    destruct (truthy_int sid); [done|]. by destruct (truthy_str uid).
Qed.

Lemma mappings_delete_subset sid uid d r :
  r ∈ mappings (delete_sync_mapping sid uid d) → r ∈ mappings d.
Proof.
  unfold delete_sync_mapping.
  destruct (truthy_int sid); [by intros [_ ?]%list_elem_of_filter|].
  destruct (truthy_str uid); [by intros [_ ?]%list_elem_of_filter|done].
Qed.

Lemma unmapped_shrink_closed k : shrink_closed (unmapped k).
Proof.
  split; unfold unmapped.
  - by intros w t _ H.
  - by intros w Q dec H.
  - intros w sid uid H r Hr. simpl in Hr.
    apply mappings_delete_subset in Hr. by apply H.
Qed.

Lemma gone_shrink_closed u : shrink_closed (gone u).
Proof.
  split; unfold gone.
  - by intros w t _ H.
  - intros w Q dec [H1 H2]. split; [done|]. simpl.
    intros (e & -> & [_ He]%list_elem_of_filter)%list_elem_of_fmap.
    apply H2. by apply list_elem_of_fmap_2.
  - intros w sid uid [H1 H2]. split; [|done].
    intros r Hr. simpl in Hr. apply mappings_delete_subset in Hr. by apply H1.
Qed.

Lemma fault_free_push_closed j : push_closed j fault_free.
Proof. split; [apply fault_free_shrink_closed|done..]. Qed.

Lemma has_sessions_push_closed j l : push_closed j (has_sessions l).
Proof. split; [apply has_sessions_shrink_closed|done..]. Qed.

Lemma unmapped_push_closed j k : id j ≠ k → push_closed j (unmapped k).
Proof.
  intros Hne. split; [apply unmapped_shrink_closed|done|done|done|].
  intros w now H r Hr. simpl in Hr.
  apply elem_of_app in Hr as [[_ Hr]%list_elem_of_filter| ->%list_elem_of_singleton].
  - by apply H.
  - done.
Qed.

Lemma gone_push_closed j u : session_uid (id j) ≠ u → push_closed j (gone u).
Proof.
  intros Hne. split; [apply gone_shrink_closed|..].
  - intros w ev [H1 H2]. split; [done|]. simpl.
    rewrite <- list_fmap_compose. erewrite (list_fmap_ext _ ev_uid); [done|].
    intros i e _. simpl. by case_decide.
  - intros w0 w m [H0 _] Hm [H1 H2]. split; [done|]. simpl.
    rewrite put_event_uids. intros [->|?]; [|done]. by apply (H0 m).
  - intros w [H1 H2]. split; [done|]. simpl.
    rewrite put_event_uids. by intros [->|?].
  - intros w now [H1 H2]. split; [|done]. intros r Hr. simpl in Hr.
    apply elem_of_app in Hr as [[_ Hr]%list_elem_of_filter| ->%list_elem_of_singleton].
    + by apply H1.
    + done.
Qed.

End Instances.

(** ** What the first loop of the push establishes, whatever the server answers *)

Section Purge.
Import PomodoroDatabase CalDAVSync.

Section Post.
Context (Q : world → Prop).

Lemma post_bind_first {A B} (m : M world A) (k : A → M world B) :
  post Q m → (∀ a, preserves Q (k a)) → post Q (bind m k).
Proof.
  intros Hm Hk w b w'. unfold bind.
  destruct (m w) as [[a|e] w1] eqn:Hrun; [|done].
  intros Hk'. eapply Hk; [|exact Hk']. by eapply Hm.
Qed.

Lemma post_bind_last {A B} (m : M world A) (k : A → M world B) :
  (∀ a, post Q (k a)) → post Q (bind m k).
Proof.
  intros Hk w b w'. unfold bind.
  destruct (m w) as [[a|e] w1] eqn:Hrun; [|done]. apply Hk.
Qed.

Lemma post_try_catch {A} (m : M world A) h :
  post Q m → (∀ e, post Q (h e)) → post Q (try_catch m h).
Proof.
  intros Hm Hh w a w'. unfold try_catch.
  destruct (m w) as [[a'|e] w1] eqn:Hrun.
  - intros [= <- <-]. by eapply Hm.
  - apply Hh.
Qed.

Lemma post_on_db_modify (f : database → database) :
  (∀ w, Q (with_db (f (db w)) w)) → post Q (on_db (modify f)).
Proof. intros Hf w a w' [= _ <-]. apply Hf. Qed.

End Post.

Lemma no_row_shrink_closed u : shrink_closed (no_row u).
Proof.
  split; unfold no_row.
  - by intros w t _ H.
  - by intros w Q dec H.
  - intros w sid uid H r Hr. simpl in Hr.
    apply mappings_delete_subset in Hr. by apply H.
Qed.

Lemma rows_within_shrink_closed ms : shrink_closed (rows_within ms).
Proof.
  split; unfold rows_within.
  - by intros w t _ H.
  - by intros w Q dec H.
  - intros w sid uid H r Hr. simpl in Hr.
    apply mappings_delete_subset in Hr. by apply H.
Qed.

Lemma unmap_purges u :
  u ≠ "" → post (no_row u) (on_db (modify (delete_sync_mapping None (Some u)))).
Proof.
  intros Hu. apply post_on_db_modify. intros w r Hr. simpl in Hr.
  rewrite delete_sync_mapping_by_uid in Hr by done. simpl in Hr.
  by apply list_elem_of_filter in Hr as [? _].
Qed.

Lemma sweep_mapping_purges (ids : gset Z) x n :
  session_id x ∉ ids → calendar_uid x ≠ "" →
  post (no_row (calendar_uid x)) (sweep_mapping ids x n).
Proof.
  intros Hout Hu. unfold sweep_mapping. rewrite decide_False by done.
  apply post_try_catch.
  - apply post_bind_last. intros evs. apply post_bind_last. intros n'.
    apply post_bind_first; [by apply unmap_purges|].
    intros _. apply preserves_ret.
  - intros e. apply post_bind_first; [by apply unmap_purges|].
    intros _. apply preserves_ret.
Qed.

Lemma sweep_mappings_purge (ids : gset Z) l n w x :
  x ∈ l → session_id x ∉ ids → calendar_uid x ≠ "" →
  ∃ n' w',
    for_each (sweep_mapping ids) l n w = (Ok n', w') ∧
    no_row (calendar_uid x) w'.
Proof.
  intros Hx Hout Hu.
  destruct (total_for_each (sweep_mapping ids) l n (total_sweep_mapping ids) w)
    as (n' & w' & Hrun).
  exists n', w'. split; [done|].
  revert n w Hrun. induction l as [|y l IH]; intros n w Hrun;
    [by apply elem_of_nil in Hx|].
  simpl in Hrun.
  destruct (total_sweep_mapping ids y n w) as (n1 & w1 & Hstep).
  erewrite bind_ok in Hrun by exact Hstep.
  destruct (decide (x = y)) as [<-|Hne].
  - eapply (preserves_for_each (no_row (calendar_uid x))); [|..|exact Hrun].
    + intros z c _. apply preserves_sweep_mapping, no_row_shrink_closed.
    + by eapply sweep_mapping_purges.
  - apply elem_of_cons in Hx as [?|Hx]; [done|]. by eapply IH.
Qed.

End Purge.

(** ** The third loop of the push *)

Section PushLoop.
Import PomodoroDatabase CalDAVSync.

Lemma filter_all {A} (P : A → Prop) `{!∀ x, Decision (P x)} (l : list A) :
  (∀ x, x ∈ l → P x) → filter P l = l.
Proof.
  induction l as [|a l IH]; intros Hall; [done|].
  rewrite filter_cons, decide_True by (apply Hall; left).
  f_equal. apply IH. intros x Hx. apply Hall. by right.
Qed.

Lemma filter_none {A} (P : A → Prop) `{!∀ x, Decision (P x)} (l : list A) :
  (∀ x, x ∈ l → ¬ P x) → filter P l = [].
Proof.
  induction l as [|a l IH]; intros Hall; [done|].
  rewrite filter_cons, decide_False by (apply Hall; left).
  apply IH. intros x Hx. apply Hall. by right.
Qed.

Lemma same_frame_refl w : same_frame w w.
Proof. done. Qed.
Lemma same_frame_trans w1 w2 w3 :
  same_frame w1 w2 → same_frame w2 w3 → same_frame w1 w3.
Proof. unfold same_frame. intros (?&?&?&?) (?&?&?&?). repeat split; congruence. Qed.

Lemma pushed_event_is_pomodoro s uid : is_pomodoro (pushed_event s uid) = true.
Proof. unfold is_pomodoro. by destruct (uid_is_pomodoro _). Qed.

Lemma rows_of_session d k :
  k ≠ 0 →
  get_sync_mapping (Some k) None d = [] ↔ k ∉ session_id <$> mappings d.
Proof.
  intros Hk. rewrite get_sync_mapping_by_id by done. split.
  - intros Hget (m & Hm & Hin)%list_elem_of_fmap.
    by apply (filter_nil_not_elem_of _ _ m Hget (eq_sym Hm)).
  - intros Hno. apply filter_none. intros m Hm Heq. apply Hno.
    rewrite <- Heq. by apply list_elem_of_fmap_2.
Qed.

Lemma push_session_step now s c w :
  fault_free w → push_core (db w) (events (remote w)) → s ∈ sessions (db w) →
  ∃ c' w',
    push_session now s c w = (Ok c', w') ∧
    fault_free w' ∧ same_frame w w' ∧
    sessions (db w') = sessions (db w) ∧
    push_core (db w') (events (remote w')) ∧
    pushed s (db w') (events (remote w')) ∧
    (∀ m, m ∈ mappings (db w) →
       m ∈ mappings (db w') ∧
       (calendar_uid m ∈ ev_uid <$> events (remote w) →
        calendar_uid m ∈ ev_uid <$> events (remote w'))) ∧
    (pushed s (db w) (events (remote w)) →
       c' = (c.1, S c.2) ∧ mappings (db w') = mappings (db w) ∧
       ∀ x, x ∈ ev_uid <$> events (remote w') ↔ x ∈ ev_uid <$> events (remote w)).
Proof.
  intros Hff [Hwf Horph Hcoll Hstray] Hs.
  pose proof (wf_positive _ Hwf s Hs) as Hpos.
  assert (id s ≠ 0) as Hnz by lia.
  destruct (get_sync_mapping (Some (id s)) None (db w)) as [|m ms] eqn:Hget.
  - (* no row: create the object and the row *)
    pose proof (proj1 (rows_of_session _ _ Hnz) Hget) as Hunmapped.
    assert (session_uid (id s) ∉ calendar_uid <$> mappings (db w)) as Hfree.
    { intros (m & Hm & Hin)%list_elem_of_fmap. apply Hunmapped.
      by eapply Hcoll. }
    assert (filter (λ m, session_id m ≠ id s ∧ calendar_uid m ≠ session_uid (id s))
              (mappings (db w)) = mappings (db w)) as Hkeep.
    { apply filter_all. intros m Hm. split; intros Heq.
      - apply Hunmapped. rewrite <- Heq. by apply list_elem_of_fmap_2.
      - apply Hfree. rewrite <- Heq. by apply list_elem_of_fmap_2. }
    set (row := {| session_id := id s; calendar_uid := session_uid (id s);
                   calendar_url := None; last_synced := now |}).
    assert (set_sync_mapping (id s) (session_uid (id s)) None now (db w) =
            with_mappings (mappings (db w) ++ [row]) (db w)) as Hset.
    { unfold set_sync_mapping. by rewrite Hkeep. }
    pose proof (push_session_unmapped_ff now s c w Hff Hget) as Hrun.
    rewrite Hset in Hrun.
    eexists _, _. split; [exact Hrun|].
    split; [exact Hff|]. split; [done|]. split; [done|]. simpl.
    split; [split; simpl|].
    + (* ledger_wf *)
      destruct Hwf as [Hids Hp [Hu1 Hu2] Hne]. split; simpl; [exact Hids|exact Hp| |].
      * split; rewrite fmap_app; apply NoDup_app;
          (split; [done|]); (split; [|apply NoDup_singleton]);
          intros x Hx ->%list_elem_of_singleton; done.
      * intros m [Hm| ->%list_elem_of_singleton]%elem_of_app; [by apply Hne|done].
    + (* no_orphans *)
      intros m [Hm| ->%list_elem_of_singleton]%elem_of_app; simpl.
      * by apply Horph.
      * by apply list_elem_of_fmap_2.
    + (* no_collision *)
      intros s' m Hs' Hm Heq. simpl in *. rewrite fmap_app, elem_of_app.
      apply elem_of_app in Hm as [Hm| ->%list_elem_of_singleton].
      * left. by eapply Hcoll.
      * right. simpl in Heq. apply session_uid_inj in Heq as <-. simpl. left.
    + (* no_stray *)
      intros e He Hp. simpl in *. rewrite fmap_app, elem_of_app.
      apply elem_of_put_event in He as [He| ->].
      * left. by apply Hstray.
      * right. simpl. left.
    + split; [|split].
      * exists row. simpl. split; [apply elem_of_app; right; left|].
        split; [done|]. apply put_event_uids. by left.
      * intros m Hm. split; [apply elem_of_app; by left|].
        intros Hin. apply put_event_uids. by right.
      * intros (m & Hm & Hid & _). exfalso. apply Hunmapped.
        rewrite <- Hid. by apply list_elem_of_fmap_2.
  - (* a row: update, or create again, the object it names *)
    assert (m ∈ mappings (db w) ∧ session_id m = id s) as [Hm Hid].
    { rewrite get_sync_mapping_by_id in Hget by done.
      assert (m ∈ filter (λ m, session_id m = id s) (mappings (db w))) as Hin
        by (rewrite Hget; left).
      apply list_elem_of_filter in Hin. tauto. }
    eexists _, _. split; [by eapply push_session_mapped_ff|].
    split; [exact Hff|]. split; [done|]. split; [done|]. simpl.
    split; [split; simpl; try done|].
    + intros e He Hp.
      apply elem_of_update_events in He as [He|He]; [by apply Hstray|].
      rewrite He. by apply list_elem_of_fmap_2.
    + split; [|split].
      * exists m. split; [done|]. split; [done|]. apply update_events_uids. by left.
      * intros m' Hm'. split; [done|]. intros Hin. apply update_events_uids. by right.
      * intros (m' & Hm' & Hid' & Hev).
        assert (m' = m) as ->.
        { eapply (NoDup_fmap_eq session_id); [apply Hwf|done|done|congruence]. }
        split; [|split; [done|]].
        -- destruct (objects_with (calendar_uid m) (events (remote w))) eqn:Hobj;
             [|done].
           by apply objects_with_nil in Hobj.
        -- intros x. rewrite update_events_uids. split; [|by right].
           by intros [->|?].
Qed.

Lemma pushed_persists s w w' :
  (∀ m, m ∈ mappings (db w) →
     m ∈ mappings (db w') ∧
     (calendar_uid m ∈ ev_uid <$> events (remote w) →
      calendar_uid m ∈ ev_uid <$> events (remote w'))) →
  pushed s (db w) (events (remote w)) → pushed s (db w') (events (remote w')).
Proof.
  intros Hmono (m & Hm & Hid & Hev). exists m.
  destruct (Hmono m Hm) as [Hm' Hev']. auto.
Qed.

Lemma push_sessions_loop now l c w :
  fault_free w → push_core (db w) (events (remote w)) →
  (∀ s, s ∈ l → s ∈ sessions (db w)) →
  ∃ c' w',
    for_each (push_session now) l c w = (Ok c', w') ∧
    fault_free w' ∧ same_frame w w' ∧
    sessions (db w') = sessions (db w) ∧
    push_core (db w') (events (remote w')) ∧
    (∀ s, s ∈ l → pushed s (db w') (events (remote w'))) ∧
    (∀ m, m ∈ mappings (db w) →
       m ∈ mappings (db w') ∧
       (calendar_uid m ∈ ev_uid <$> events (remote w) →
        calendar_uid m ∈ ev_uid <$> events (remote w'))) ∧
    ((∀ s, s ∈ l → pushed s (db w) (events (remote w))) →
       c' = (c.1, (c.2 + length l)%nat) ∧ mappings (db w') = mappings (db w) ∧
       ∀ x, x ∈ ev_uid <$> events (remote w') ↔ x ∈ ev_uid <$> events (remote w)).
Proof.
  revert c w. induction l as [|x l IH]; intros c w Hff Hcore Hl.
  - exists c, w. split; [done|]. split; [done|]. split; [done|].
    split; [done|]. split; [done|]. split; [by intros s ?%elem_of_nil|].
    split; [done|]. intros _. split; [|done].
    destruct c; simpl; f_equal; lia.
  - destruct (push_session_step now x c w Hff Hcore)
      as (c1 & w1 & Hrun1 & Hff1 & Hfr1 & Hs1 & Hcore1 & Hx1 & Hmono1 & Hq1).
    { apply Hl. left. }
    destruct (IH c1 w1 Hff1 Hcore1)
      as (c' & w' & Hrun & Hff' & Hfr' & Hs' & Hcore' & Hall' & Hmono' & Hq').
    { intros s Hs. rewrite Hs1. apply Hl. by right. }
    exists c', w'. split; [simpl; by erewrite bind_ok|].
    split; [done|]. split; [by eapply same_frame_trans|].
    split; [congruence|]. split; [done|]. split; [|split].
    + intros s [->|Hs]%elem_of_cons; [|by apply Hall'].
      by eapply pushed_persists.
    + intros m Hm. destruct (Hmono1 m Hm) as [Hm1 He1].
      destruct (Hmono' m Hm1) as [Hm' He']. auto.
    + intros Hpushed.
      destruct Hq1 as (-> & Hmap1 & Huid1); [apply Hpushed; left|].
      destruct Hq' as (-> & Hmap' & Huid'); [|].
      { intros s Hs. eapply pushed_persists; [exact Hmono1|].
        apply Hpushed. by right. }
      split; [simpl; f_equal; lia|]. split; [congruence|].
      intros y. by rewrite Huid', Huid1.
Qed.

End PushLoop.

(** ** The two sweeps of the push *)

Section Sweeps.
Import PomodoroDatabase CalDAVSync.

Lemma with_events_id w : with_events (events (remote w)) w = w.
Proof. by destruct w as [? ? ? ? []]. Qed.

Lemma sweep_event_keeps ids (exp : gset string) ev n w :
  (is_pomodoro ev = true → ev_uid ev ∈ exp) →
  sweep_event ids exp ev n w = (Ok n, w).
Proof.
  intros Hexp. unfold sweep_event.
  destruct (is_pomodoro ev); [|done].
  rewrite bool_decide_false; [done|]. intros Hno. by apply Hno, Hexp.
Qed.

Lemma sweep_events_keep ids (exp : gset string) l n w :
  (∀ ev, ev ∈ l → is_pomodoro ev = true → ev_uid ev ∈ exp) →
  for_each (sweep_event ids exp) l n w = (Ok n, w).
Proof.
  induction l as [|ev l IH]; intros Hexp; [done|]. simpl.
  erewrite bind_ok by (apply sweep_event_keeps, Hexp; left).
  apply IH. intros e He. apply Hexp. by right.
Qed.

Lemma sweep_mapping_live (ids : gset Z) m n w :
  session_id m ∈ ids → sweep_mapping ids m n w = (Ok n, w).
Proof. intros Hin. unfold sweep_mapping. by rewrite decide_True. Qed.

Lemma sweep_mapping_orphan_ff (ids : gset Z) m n w :
  session_id m ∉ ids → fault_free w → calendar_uid m ≠ "" →
  ∃ n',
    sweep_mapping ids m n w =
      (Ok n',
       with_db (with_mappings
                  (filter (λ r, calendar_uid r ≠ calendar_uid m) (mappings (db w)))
                  (db w))
         (with_events
            (filter (λ x, ev_uid x ≠ calendar_uid m) (events (remote w))) w)).
Proof.
  intros Hout Hff Hu. unfold sweep_mapping. rewrite decide_False by done.
  destruct (objects_with (calendar_uid m) (events (remote w))) as [|ev evs] eqn:Hobj.
  - exists n. erewrite try_catch_ok; [reflexivity|].
    erewrite bind_ok by (by apply search_uid_ff). rewrite Hobj.
    unfold bind at 1, ret at 1.
    erewrite bind_ok by apply on_db_modify.
    rewrite delete_sync_mapping_by_uid by done.
    unfold ret. rewrite (filter_all _ (events (remote w))).
    + by rewrite with_events_id.
    + intros x Hx Heq. apply objects_with_nil in Hobj. apply Hobj.
      rewrite <- Heq. by apply list_elem_of_fmap_2.
  - exists (S n). apply objects_with_head in Hobj as Hhead. destruct Hhead as [_ Hev].
    erewrite try_catch_ok; [reflexivity|].
    erewrite bind_ok by (by apply search_uid_ff). rewrite Hobj.
    erewrite bind_ok by (by apply delete_with_fallback_ff).
    erewrite bind_ok by apply on_db_modify.
    rewrite delete_sync_mapping_by_uid by done.
    unfold ret. rewrite Hev. done.
Qed.

End Sweeps.

(** ** The first loop of the push *)

Section OrphanLoop.
Import PomodoroDatabase CalDAVSync.

Lemma ledger_wf_filter (P : sync_mapping → Prop) `{!∀ x, Decision (P x)} d :
  ledger_wf d → ledger_wf (with_mappings (filter P (mappings d)) d).
Proof.
  intros [Hids Hpos Hu Hne]. split; simpl; [done|done| |].
  - by apply mapping_unique_filter.
  - intros m Hm%list_elem_of_filter. apply Hne. tauto.
Qed.

Lemma sweep_mappings_loop (ids : gset Z) l n w :
  (∀ k, k ∈ ids ↔ k ∈ id <$> sessions (db w)) →
  fault_free w → ledger_wf (db w) → no_collision (db w) →
  no_stray (db w) (events (remote w)) →
  (∀ x, x ∈ l → calendar_uid x ≠ "") →
  (∀ x r, x ∈ l → r ∈ mappings (db w) →
     calendar_uid r = calendar_uid x → session_id r = session_id x) →
  ∃ n' w',
    for_each (sweep_mapping ids) l n w = (Ok n', w') ∧
    fault_free w' ∧ same_frame w w' ∧
    sessions (db w') = sessions (db w) ∧
    ledger_wf (db w') ∧ no_collision (db w') ∧
    no_stray (db w') (events (remote w')) ∧
    (∀ m, m ∈ mappings (db w') → m ∈ mappings (db w)) ∧
    (∀ m, m ∈ mappings (db w') → session_id m ∉ ids → m ∉ l) ∧
    ((∀ x, x ∈ l → session_id x ∈ ids) → n' = n ∧ w' = w).
Proof.
  revert n w. induction l as [|x l IH]; intros n w Hids Hff Hwf Hcoll Hstray Hne Hrows.
  - exists n, w. split; [done|]. repeat (split; [done|]).
    split; [by intros m _ _ ?%elem_of_nil|done].
  - destruct (decide (session_id x ∈ ids)) as [Hlive|Horphan].
    + destruct (IH n w) as (n' & w' & Hrun & Hff' & Hfr & Hs & Hwf' & Hcoll' &
                               Hstray' & Hsub & Hrest & Hquiet); try done.
      { intros y Hy. apply Hne. by right. }
      { intros y r Hy. apply Hrows. by right. }
      exists n', w'. split.
      { simpl. by erewrite bind_ok by (by apply sweep_mapping_live). }
      repeat (split; [done|]). split.
      * intros m Hm Hout [->|Hin]%elem_of_cons; [done|]. by eapply Hrest.
      * intros Hall. apply Hquiet. intros y Hy. apply Hall. by right.
    + assert (calendar_uid x ≠ "") as Hux by (apply Hne; left).
      destruct (sweep_mapping_orphan_ff ids x n w Horphan Hff Hux) as (n1 & Hstep).
      set (d1 := with_mappings
                   (filter (λ r, calendar_uid r ≠ calendar_uid x) (mappings (db w)))
                   (db w)) in *.
      set (w1 := with_db d1
                   (with_events
                      (filter (λ e, ev_uid e ≠ calendar_uid x) (events (remote w))) w))
        in *.
      destruct (IH n1 w1) as (n' & w' & Hrun & Hff' & Hfr & Hs & Hwf' & Hcoll' &
                                 Hstray' & Hsub & Hrest & Hquiet).
      { done. }
      { exact Hff. }
      { by apply ledger_wf_filter. }
      { intros s m Hs Hm Heq. simpl in *.
        apply list_elem_of_filter in Hm as [_ Hm].
        pose proof (Hcoll s m Hs Hm Heq) as (r & Hr & Hin)%list_elem_of_fmap.
        rewrite Hr. apply list_elem_of_fmap_2. apply list_elem_of_filter.
        split; [|done]. intros Hsame. apply Horphan.
        rewrite <- (Hrows x r); [|by left|done|done].
        rewrite <- Hr. apply Hids. by apply list_elem_of_fmap_2. }
      { intros e He Hp. simpl in *.
        apply list_elem_of_filter in He as [Hne' He].
        pose proof (Hstray e He Hp) as (r & Hr & Hin)%list_elem_of_fmap.
        rewrite Hr. apply list_elem_of_fmap_2. apply list_elem_of_filter.
        split; [congruence|done]. }
      { intros y Hy. apply Hne. by right. }
      { intros y r Hy Hr. simpl in Hr. apply list_elem_of_filter in Hr as [_ Hr].
        apply Hrows; [by right|done]. }
      exists n', w'. split.
      { simpl. by erewrite bind_ok by exact Hstep. }
      split; [done|]. split; [exact Hfr|]. split; [exact Hs|].
      repeat (split; [done|]). split; [|split].
      * intros m Hm. apply Hsub in Hm. simpl in Hm.
        by apply list_elem_of_filter in Hm as [_ Hm].
      * intros m Hm Hout [->|Hin]%elem_of_cons; [|by eapply Hrest].
        apply Hsub in Hm. simpl in Hm.
        by apply list_elem_of_filter in Hm as [Hm _].
      * intros Hall. exfalso. apply Horphan, Hall. left.
Qed.

End OrphanLoop.

(** ** The push as a whole, when the server answers every request *)

Section PushWhole.
Import PomodoroDatabase CalDAVSync.

Lemma elem_of_get_all_sessions s d : s ∈ get_all_sessions d ↔ s ∈ sessions d.
Proof. unfold get_all_sessions. by rewrite merge_sort_Permutation. Qed.

Lemma length_get_all_sessions d : length (get_all_sessions d) = length (sessions d).
Proof. unfold get_all_sessions. by rewrite merge_sort_Permutation. Qed.

Lemma ids_get_all_sessions k d :
  k ∈ id <$> get_all_sessions d ↔ k ∈ id <$> sessions d.
Proof. unfold get_all_sessions. by rewrite merge_sort_Permutation. Qed.

Lemma with_calendar_id w : calendar w = true → with_calendar true w = w.
Proof. intros <-. by destruct w. Qed.

Lemma connect_ff w :
  fault_free w → truthy_str (config_url w) ≠ None → caldav_installed w = true →
  connect w = (Ok (true, None), with_calendar true w).
Proof.
  intros Hff Hurl Hinst. unfold connect, bind at 1, gets at 1.
  destruct (truthy_str (config_url w)); [|done].
  erewrite try_catch_ok; [reflexivity|].
  unfold bind at 1, gets at 1. rewrite Hinst.
  by erewrite bind_ok by (by apply request_ff).
Qed.

Lemma ensure_calendar_ff w :
  fault_free w → connectable w →
  ensure_calendar w = (Ok None, with_calendar true w).
Proof.
  intros Hff Hc. unfold ensure_calendar, bind at 1, gets at 1.
  destruct (calendar w) eqn:Hcal.
  { unfold ret. by rewrite with_calendar_id. }
  destruct Hc as [Hc|[Hurl Hinst]]; [congruence|].
  by erewrite bind_ok by (by apply connect_ff).
Qed.

Lemma in_sync_of_pushed w :
  fault_free w → calendar w = true →
  push_core (db w) (events (remote w)) →
  (∀ s, s ∈ sessions (db w) → pushed s (db w) (events (remote w))) →
  in_sync w.
Proof.
  intros Hff Hcal [Hwf Horph Hcoll Hstray] Hpushed. split; try done.
  - intros s Hs. destruct (Hpushed s Hs) as (m & Hm & Hid & _).
    rewrite <- Hid. by apply list_elem_of_fmap_2.
  - intros m Hm.
    pose proof (Horph m Hm) as (s & Hid & Hs)%list_elem_of_fmap.
    destruct (Hpushed s Hs) as (m' & Hm' & Hid' & Hev).
    assert (m' = m) as <-; [|done].
    eapply (NoDup_fmap_eq session_id); [apply Hwf|done|done|congruence].
Qed.

Lemma pushed_of_in_sync w s :
  in_sync w → s ∈ sessions (db w) → pushed s (db w) (events (remote w)).
Proof.
  intros Hsync Hs.
  pose proof (sync_all_mapped _ Hsync s Hs) as (m & Hid & Hm)%list_elem_of_fmap.
  exists m. split; [done|]. split; [done|]. by apply (sync_mirrored _ Hsync).
Qed.

Lemma push_body_ready now w :
  fault_free w → calendar w = true → ledger_wf (db w) →
  no_collision (db w) → no_stray (db w) (events (remote w)) →
  ∃ synced updated deleted msg w',
    push_body now w = (Ok (ToOk synced updated deleted msg), w') ∧
    in_sync w' ∧ sessions (db w') = sessions (db w) ∧
    (in_sync w →
       synced = 0%nat ∧ updated = length (sessions (db w)) ∧ deleted = 0%nat ∧
       mappings (db w') = mappings (db w) ∧
       ∀ x, x ∈ ev_uid <$> events (remote w') ↔ x ∈ ev_uid <$> events (remote w)).
Proof.
  intros Hff Hcal Hwf Hcoll Hstray. unfold push_body.
  erewrite bind_ok by apply on_db_gets.
  erewrite bind_ok by apply on_db_gets.
  set (ids := list_to_set (id <$> get_all_sessions (db w)) : gset Z).
  set (exp := (list_to_set ((λ s, session_uid (id s)) <$> get_all_sessions (db w)) ∪
               list_to_set (calendar_uid <$>
                  filter (λ m, session_id m ∈ ids)
                    (get_sync_mapping None None (db w)))) : gset string).
  assert (∀ k, k ∈ ids ↔ k ∈ id <$> sessions (db w)) as Hids.
  { intros k. unfold ids. rewrite elem_of_list_to_set. apply ids_get_all_sessions. }
  change (get_sync_mapping None None (db w)) with (mappings (db w)) in *.
  destruct (sweep_mappings_loop ids (mappings (db w)) 0%nat w)
    as (n1 & w1 & Hrun1 & Hff1 & Hfr1 & Hs1 & Hwf1 & Hcoll1 & Hstray1 & Hsub1 &
        Hrest1 & Hquiet1); try done.
  { apply Hwf. }
  { intros x r Hx Hr Heq. f_equal.
    eapply (NoDup_fmap_eq calendar_uid); [apply Hwf|done|done|done]. }
  assert (no_orphans (db w1)) as Horph1.
  { intros m Hm. rewrite Hs1. apply Hids.
    destruct (decide (session_id m ∈ ids)) as [|Hout]; [done|].
    exfalso. by eapply Hrest1; [| |apply Hsub1]. }
  erewrite bind_ok by exact Hrun1.
  erewrite bind_ok; last first.
  { erewrite try_catch_ok; [reflexivity|].
    erewrite bind_ok by (by apply search_range_ff).
    erewrite bind_ok; [reflexivity|].
    apply sweep_events_keep. intros ev Hev Hp.
    apply list_elem_of_filter in Hev as [_ Hev].
    pose proof (Hstray1 ev Hev Hp) as (r & Hr & Hin)%list_elem_of_fmap.
    unfold exp. apply elem_of_union. right. rewrite elem_of_list_to_set.
    rewrite Hr. apply list_elem_of_fmap_2. apply list_elem_of_filter.
    split; [|by apply Hsub1]. apply Hids. rewrite <- Hs1. by apply Horph1. }
  destruct (push_sessions_loop now (get_all_sessions (db w)) (0%nat, 0%nat) w1)
    as (c & w' & Hrun3 & Hff' & Hfr' & Hs' & Hcore' & Hall' & Hmono' & Hquiet');
    [done|done| |].
  { intros s Hs. rewrite Hs1. by apply elem_of_get_all_sessions. }
  erewrite bind_ok by exact Hrun3.
  eexists _, _, _, _, w'. split; [reflexivity|].
  split; [|split; [congruence|]].
  - apply in_sync_of_pushed; [done| |done|].
    + destruct Hfr' as [-> _]. by destruct Hfr1 as [-> _].
    + intros s Hs. apply Hall'. apply elem_of_get_all_sessions. congruence.
  - intros Hsync.
    destruct Hquiet1 as [-> ->].
    { intros x Hx. apply Hids. by apply (sync_no_orphans _ Hsync). }
    destruct Hquiet' as (-> & Hmap & Huid).
    { intros s Hs. apply pushed_of_in_sync; [done|].
      by apply elem_of_get_all_sessions. }
    simpl. by rewrite length_get_all_sessions.
Qed.

End PushWhole.

(** ** The push after its first loop *)

Section PushAny.
Import PomodoroDatabase CalDAVSync.

Lemma ensure_calendar_held w : calendar w = true → ensure_calendar w = (Ok None, w).
Proof. intros Hc. unfold ensure_calendar, bind, gets. by rewrite Hc. Qed.

Lemma sweep_mappings_gone (ids : gset Z) l n w x :
  fault_free w → x ∈ l → session_id x ∉ ids → calendar_uid x ≠ "" →
  ∃ n' w',
    for_each (sweep_mapping ids) l n w = (Ok n', w') ∧
    gone (calendar_uid x) w' ∧ fault_free w'.
Proof.
  intros Hff Hx Hout Hu.
  destruct (total_for_each (sweep_mapping ids) l n (total_sweep_mapping ids) w)
    as (n' & w' & Hrun).
  exists n', w'. split; [done|]. split; last first.
  { eapply (preserves_for_each fault_free); [|exact Hff|exact Hrun].
    intros z c _. apply preserves_sweep_mapping, fault_free_shrink_closed. }
  revert n w Hff Hrun. induction l as [|y l IH]; intros n w Hff Hrun;
    [by apply elem_of_nil in Hx|].
  simpl in Hrun.
  destruct (total_sweep_mapping ids y n w) as (n1 & w1 & Hstep).
  erewrite bind_ok in Hrun by exact Hstep.
  destruct (decide (x = y)) as [<-|Hne].
  - eapply (preserves_for_each (gone (calendar_uid x))); [|..|exact Hrun].
    + intros z c _. apply preserves_sweep_mapping, gone_shrink_closed.
    + destruct (sweep_mapping_orphan_ff ids x n w Hout Hff Hu) as (n2 & Hexact).
      rewrite Hexact in Hstep. injection Hstep as _ <-. split; simpl.
      * by intros r [? _]%list_elem_of_filter.
      * by intros (e & -> & [? _]%list_elem_of_filter)%list_elem_of_fmap.
  - apply elem_of_cons in Hx as [?|Hx]; [done|].
    eapply (IH Hx n1 w1); [|done].
    eapply (preserves_sweep_mapping fault_free fault_free_shrink_closed); done.
Qed.

Lemma push_session_ok_ff now s c w :
  fault_free w → ∃ c' w', push_session now s c w = (Ok c', w') ∧ fault_free w'.
Proof.
  intros Hff.
  destruct (get_sync_mapping (Some (id s)) None (db w)) as [|m ms] eqn:Hget.
  - eexists _, _. split; [by apply push_session_unmapped_ff|done].
  - eexists _, _. split; [by eapply push_session_mapped_ff|done].
Qed.

Lemma push_sessions_ok_ff now l c w :
  fault_free w →
  ∃ c' w', for_each (push_session now) l c w = (Ok c', w') ∧ fault_free w'.
Proof.
  revert c w. induction l as [|x l IH]; intros c w Hff; [by exists c, w|].
  destruct (push_session_ok_ff now x c w Hff) as (c1 & w1 & Hstep & Hff1).
  destruct (IH c1 w1 Hff1) as (c' & w' & Hrun & Hff').
  exists c', w'. split; [simpl; by erewrite bind_ok|done].
Qed.

Lemma push_body_unfold now w :
  push_body now w =
    (let sessions := get_all_sessions (db w) in
     let all_mappings := mappings (db w) in
     let session_ids : gset Z := list_to_set (id <$> sessions) in
     let expected_uids : gset string :=
       list_to_set ((λ s, session_uid (id s)) <$> sessions) ∪
       list_to_set (calendar_uid <$>
                      filter (λ m, session_id m ∈ session_ids) all_mappings) in
     deleted <- for_each (sweep_mapping session_ids) all_mappings 0%nat ;;
     after_orphans now sessions session_ids expected_uids (length all_mappings)
       deleted) w.
Proof.
  unfold push_body.
  erewrite bind_ok by apply on_db_gets.
  erewrite bind_ok by apply on_db_gets. reflexivity.
Qed.

Lemma preserves_after_orphans P now l ids exp k n :
  shrink_closed P → (∀ x, x ∈ l → push_closed x P) →
  preserves P (after_orphans now l ids exp k n).
Proof.
  intros Hs Hp. unfold after_orphans.
  apply preserves_bind.
  { apply preserves_try_catch; [|intros; apply preserves_ret].
    apply preserves_bind; [by apply preserves_search_range|]. intros evs.
    apply preserves_bind; [|intros; apply preserves_ret].
    apply preserves_for_each. intros x c _. by apply preserves_sweep_event. }
  intros swept. apply preserves_bind; [|intros; apply preserves_ret].
  apply preserves_for_each. intros x c Hx. by apply preserves_push_session, Hp.
Qed.

Lemma after_orphans_ok_ff now l ids exp k n w :
  fault_free w →
  ∃ synced updated deleted msg w',
    after_orphans now l ids exp k n w = (Ok (ToOk synced updated deleted msg), w').
Proof.
  intros Hff. unfold after_orphans.
  assert (total (try_catch
             (all_calendar_events <- Server.search_range (now - year) (now + year) ;;
              deleted' <- for_each (sweep_event ids exp) all_calendar_events n ;;
              ret (Some (length all_calendar_events), deleted'))
             (λ e, ret (None, n)))) as Htot.
  { apply total_try_catch. intros e. apply total_ret. }
  destruct (Htot w) as (swept & w1 & Hrun1).
  assert (fault_free w1) as Hff1.
  { eapply (preserves_try_catch fault_free); [| |exact Hff|exact Hrun1].
    - apply preserves_bind;
        [apply preserves_search_range, fault_free_shrink_closed|]. intros evs.
      apply preserves_bind; [|intros; apply preserves_ret].
      apply preserves_for_each. intros x c _.
      apply preserves_sweep_event, fault_free_shrink_closed.
    - intros e. apply preserves_ret. }
  destruct (push_sessions_ok_ff now l (0%nat, 0%nat) w1 Hff1) as (c & w' & Hrun2 & _).
  eexists _, _, _, _, w'.
  erewrite bind_ok by exact Hrun1. erewrite bind_ok by exact Hrun2. reflexivity.
Qed.

End PushAny.

(** ** The pull as a whole, from a mirrored state *)

Section PullWhole.
Import PomodoroDatabase CalDAVSync.

Lemma session_exists_true k d : k ∈ id <$> sessions d → session_exists k d = true.
Proof.
  intros (s & -> & Hs)%list_elem_of_fmap. unfold session_exists.
  apply bool_decide_eq_true.
  destruct (filter (λ s0, id s0 = id s) (sessions d)) eqn:Hf; simpl; [|lia].
  exfalso. by apply (filter_nil_not_elem_of _ _ s Hf).
Qed.

Lemma lookup_uid_own mk ev : ev_uid ev ≠ "" → lookup_uid mk ev = ev_uid ev.
Proof.
  intros Hne. unfold lookup_uid.
  rewrite (bool_decide_eq_false_2 _ Hne). by rewrite andb_false_r.
Qed.

Lemma ledger_wf_same_keys d d' :
  id <$> sessions d' = id <$> sessions d → mappings d' = mappings d →
  ledger_wf d → ledger_wf d'.
Proof.
  intros Hids Hmap [Hnd Hpos Hu Hne]. split; rewrite ?Hids, ?Hmap; try done.
  intros s Hs.
  assert (id s ∈ id <$> sessions d) as (s0 & -> & Hs0)%list_elem_of_fmap.
  { rewrite <- Hids. by apply list_elem_of_fmap_2. }
  by apply Hpos.
Qed.

Lemma pulled_update_keys ev start k d :
  id <$> sessions (pulled_update ev start k d) = id <$> sessions d ∧
  mappings (pulled_update ev start k d) = mappings d.
Proof.
  split; [|done]. unfold pulled_update, update_session, with_sessions; simpl.
  rewrite <- list_fmap_compose. apply list_fmap_ext. intros i s _. simpl.
  by case_decide.
Qed.

Lemma pull_event_in_sync mk now ev c d start :
  ledger_wf d → no_orphans d →
  (is_pomodoro ev = true → ev_uid ev ∈ calendar_uid <$> mappings d) →
  ev_dtstart ev = Some start →
  ∃ c' d',
    pull_event mk now ev c d = (Ok c', d') ∧
    imported c' = imported c ∧
    id <$> sessions d' = id <$> sessions d ∧ mappings d' = mappings d.
Proof.
  intros Hwf Horph Hmapped Hstart.
  destruct (is_pomodoro ev) eqn:Hp.
  - pose proof (Hmapped eq_refl) as (r & Hr & Hin)%list_elem_of_fmap.
    assert (ev_uid ev ≠ "") as Hne by (rewrite Hr; by apply (wf_uids _ Hwf)).
    destruct (get_sync_mapping None (Some (lookup_uid mk ev)) d) as [|m ms] eqn:Hget.
    { exfalso. rewrite lookup_uid_own, get_sync_mapping_by_uid in Hget by done.
      by apply (filter_nil_not_elem_of _ _ r Hget (eq_sym Hr)). }
    assert (m ∈ mappings d) as Hm.
    { rewrite lookup_uid_own, get_sync_mapping_by_uid in Hget by done.
      assert (m ∈ filter (λ m, calendar_uid m = ev_uid ev) (mappings d)) as Hf
        by (rewrite Hget; left).
      by apply list_elem_of_filter in Hf as [_ ?]. }
    eexists _, _. split.
    { eapply pull_event_live; [done|done|done|].
      by apply session_exists_true, Horph. }
    split; [done|]. apply pulled_update_keys.
  - eexists _, _. split; [by apply pull_event_foreign|done].
Qed.

Lemma pull_loop_in_sync mk now l c d :
  ledger_wf d → no_orphans d →
  (∀ ev, ev ∈ l → is_pomodoro ev = true → ev_uid ev ∈ calendar_uid <$> mappings d) →
  (∀ ev, ev ∈ l → ∃ start, ev_dtstart ev = Some start) →
  ∃ c' d',
    for_each (pull_event mk now) l c d = (Ok c', d') ∧
    imported c' = imported c ∧
    id <$> sessions d' = id <$> sessions d ∧ mappings d' = mappings d.
Proof.
  revert c d. induction l as [|ev l IH]; intros c d Hwf Horph Hmapped Hstart.
  - by exists c, d.
  - destruct (Hstart ev) as [start Hs]; [left|].
    destruct (pull_event_in_sync mk now ev c d start)
      as (c1 & d1 & Hrun1 & Hi1 & Hids1 & Hmap1); try done.
    { apply Hmapped. left. }
    destruct (IH c1 d1) as (c' & d' & Hrun & Hi & Hids & Hmap).
    { by eapply ledger_wf_same_keys. }
    { intros m Hm. rewrite Hids1. apply Horph. by rewrite <- Hmap1. }
    { intros e He Hp. rewrite Hmap1. apply Hmapped; [by right|done]. }
    { intros e He. apply Hstart. by right. }
    exists c', d'. split; [simpl; by erewrite bind_ok|].
    split; [congruence|]. split; congruence.
Qed.

Lemma in_range_has_start lo hi ev :
  Server.in_range lo hi ev → ∃ start, ev_dtstart ev = Some start.
Proof. unfold Server.in_range. destruct (ev_dtstart ev); [eauto|done]. Qed.

Lemma in_sync_same_keys w w' :
  in_sync w →
  id <$> sessions (db w') = id <$> sessions (db w) →
  mappings (db w') = mappings (db w) →
  remote w' = remote w → calendar w' = calendar w →
  in_sync w'.
Proof.
  intros [Hwf Horph Hall Hmir Hstray Hff Hcal] Hids Hmap Hrem Hc.
  split.
  - by eapply ledger_wf_same_keys.
  - intros m Hm. rewrite Hids. apply Horph. by rewrite <- Hmap.
  - intros s Hs. rewrite Hmap.
    assert (id s ∈ id <$> sessions (db w)) as (s0 & -> & Hs0)%list_elem_of_fmap.
    { rewrite <- Hids. by apply list_elem_of_fmap_2. }
    by apply Hall.
  - intros m Hm. rewrite Hrem. apply Hmir. by rewrite <- Hmap.
  - intros e He Hp. rewrite Hmap. apply Hstray; [by rewrite <- Hrem|done].
  - unfold fault_free. by rewrite Hrem.
  - congruence.
Qed.

Lemma pull_in_sync mk now w :
  in_sync w →
  ∃ updated total skipped msg w',
    sync_from_calendar mk now w =
      (Ok (FromOk 0 updated total skipped msg), w') ∧
    in_sync w' ∧
    id <$> sessions (db w') = id <$> sessions (db w) ∧
    mappings (db w') = mappings (db w) ∧
    remote w' = remote w.
Proof.
  intros Hsync. pose proof Hsync as [Hwf Horph Hall Hmir Hstray Hff Hcal].
  unfold sync_from_calendar.
  erewrite bind_ok; last first.
  { rewrite ensure_calendar_ff by (done || by left).
    by rewrite with_calendar_id. }
  destruct (pull_loop_in_sync mk now
              (filter (Server.in_range (now - year) (now + year)) (events (remote w)))
              {| imported := 0; pulled := 0; skipped := 0 |} (db w))
    as (c & d' & Hrun & Hi & Hids & Hmap); try done.
  { intros ev [_ Hev]%list_elem_of_filter Hp. by apply Hstray. }
  { intros ev [Hr _]%list_elem_of_filter. by eapply in_range_has_start. }
  eexists _, _, _, _, (with_db d' w). split.
  - erewrite try_catch_ok; [reflexivity|]. unfold pull_body.
    erewrite bind_ok by (by apply search_range_ff).
    erewrite bind_ok; last first.
    { unfold on_db. rewrite Hrun. reflexivity. }
    unfold ret. simpl in Hi. by rewrite Hi.
  - split; [|done]. by eapply in_sync_same_keys.
Qed.

End PullWhole.

(** ** Two syncs in a row *)

Section SyncTwice.
Import PomodoroDatabase CalDAVSync.

Lemma push_from_ready now w :
  push_ready w →
  ∃ synced updated deleted msg w',
    sync_to_calendar now w = (Ok (ToOk synced updated deleted msg), w') ∧
    in_sync w' ∧ sessions (db w') = sessions (db w).
Proof.
  intros [Hwf Hcoll Hstray Hff Hconn]. unfold sync_to_calendar.
  erewrite bind_ok by (by apply ensure_calendar_ff).
  destruct (push_body_ready now (with_calendar true w))
    as (n1 & n2 & n3 & msg & w' & Hrun & Hsync & Hs & _); try done.
  exists n1, n2, n3, msg, w'. split; [by erewrite try_catch_ok|done].
Qed.

Lemma push_in_sync now w :
  in_sync w →
  ∃ msg w',
    sync_to_calendar now w =
      (Ok (ToOk 0 (length (sessions (db w))) 0 msg), w') ∧
    in_sync w' ∧ sessions (db w') = sessions (db w) ∧
    mappings (db w') = mappings (db w) ∧
    ∀ x, x ∈ ev_uid <$> events (remote w') ↔ x ∈ ev_uid <$> events (remote w).
Proof.
  intros Hsync. pose proof Hsync as [Hwf Horph Hall Hmir Hstray Hff Hcal].
  unfold sync_to_calendar.
  erewrite bind_ok; last first.
  { rewrite ensure_calendar_ff by (done || by left).
    by rewrite with_calendar_id. }
  destruct (push_body_ready now w)
    as (n1 & n2 & n3 & msg & w' & Hrun & Hsync' & Hs & Hquiet); try done.
  { intros s m Hs _ _. by apply Hall. }
  destruct (Hquiet Hsync) as (-> & -> & -> & Hmap & Huid).
  exists msg, w'. split; [by erewrite try_catch_ok|done].
Qed.

Lemma in_sync_ready w : in_sync w → push_ready w.
Proof.
  intros [Hwf Horph Hall Hmir Hstray Hff Hcal]. split; try done.
  - intros s m Hs _ _. by apply Hall.
  - by left.
Qed.

(** C1, as the code has it.  From a state in which the ledger is well
    formed, no derived UID is taken by another session's row, every
    recognised object of the calendar is named by a mapping row, and the
    server answers every request: two calls of [sync] in a row both
    succeed, and the second creates nothing, imports nothing and deletes
    nothing.  It does not report zero updates: the push sends every session
    again and counts each as updated, and the pull counts every recognised
    object in its window as updated.  The second call leaves the session
    ids, the mapping table and the set of UIDs on the calendar as the first
    call left them. *)
Theorem sync_twice mk now1 now2 w :
  push_ready w →
  ∃ r1 w1 r2 w2,
    sync mk now1 w = (Ok r1, w1) ∧ success r1 = true ∧
    sync mk now2 w1 = (Ok r2, w2) ∧ success r2 = true ∧
    (∃ msg, to_calendar r2 = ToOk 0 (length (sessions (db w))) 0 msg) ∧
    (∃ updated total skipped msg,
       from_calendar r2 = FromOk 0 updated total skipped msg) ∧
    id <$> sessions (db w2) = id <$> sessions (db w1) ∧
    mappings (db w2) = mappings (db w1) ∧
    (∀ x, x ∈ ev_uid <$> events (remote w2) ↔ x ∈ ev_uid <$> events (remote w1)).
Proof.
  intros Hready.
  destruct (push_from_ready now1 w Hready)
    as (a1 & a2 & a3 & amsg & wa & Hpush1 & Hsync_a & Hs_a).
  destruct (pull_in_sync mk now1 wa Hsync_a)
    as (b1 & b2 & b3 & bmsg & w1 & Hpull1 & Hsync1 & Hids1 & Hmap1 & Hrem1).
  destruct (push_in_sync now2 w1 Hsync1)
    as (cmsg & wc & Hpush2 & Hsync_c & Hs_c & Hmap_c & Huid_c).
  destruct (pull_in_sync mk now2 wc Hsync_c)
    as (d1 & d2 & d3 & dmsg & w2 & Hpull2 & Hsync2 & Hids2 & Hmap2 & Hrem2).
  eexists _, w1, _, w2.
  split. { unfold sync. erewrite bind_ok by exact Hpush1.
           erewrite bind_ok by exact Hpull1. reflexivity. }
  split; [done|].
  split. { unfold sync. erewrite bind_ok by exact Hpush2.
           erewrite bind_ok by exact Hpull2. reflexivity. }
  split; [done|]. simpl.
  split.
  { exists cmsg. f_equal.
    rewrite <- (length_fmap id (sessions (db w1))), Hids1, length_fmap.
    by rewrite Hs_a. }
  split; [by eexists _, _, _, _|].
  split; [by rewrite Hids2, Hs_c|].
  split; [congruence|].
  intros x. by rewrite Hrem2, Huid_c.
Qed.


Lemma first_use_ready : push_ready first_use.
Proof.
  split.
  - split; simpl.
    + apply NoDup_singleton.
    + intros s ->%list_elem_of_singleton. done.
    + split; constructor.
    + by intros m ?%elem_of_nil.
  - by intros s m _ ?%elem_of_nil.
  - by intros e ?%elem_of_nil.
  - done.
  - by left.
Qed.


End SyncTwice.

Lemma sync_twice_witness :
  ∃ r1 w1 r2 w2,
    CalDAVSync.sync no_key 90000 first_use = (Ok r1, w1) ∧ success r1 = true ∧
    CalDAVSync.sync no_key 90300 w1 = (Ok r2, w2) ∧ success r2 = true ∧
    (∃ msg, to_calendar r2 = ToOk 0 1 0 msg) ∧
    (∃ updated total skipped msg,
       from_calendar r2 = FromOk 0 updated total skipped msg) ∧
    id <$> sessions (db w2) = id <$> sessions (db w1) ∧
    mappings (db w2) = mappings (db w1) ∧
    (∀ x, x ∈ ev_uid <$> events (remote w2) ↔ x ∈ ev_uid <$> events (remote w1)).
Proof. exact (sync_twice no_key 90000 90300 first_use first_use_ready). Defined.

(** The claim C1 says the second call reports no update.  Here it reports
    one from each half, and it rewrites the object on the calendar: the
    first pull had set the session's duration to end minus start, so the
    description sent by the second push differs. *)
Lemma second_sync_counts_updates :
  ∃ r1 w1 r2 w2,
    CalDAVSync.sync no_key 90000 first_use = (Ok r1, w1) ∧
    CalDAVSync.sync no_key 90300 w1 = (Ok r2, w2) ∧
    to_calendar r2 = ToOk 0 1 0 "Synced 0 new, updated 1 existing" ∧
    from_calendar r2 =
      FromOk 0 1 1 0 "Found 1 events. Imported 0 new, updated 1 existing" ∧
    events (remote w2) ≠ events (remote w1).
Proof.
  eexists _, _, _, _.
  split; [vm_compute; reflexivity|].
  split; [vm_compute; reflexivity|].
  split; [reflexivity|]. split; [reflexivity|].
  intros H. vm_compute in H. discriminate H.
Qed.

(** ** The push of a session that has no mapping row *)

Section PushNew.
Import PomodoroDatabase CalDAVSync.

Lemma objects_with_filter_other u u' evs :
  u ≠ u' →
  objects_with u (filter (λ x, ev_uid x ≠ u') evs) = objects_with u evs.
Proof. intros Hne. apply list_filter_filter_l. by intros x ->. Qed.

Lemma objects_with_put_other u u' j evs :
  u ≠ u' → objects_with u (put_event j u' evs) = objects_with u evs.
Proof.
  intros Hne. unfold put_event, objects_with at 1. rewrite filter_app.
  fold (objects_with u (filter (λ x, ev_uid x ≠ u') evs)).
  rewrite objects_with_filter_other by done.
  rewrite filter_cons, decide_False by (simpl; congruence).
  by rewrite app_nil_r.
Qed.

Lemma objects_with_save_other u ev e' evs :
  ev_uid ev ≠ u → ev_uid e' = ev_uid ev →
  objects_with u ((λ x, if decide (ev_uid x = ev_uid ev) then e' else x) <$> evs)
  = objects_with u evs.
Proof.
  intros Hne He'. unfold objects_with. induction evs as [|x evs IH]; [done|].
  rewrite fmap_cons, !filter_cons, IH.
  destruct (decide (ev_uid x = ev_uid ev)) as [Hx|Hx].
  - rewrite !decide_False by congruence. done.
  - done.
Qed.

Lemma objects_with_update_other u u' j evs :
  u ≠ u' → objects_with u (update_events j u' evs) = objects_with u evs.
Proof.
  intros Hne. unfold update_events.
  destruct (objects_with u' evs) as [|ev rest] eqn:Hev;
    [by apply objects_with_put_other|].
  apply objects_with_head in Hev as [_ Huid].
  destruct (ev_dtstart ev), (ev_dtend ev);
    try (rewrite objects_with_put_other by done;
         apply objects_with_filter_other; congruence).
  apply objects_with_save_other; [congruence|done].
Qed.

Lemma rows_after_set_other k j u href now d :
  k ≠ j →
  (∀ m, m ∈ mappings d → session_id m = k → calendar_uid m ≠ u) →
  filter (λ m, session_id m = k) (mappings (set_sync_mapping j u href now d)) =
  filter (λ m, session_id m = k) (mappings d).
Proof.
  intros Hne Hu. unfold set_sync_mapping; simpl. rewrite filter_app.
  rewrite (filter_cons _ _ []), decide_False by (simpl; congruence).
  rewrite app_nil_r.
  induction (mappings d) as [|x l IH]; [done|].
  rewrite (filter_cons (λ m, session_id m ≠ j ∧ _)), (filter_cons (λ m, session_id m = k)).
  case_decide as Hx.
  - rewrite filter_cons. case_decide.
    + rewrite IH; [done|]. intros m Hm. apply Hu. by right.
    + apply IH. intros m Hm. apply Hu. by right.
  - case_decide as Hk.
    + exfalso. apply Hx. split; [congruence|]. apply Hu; [left|done].
    + apply IH. intros m Hm. apply Hu. by right.
Qed.

Lemma settle_step now s c w :
  fault_free w → id s ≠ 0 → unmapped (id s) w →
  ∃ w', push_session now s c w = (Ok (S c.1, c.2), w') ∧
        settled s now w' ∧ fault_free w' ∧ sessions (db w') = sessions (db w).
Proof.
  intros Hff H0 Hun.
  assert (get_sync_mapping (Some (id s)) None (db w) = []) as Hget.
  { rewrite get_sync_mapping_by_id by done.
    apply filter_none. intros m Hm ?. by apply (Hun m). }
  eexists. split; [by apply push_session_unmapped_ff|].
  split; [|done]. split; simpl.
  - rewrite filter_app.
    rewrite filter_nil_of_filter by (by intros x [? ?] ?).
    rewrite filter_cons. by rewrite decide_True.
  - intros m [[[_ ?] _]%list_elem_of_filter| ->%list_elem_of_singleton]%elem_of_app;
      [done|by intros _].
  - by rewrite objects_with_put.
Qed.

Lemma settled_step now s j c w :
  fault_free w → id j ≠ 0 → id j ≠ id s → settled s now w →
  ∃ c' w', push_session now j c w = (Ok c', w') ∧
           settled s now w' ∧ fault_free w' ∧ (c.1 ≤ c'.1)%nat ∧
           sessions (db w') = sessions (db w).
Proof.
  intros Hff H0 Hne [Hrow Hown Hobj].
  destruct (get_sync_mapping (Some (id j)) None (db w)) as [|m ms] eqn:Hget.
  - eexists _, _. split; [by apply push_session_unmapped_ff|].
    split; [|split; [done|split; [simpl; lia|done]]]. split.
    + change (filter (λ m, session_id m = id s)
                (mappings (set_sync_mapping (id j) (session_uid (id j)) None now (db w)))
              = [new_row s now]).
      rewrite rows_after_set_other; [done|congruence|].
      intros m Hm Hid Hu.
      assert (m ∈ [new_row s now]) as ->%list_elem_of_singleton
        by (rewrite <- Hrow; by apply list_elem_of_filter).
      apply session_uid_inj in Hu. congruence.
    + simpl. intros m [[_ ?]%list_elem_of_filter| ->%list_elem_of_singleton]%elem_of_app;
        [by apply Hown|].
      simpl. intros Hu%session_uid_inj. congruence.
    + simpl. rewrite objects_with_put_other; [done|].
      intros Hu%session_uid_inj. congruence.
  - assert (m ∈ mappings (db w) ∧ session_id m = id j) as [Hm Hid].
    { rewrite get_sync_mapping_by_id in Hget by done.
      assert (m ∈ filter (λ m, session_id m = id j) (mappings (db w))) as Hin
        by (rewrite Hget; left).
      by apply list_elem_of_filter in Hin as [? ?]. }
    eexists _, _. split; [by eapply push_session_mapped_ff|].
    split; [|split; [done|split; [|done]]].
    + split; simpl; [done|done|].
      rewrite objects_with_update_other; [done|].
      intros Hu. symmetry in Hu. apply Hown in Hu; [congruence|done].
    + destruct (objects_with (calendar_uid m) (events (remote w))); simpl; lia.
Qed.

Lemma push_sessions_settled now s l : ∀ c w,
  fault_free w → (∀ j, j ∈ l → id j ≠ 0 ∧ id j ≠ id s) → settled s now w →
  ∃ c' w', for_each (push_session now) l c w = (Ok c', w') ∧
           settled s now w' ∧ (c.1 ≤ c'.1)%nat ∧
           sessions (db w') = sessions (db w).
Proof.
  induction l as [|j l IH]; intros c w Hff Hl Hs; [by exists c, w|].
  destruct (settled_step now s j c w) as (c1 & w1 & Hstep & Hs1 & Hff1 & Hc1 & Hk1);
    [done|apply Hl; left|apply Hl; left|done|].
  destruct (IH c1 w1) as (c' & w' & Hrun & Hs' & Hc' & Hk');
    [done|intros x Hx; apply Hl; by right|done|].
  exists c', w'. split; [simpl; by erewrite bind_ok|].
  split; [done|]. split; [lia|congruence].
Qed.

Lemma push_sessions_settle now s l : ∀ c w,
  fault_free w → NoDup (id <$> l) → (∀ j, j ∈ l → id j ≠ 0) → s ∈ l →
  unmapped (id s) w →
  ∃ c' w', for_each (push_session now) l c w = (Ok c', w') ∧
           settled s now w' ∧ (1 ≤ c'.1)%nat ∧
           sessions (db w') = sessions (db w).
Proof.
  induction l as [|j l IH]; intros c w Hff Hnd H0 Hs Hun;
    [by apply elem_of_nil in Hs|].
  rewrite fmap_cons in Hnd. apply NoDup_cons in Hnd as [Hj Hnd].
  destruct (decide (j = s)) as [->|Hjs].
  - destruct (settle_step now s c w) as (w1 & Hstep & Hs1 & Hff1 & Hk1);
      [done|apply H0; left|done|].
    destruct (push_sessions_settled now s l (S c.1, c.2) w1)
      as (c' & w' & Hrun & Hs' & Hc' & Hk'); [done| |done|].
    { intros x Hx. split; [apply H0; by right|].
      intros Heq. apply Hj. rewrite <- Heq. by apply list_elem_of_fmap_2. }
    exists c', w'. split; [simpl; by erewrite bind_ok|].
    split; [done|]. split; [simpl in Hc'; lia|congruence].
  - apply elem_of_cons in Hs as [->|Hs]; [done|].
    assert (id j ≠ id s) as Hne.
    { intros Heq. apply Hj. rewrite Heq. by apply list_elem_of_fmap_2. }
    destruct (push_session_ok_ff now j c w Hff) as (c1 & w1 & Hstep & Hff1).
    assert (unmapped (id s) w1) as Hun1.
    { eapply (preserves_push_session j (unmapped (id s)));
        [by apply unmapped_push_closed|exact Hun|exact Hstep]. }
    assert (sessions (db w1) = sessions (db w)) as Hk1.
    { eapply (preserves_push_session j (has_sessions (sessions (db w))));
        [apply has_sessions_push_closed|reflexivity|exact Hstep]. }
    destruct (IH c1 w1) as (c' & w' & Hrun & Hs' & Hc' & Hk');
      [done|done|intros x Hx; apply H0; by right|done|done|].
    exists c', w'. split; [simpl; by erewrite bind_ok|].
    split; [done|]. split; [done|congruence].
Qed.

End PushNew.

(** ** Orphans *)

Section Orphans.
Import PomodoroDatabase CalDAVSync.

Lemma push_body_unmaps now w k :
  k ∉ id <$> sessions (db w) →
  (∀ r, r ∈ mappings (db w) → session_id r = k → calendar_uid r ≠ "") →
  ∀ r w', push_body now w = (r, w') → unmapped k w'.
Proof.
  intros Hdead Hne r w'. rewrite push_body_unfold. cbv zeta.
  set (ids := list_to_set (id <$> get_all_sessions (db w)) : gset Z).
  assert (k ∉ ids) as Hout.
  { unfold ids. rewrite elem_of_list_to_set. by rewrite ids_get_all_sessions. }
  destruct (total_for_each (sweep_mapping ids) (mappings (db w)) 0%nat
              (total_sweep_mapping ids) w) as (n1 & w1 & Hrun1).
  erewrite bind_ok by exact Hrun1.
  assert (unmapped k w1) as Hk1.
  { intros row Hrow Hid.
    assert (row ∈ mappings (db w)) as Hin.
    { eapply (preserves_for_each (rows_within (mappings (db w))));
        [| |exact Hrun1|exact Hrow]; [|by intros ?].
      intros z c _. apply preserves_sweep_mapping, rows_within_shrink_closed. }
    destruct (sweep_mappings_purge ids (mappings (db w)) 0%nat w row)
      as (n' & w'' & Hrun' & Hpurged); [done|by rewrite Hid|by apply Hne|].
    rewrite Hrun1 in Hrun'. injection Hrun' as _ <-.
    by apply (Hpurged row). }
  eapply preserves_after_orphans; [apply unmapped_shrink_closed| |exact Hk1].
  intros x Hx. apply unmapped_push_closed. intros <-. apply Hdead.
  apply list_elem_of_fmap_2. by apply elem_of_get_all_sessions.
Qed.

Lemma delete_session_gone k d : k ∉ id <$> sessions (delete_session k d).
Proof.
  unfold delete_session; simpl.
  by intros (s & -> & [? _]%list_elem_of_filter)%list_elem_of_fmap.
Qed.

(** C2, as the code has it.  A session has a mapping row (with a UID that
    is not the empty text); the session is deleted and a push runs on an
    engine that holds its calendar.  Whatever the server answers, and
    whether the push ends in success or failure, no mapping row for the
    session is left.  When moreover the server answers every request and
    no surviving session derives the orphan's UID as its own, the push
    succeeds and the collection holds no object with that UID. *)
Theorem orphan_convergence now w s m :
  calendar w = true →
  s ∈ sessions (db w) → m ∈ mappings (db w) → session_id m = id s →
  (∀ r, r ∈ mappings (db w) → session_id r = id s → calendar_uid r ≠ "") →
  (∀ r w',
     sync_to_calendar now (with_db (delete_session (id s) (db w)) w) = (r, w') →
     unmapped (id s) w') ∧
  (fault_free w →
   (∀ s', s' ∈ sessions (db w) → id s' ≠ id s →
      session_uid (id s') ≠ calendar_uid m) →
   ∃ synced updated deleted msg w',
     sync_to_calendar now (with_db (delete_session (id s) (db w)) w) =
       (Ok (ToOk synced updated deleted msg), w') ∧
     unmapped (id s) w' ∧
     objects_with (calendar_uid m) (events (remote w')) = []).
Proof.
  intros Hcal Hs Hm Hid Hne.
  set (w0 := with_db (delete_session (id s) (db w)) w).
  assert (∀ r w', sync_to_calendar now w0 = (r, w') → unmapped (id s) w') as Hpart1.
  { intros r w'. unfold sync_to_calendar.
    erewrite bind_ok by (by apply ensure_calendar_held).
    unfold try_catch. destruct (push_body now w0) as [[res|e] w1] eqn:Hbody;
      intros [= _ <-];
      exact (push_body_unmaps now w0 (id s) (delete_session_gone _ _) Hne _ _ Hbody). }
  split; [exact Hpart1|]. intros Hff Hfree.
  set (u := calendar_uid m).
  set (ids := list_to_set (id <$> get_all_sessions (db w0)) : gset Z).
  assert (id s ∉ ids) as Hout.
  { unfold ids. rewrite elem_of_list_to_set, ids_get_all_sessions.
    apply delete_session_gone. }
  destruct (sweep_mappings_gone ids (mappings (db w0)) 0%nat w0 m)
    as (n1 & w1 & Hrun1 & Hgone1 & Hff1); [done|done|by rewrite Hid|by eapply Hne|].
  destruct (after_orphans_ok_ff now (get_all_sessions (db w0)) ids
              (list_to_set ((λ s, session_uid (id s)) <$> get_all_sessions (db w0)) ∪
               list_to_set (calendar_uid <$>
                  filter (λ m, session_id m ∈ ids) (mappings (db w0))))
              (length (mappings (db w0))) n1 w1 Hff1)
    as (a1 & a2 & a3 & msg & w' & Hrun2).
  assert (sync_to_calendar now w0 = (Ok (ToOk a1 a2 a3 msg), w')) as Hrun.
  { unfold sync_to_calendar.
    erewrite bind_ok by (by apply ensure_calendar_held).
    cbv beta iota. erewrite try_catch_ok; [reflexivity|].
    rewrite push_body_unfold. cbv zeta. fold ids.
    erewrite bind_ok by exact Hrun1. exact Hrun2. }
  exists a1, a2, a3, msg, w'. split; [exact Hrun|]. split; [by eapply Hpart1|].
  apply objects_with_nil.
  assert (gone u w') as [_ Hno]; [|exact Hno].
  eapply preserves_after_orphans; [apply gone_shrink_closed| |exact Hgone1|exact Hrun2].
  intros x Hx. apply gone_push_closed.
  apply elem_of_get_all_sessions in Hx. simpl in Hx.
  apply list_elem_of_filter in Hx as [Hx1 Hx2]. by apply Hfree.
Qed.

End Orphans.

Lemma orphan_convergence_witness :
  ∃ synced updated deleted msg w',
    CalDAVSync.sync_to_calendar 95000
      (with_db (PomodoroDatabase.delete_session 1 (db mirrored_reading))
         mirrored_reading)
    = (Ok (ToOk synced updated deleted msg), w') ∧
    unmapped 1 w' ∧
    objects_with "pomodoro-1@pomodoro-timer" (events (remote w')) = [].
Proof.
  assert (reading ∈ sessions (db mirrored_reading)) as Hs by left.
  assert (reading_mapping ∈ mappings (db mirrored_reading)) as Hm by left.
  assert (∀ r, r ∈ mappings (db mirrored_reading) → session_id r = id reading →
               calendar_uid r ≠ "") as Hne.
  { intros r ->%list_elem_of_singleton _. discriminate. }
  destruct (orphan_convergence 95000 mirrored_reading reading reading_mapping
              eq_refl Hs Hm eq_refl Hne) as [_ Hgone].
  apply Hgone; [reflexivity|].
  intros s' ->%list_elem_of_singleton Hid. by destruct Hid.
Defined.

(** The claim C2 says that a search by the orphan's UID comes back empty
    after the push.  Session 1 was imported from an object whose UID is the
    one derived for session 2; session 2 exists and was never pushed.
    Session 1 is deleted and a push runs against a server that answers
    every request: the mapping row is removed and the object is deleted,
    and then the push creates the object of session 2 under that same
    UID. *)
Lemma orphan_uid_taken_again :
  mappings (db after_second_session) =
    [ {| session_id := 1; calendar_uid := "pomodoro-2@pomodoro-timer";
         calendar_url := Some "pomodoro-2@pomodoro-timer.ics";
         last_synced := 90000 |} ] ∧
  id <$> sessions (db after_second_session) = [1; 2] ∧
  ∃ w',
    CalDAVSync.sync_to_calendar 95000
      (with_db (PomodoroDatabase.delete_session 1 (db after_second_session))
         after_second_session)
    = (Ok (ToOk 1 0 1 "Synced 1 new, updated 0 existing, deleted 1 removed events"),
       w') ∧
    session_id <$> mappings (db w') = [2] ∧
    objects_with "pomodoro-2@pomodoro-timer" (events (remote w')) =
      [ {| ev_uid := "pomodoro-2@pomodoro-timer"; ev_summary := "🍅 writing";
           ev_description :=
             CalDAVSync.description_of
               {| id := 2; task_name := "writing"; duration_seconds := 1500;
                  start_time := 90000; end_time := Some 91500;
                  status := "completed"; completed_seconds := 1500 |};
           ev_dtstart := Some 90000; ev_dtend := Some 91500;
           ev_url := "pomodoro-2@pomodoro-timer.ics" |} ].
Proof.
  split; [vm_compute; reflexivity|]. split; [vm_compute; reflexivity|].
  eexists. split; [vm_compute; reflexivity|]. split; vm_compute; reflexivity.
Qed.

(** When the server refuses both deletes (and the date-range search of the
    second sweep), the push still succeeds and the mapping row is removed;
    the object stays on the calendar and nothing is counted as deleted. *)
Example orphan_delete_refused :
  ∃ w',
    CalDAVSync.sync_to_calendar 95000
      (with_db (PomodoroDatabase.delete_session 1 (db refusing_deletes))
         refusing_deletes)
    = (Ok (ToOk 0 0 0
             "Synced 0 new, updated 0 existing (checked 0 calendar events for deletion)"),
       w') ∧
    mappings (db w') = [] ∧
    events (remote w') = [stale_reading_event].
Proof. eexists. split; [vm_compute; reflexivity|]. split; reflexivity. Qed.

(** ** A whole push with a session that was never pushed *)

Section PushWholeNew.
Import PomodoroDatabase CalDAVSync.

Lemma NoDup_ids_get_all_sessions d :
  NoDup (id <$> sessions d) → NoDup (id <$> get_all_sessions d).
Proof. unfold get_all_sessions. by rewrite merge_sort_Permutation. Qed.

Lemma push_sessions_first now l : ∀ c w,
  fault_free w → NoDup (id <$> l) → (∀ j, j ∈ l → id j ≠ 0) →
  (∀ j, j ∈ l → unmapped (id j) w) →
  ∃ w', for_each (push_session now) l c w = (Ok ((c.1 + length l)%nat, c.2), w').
Proof.
  induction l as [|j l IH]; intros c w Hff Hnd H0 Hun.
  { exists w. simpl. unfold ret. by rewrite Nat.add_0_r, <- surjective_pairing. }
  rewrite fmap_cons in Hnd. apply NoDup_cons in Hnd as [Hj Hnd].
  destruct (settle_step now j c w) as (w1 & Hstep & Hs1 & Hff1 & Hk1);
    [done|apply H0; left|apply Hun; left|].
  destruct (IH (S c.1, c.2) w1) as (w' & Hrun);
    [done|done|intros x Hx; apply H0; by right| |].
  { intros x Hx.
    eapply (preserves_push_session j (unmapped (id x)));
      [|apply Hun; by right|exact Hstep].
    apply unmapped_push_closed. intros Heq. apply Hj. rewrite Heq.
    by apply list_elem_of_fmap_2. }
  exists w'. simpl. erewrite bind_ok by exact Hstep. rewrite Hrun. simpl.
  by rewrite Nat.add_succ_r.
Qed.

Lemma first_push now w :
  fault_free w → connectable w → NoDup (id <$> sessions (db w)) →
  (∀ j, j ∈ sessions (db w) → id j ≠ 0) →
  mappings (db w) = [] → events (remote w) = [] →
  ∃ msg w',
    sync_to_calendar now w =
      (Ok (ToOk (length (sessions (db w))) 0 0 msg), w').
Proof.
  intros Hff Hc Hnd H0 Hm He.
  set (w0 := with_calendar true w).
  destruct (push_sessions_first now (get_all_sessions (db w0)) (0%nat, 0%nat) w0)
    as (w' & Hrun); [done|by apply NoDup_ids_get_all_sessions| | |].
  { intros j Hj%elem_of_get_all_sessions. by apply H0. }
  { intros j _ r Hr. simpl in Hr. rewrite Hm in Hr. by apply elem_of_nil in Hr. }
  eexists _, w'. unfold sync_to_calendar.
  erewrite bind_ok by (by apply ensure_calendar_ff).
  cbv beta iota. erewrite try_catch_ok; [reflexivity|].
  rewrite push_body_unfold. cbv zeta. fold w0.
  change (mappings (db w0)) with (mappings (db w)). rewrite Hm. simpl for_each.
  unfold bind at 1, ret at 1. unfold after_orphans.
  erewrite bind_ok; last first.
  { erewrite try_catch_ok; [reflexivity|].
    erewrite bind_ok by (by apply search_range_ff).
    change (events (remote w0)) with (events (remote w)). rewrite He.
    rewrite filter_nil. simpl for_each. unfold bind at 1, ret at 1. reflexivity. }
  erewrite bind_ok by exact Hrun. unfold ret. simpl.
  rewrite length_get_all_sessions. reflexivity.
Qed.

(** C6, as the code has it.  The server answers every request, the
    engine holds or can open its calendar, session ids are a key and none
    is 0, and session [s] has no mapping row.  Then the push succeeds and
    counts at least one session as synced; afterwards the one mapping row
    of [s] names the UID [pomodoro-<id>@pomodoro-timer] derived from its
    id, with no href, and the collection has exactly one object under
    that UID, with the title, description, start and end of [s]; the
    session table is as before.  When the mapping table and the
    collection were empty, the counts are: every session synced, none
    updated, none deleted. *)
Theorem push_unmapped_session now w s :
  fault_free w → connectable w → NoDup (id <$> sessions (db w)) →
  (∀ j, j ∈ sessions (db w) → id j ≠ 0) →
  s ∈ sessions (db w) → unmapped (id s) w →
  ∃ synced updated deleted msg w',
    sync_to_calendar now w = (Ok (ToOk synced updated deleted msg), w') ∧
    (1 ≤ synced)%nat ∧
    get_sync_mapping (Some (id s)) None (db w') = [new_row s now] ∧
    objects_with (session_uid (id s)) (events (remote w')) =
      [pushed_event s (session_uid (id s))] ∧
    sessions (db w') = sessions (db w) ∧
    (mappings (db w) = [] → events (remote w) = [] →
     synced = length (sessions (db w)) ∧ updated = 0%nat ∧ deleted = 0%nat).
Proof.
  intros Hff Hc Hnd H0 Hs Hun.
  set (w0 := with_calendar true w).
  set (ids := list_to_set (id <$> get_all_sessions (db w0)) : gset Z).
  set (exp := (list_to_set ((λ s, session_uid (id s)) <$> get_all_sessions (db w0)) ∪
               list_to_set (calendar_uid <$>
                  filter (λ m, session_id m ∈ ids) (mappings (db w0)))) : gset string).
  (* the sweep of the mapping table *)
  destruct (total_for_each (sweep_mapping ids) (mappings (db w0)) 0%nat
              (total_sweep_mapping ids) w0) as (n1 & w1 & Hrun1).
  assert (fault_free w1 ∧ unmapped (id s) w1 ∧ sessions (db w1) = sessions (db w))
    as (Hff1 & Hun1 & Hk1).
  { assert (fault_free w0) as Hff0 by exact Hff.
    assert (unmapped (id s) w0) as Hun0 by exact Hun.
    assert (has_sessions (sessions (db w)) w0) as Hk0 by reflexivity.
    split; [|split].
    - eapply (preserves_for_each fault_free); [|exact Hff0|exact Hrun1].
      intros z c _. apply preserves_sweep_mapping, fault_free_shrink_closed.
    - eapply (preserves_for_each (unmapped (id s))); [|exact Hun0|exact Hrun1].
      intros z c _. apply preserves_sweep_mapping, unmapped_shrink_closed.
    - eapply (preserves_for_each (has_sessions (sessions (db w))));
        [|exact Hk0|exact Hrun1].
      intros z c _. apply preserves_sweep_mapping, has_sessions_shrink_closed. }
  (* the sweep of the calendar *)
  assert (total (try_catch
             (all_calendar_events <- Server.search_range (now - year) (now + year) ;;
              deleted' <- for_each (sweep_event ids exp) all_calendar_events n1 ;;
              ret (Some (length all_calendar_events), deleted'))
             (λ e, ret (None, n1)))) as Htot.
  { apply total_try_catch. intros e. apply total_ret. }
  destruct (Htot w1) as (swept & w2 & Hrun2).
  assert (∀ P, shrink_closed P → P w1 → P w2) as Hkeep.
  { intros P HP HP1.
    eapply (preserves_try_catch P); [| |exact HP1|exact Hrun2].
    - apply preserves_bind; [by apply preserves_search_range|]. intros evs.
      apply preserves_bind; [|intros; apply preserves_ret].
      apply preserves_for_each. intros x c _. by apply preserves_sweep_event.
    - intros e. apply preserves_ret. }
  assert (fault_free w2) as Hff2 by (by apply Hkeep; [apply fault_free_shrink_closed|]).
  assert (unmapped (id s) w2) as Hun2
    by (by apply Hkeep; [apply unmapped_shrink_closed|]).
  assert (sessions (db w2) = sessions (db w)) as Hk2
    by (by apply (Hkeep (has_sessions (sessions (db w))));
          [apply has_sessions_shrink_closed|]).
  (* the loop over the sessions *)
  destruct (push_sessions_settle now s (get_all_sessions (db w0)) (0%nat, 0%nat) w2)
    as (c & w' & Hrun3 & [Hrow Hown Hobj] & Hc1 & Hk3);
    [done|by apply NoDup_ids_get_all_sessions| |by apply elem_of_get_all_sessions|done|].
  { intros j Hj%elem_of_get_all_sessions. by apply H0. }
  assert (sync_to_calendar now w =
            (Ok (ToOk c.1 c.2 swept.2
                   (to_message c.1 c.2 swept.2 (length (get_all_sessions (db w0)))
                      (length (mappings (db w0))) swept.1)), w')) as Hrun.
  { unfold sync_to_calendar.
    erewrite bind_ok by (by apply ensure_calendar_ff).
    cbv beta iota. erewrite try_catch_ok; [reflexivity|].
    rewrite push_body_unfold. cbv zeta. fold w0. fold ids. fold exp.
    erewrite bind_ok by exact Hrun1. unfold after_orphans.
    erewrite bind_ok by exact Hrun2. erewrite bind_ok by exact Hrun3. reflexivity. }
  eexists _, _, _, _, w'. split; [exact Hrun|]. split; [done|].
  split; [|split; [done|split; [congruence|]]].
  { rewrite get_sync_mapping_by_id; [done|]. by apply H0. }
  intros Hm He.
  destruct (first_push now w Hff Hc Hnd H0 Hm He) as (msg & w'' & Hfirst).
  rewrite Hrun in Hfirst. by injection Hfirst as -> -> -> _ _.
Qed.

End PushWholeNew.

Lemma push_unmapped_session_witness :
  ∃ synced updated deleted msg w',
    CalDAVSync.sync_to_calendar 95000 never_synced =
      (Ok (ToOk synced updated deleted msg), w') ∧
    (1 ≤ synced)%nat ∧
    PomodoroDatabase.get_sync_mapping (Some 1) None (db w') = [new_row reading 95000] ∧
    objects_with "pomodoro-1@pomodoro-timer" (events (remote w')) =
      [pushed_event reading "pomodoro-1@pomodoro-timer"] ∧
    sessions (db w') = [reading] ∧
    (mappings (db never_synced) = [] → events (remote never_synced) = [] →
     synced = 1%nat ∧ updated = 0%nat ∧ deleted = 0%nat).
Proof.
  apply (push_unmapped_session 95000 never_synced reading).
  - reflexivity.
  - by left.
  - apply NoDup_singleton.
  - by intros j ->%list_elem_of_singleton.
  - left.
  - by intros r ?%elem_of_nil.
Defined.

(** The claim C6 gives the UID of the concrete scenario as
    [session-<id>@<namespace>].  The scenario, run: one session synced,
    none updated, none deleted, and the new mapping row has the UID
    [pomodoro-1@pomodoro-timer], which does not begin with [session-]. *)
Lemma new_uid_is_pomodoro_prefixed :
  ∃ w',
    CalDAVSync.sync_to_calendar 95000 never_synced =
      (Ok (ToOk 1 0 0 "Synced 1 new, updated 0 existing"),
       w') ∧
    mappings (db w') =
      [ {| session_id := 1; calendar_uid := "pomodoro-1@pomodoro-timer";
           calendar_url := None; last_synced := 95000 |} ] ∧
    ev_uid <$> events (remote w') = ["pomodoro-1@pomodoro-timer"] ∧
    Text.startswith "session-" "pomodoro-1@pomodoro-timer" = false.
Proof.
  eexists. split; [vm_compute; reflexivity|]. repeat split.
Qed.

(** ** The round trip: push, lose the mapping, pull *)

Section RoundTrip.
Import PomodoroDatabase CalDAVSync.

Local Instance closer_first_trans t : Transitive (closer_first t).
Proof. unfold closer_first. intros a b c ? ?. lia. Qed.
Local Instance closer_first_total t : Total (closer_first t).
Proof. unfold closer_first. intros a b. lia. Qed.



End RoundTrip.


(** The round trip of the scenario, whole: push, lose the mapping row,
    pull.  One object found, none imported, one updated; one session. *)
Example round_trip_reading :
  ∃ w',
    CalDAVSync.sync_from_calendar no_key 95300 (lost_linkage 95000 never_synced) =
      (Ok (FromOk 0 1 1 0 "Found 1 events. Imported 0 new, updated 1 existing"), w') ∧
    sessions (db w') = [reading] ∧
    mappings (db w') =
      [ {| session_id := 1; calendar_uid := "pomodoro-1@pomodoro-timer";
           calendar_url := Some "pomodoro-1@pomodoro-timer.ics";
           last_synced := 95300 |} ].
Proof. eexists. split; [vm_compute; reflexivity|]. split; reflexivity. Qed.


(** * The database operations, one by one *)

Section LedgerOps.
Import PomodoroDatabase CalDAVSync.

Lemma max_rowid_bound l s : s ∈ l → id s ≤ max_rowid l.
Proof.
  induction l as [|x l IH]; [by intros ?%elem_of_nil|].
  intros [->|Hs]%elem_of_cons; simpl; [lia|]. specialize (IH Hs). lia.
Qed.

Lemma max_rowid_nonneg l : 0 ≤ max_rowid l.
Proof. induction l; simpl; lia. Qed.

Lemma max_rowid_le l b : 0 ≤ b → (∀ s, s ∈ l → id s ≤ b) → max_rowid l ≤ b.
Proof.
  intros Hb. induction l as [|x l IH]; intros Hall; simpl; [done|].
  assert (id x ≤ b) by (apply Hall; left).
  assert (max_rowid l ≤ b) by (apply IH; intros s Hs; apply Hall; by right). lia.
Qed.

(** The counter of the key is never behind: in a ledger made by the
    operations, ids are a key, positive and at most [sessions_seq]. *)
Lemma reachable_ids d :
  ledger_reachable d →
  NoDup (id <$> sessions d) ∧ 0 ≤ sessions_seq d ∧
  ∀ s, s ∈ sessions d → 0 < id s ≤ sessions_seq d.
Proof.
  induction 1 as [|d task duration start end_ st completed _ (Hnd & H0 & Hb)
                  |d sid task duration start end_ st completed _ (Hnd & H0 & Hb)
                  |d sid _ (Hnd & H0 & Hb)
                  |d sid uid href now _ IH|d sid uid _ IH].
  - simpl. split; [constructor|]. split; [done|]. by intros s ?%elem_of_nil.
  - assert (max_rowid (sessions d) ≤ sessions_seq d) as Hmax.
    { apply max_rowid_le; [done|]. intros s Hs. by apply Hb. }
    simpl. rewrite fmap_app. simpl. split; [|split; [lia|]].
    + apply NoDup_app. split; [done|]. split; [|apply NoDup_singleton].
      intros k (s & -> & Hs)%list_elem_of_fmap Heq%list_elem_of_singleton.
      specialize (Hb s Hs). lia.
    + intros s [Hs| ->%list_elem_of_singleton]%elem_of_app.
      * specialize (Hb s Hs). lia.
      * simpl. lia.
  - unfold update_session; simpl. split; [|split; [done|]].
    + rewrite <- list_fmap_compose.
      erewrite list_fmap_ext; [exact Hnd|]. intros i x _. simpl. by case_decide.
    + intros s (x & -> & Hx)%list_elem_of_fmap. specialize (Hb x Hx).
      by case_decide.
  - unfold delete_session; simpl. split; [|split; [done|]].
    + apply (sublist_NoDup _ (id <$> sessions d)); [exact Hnd|].
      apply fmap_sublist, sublist_filter.
    + intros s [_ Hs]%list_elem_of_filter. by apply Hb.
  - exact IH.
  - unfold delete_sync_mapping.
    destruct (truthy_int sid); [exact IH|]. destruct (truthy_str uid); exact IH.
Qed.

(** [add_session] in a ledger made by the database operations: the id it
    returns is the counter plus one, larger than the id of every session
    of the table, and it is the same whichever session was deleted just
    before, so that the id of a deleted session is not handed out again.
    The new row is the last of the table, [session_exists] finds it, and
    ids are still a key. *)
Theorem add_session_never_reuses d task duration start end_ st completed :
  ledger_reachable d →
  let r := add_session task duration start end_ st completed d in
  r.1 = sessions_seq d + 1 ∧
  (∀ s, s ∈ sessions d → id s < r.1) ∧
  (∀ sid, (add_session task duration start end_ st completed
             (delete_session sid d)).1 = r.1) ∧
  session_exists r.1 r.2 = true ∧
  sessions r.2 =
    sessions d ++
    [ {| id := r.1; task_name := task; duration_seconds := duration;
         start_time := start; end_time := end_; status := st;
         completed_seconds := completed |} ] ∧
  NoDup (id <$> sessions r.2).
Proof.
  intros Hr. destruct (reachable_ids d Hr) as (Hnd & H0 & Hb). cbv zeta.
  assert (max_rowid (sessions d) ≤ sessions_seq d) as Hmax.
  { apply max_rowid_le; [done|]. intros s Hs. by apply Hb. }
  split; [simpl; lia|]. split.
  { intros s Hs. specialize (Hb s Hs). simpl. lia. }
  split.
  { intros sid. simpl.
    assert (max_rowid (filter (λ s, id s ≠ sid) (sessions d)) ≤ sessions_seq d).
    { apply max_rowid_le; [done|]. intros s [_ Hs]%list_elem_of_filter. by apply Hb. }
    pose proof (max_rowid_nonneg (filter (λ s, id s ≠ sid) (sessions d))). lia. }
  split.
  { unfold session_exists. apply bool_decide_eq_true. simpl.
    rewrite filter_app, length_app, (filter_cons _ _ []).
    rewrite decide_True by done. simpl. lia. }
  split; [done|].
  apply (reachable_ids _ (reach_add_session d task duration start end_ st completed Hr)).
Qed.

Local Instance newer_first_trans : Transitive newer_first.
Proof. unfold newer_first. intros a b c ? ?. lia. Qed.
Local Instance newer_first_total : Total newer_first.
Proof. unfold newer_first. intros a b. lia. Qed.
Local Instance closer_first_transitive t : Transitive (closer_first t).
Proof. unfold closer_first. intros a b c ? ?. lia. Qed.
Local Instance closer_first_totality t : Total (closer_first t).
Proof. unfold closer_first. intros a b. lia. Qed.



(** The mapping table as a two-way dictionary.  After the upsert of
    [(k, u)], with [k] not 0 and [u] not empty, the lookup by session id
    and the lookup by UID both return the new row and nothing else; the
    rows that are left of the old table are those that have neither this
    session id nor this UID; sessions are untouched; and after a delete by
    either key the same lookup returns nothing. *)
Theorem set_sync_mapping_lookup k u href now d :
  k ≠ 0 → u ≠ "" →
  let row := {| session_id := k; calendar_uid := u; calendar_url := href;
                last_synced := now |} in
  let d' := set_sync_mapping k u href now d in
  get_sync_mapping (Some k) None d' = [row] ∧
  get_sync_mapping None (Some u) d' = [row] ∧
  (∀ m, m ∈ mappings d' ↔
        m = row ∨ (m ∈ mappings d ∧ session_id m ≠ k ∧ calendar_uid m ≠ u)) ∧
  sessions d' = sessions d ∧
  get_sync_mapping (Some k) None (delete_sync_mapping (Some k) None d') = [] ∧
  get_sync_mapping None (Some u) (delete_sync_mapping None (Some u) d') = [].
Proof.
  intros Hk Hu. cbv zeta.
  split; [by apply get_by_id_after_set|]. split; [by apply get_by_uid_after_set|].
  split.
  { intros m. unfold set_sync_mapping; simpl.
    rewrite elem_of_app, list_elem_of_filter, list_elem_of_singleton. tauto. }
  split; [done|]. split.
  - rewrite get_sync_mapping_by_id by done.
    unfold delete_sync_mapping. simpl. rewrite decide_False by done. simpl.
    apply filter_nil_of_filter. by intros x ? ?.
  - rewrite get_sync_mapping_by_uid by done.
    rewrite delete_sync_mapping_by_uid by done. simpl.
    apply filter_nil_of_filter. by intros x ? ?.
Qed.

(** [update_session] never adds or removes a row, never changes an id or
    the order of the rows, and never touches the mapping table.  For an
    id that is not in the table, and when every field is [None], the
    ledger is unchanged.  A row with another id is kept as it is, and in
    an updated row every field that was [None] keeps its value. *)
Theorem update_session_frame sid task duration start end_ st completed d :
  let d' := update_session sid task duration start end_ st completed d in
  id <$> sessions d' = id <$> sessions d ∧
  mappings d' = mappings d ∧ sessions_seq d' = sessions_seq d ∧
  (sid ∉ id <$> sessions d → d' = d) ∧
  (update_session sid None None None None None None d = d) ∧
  (∀ s, s ∈ sessions d → id s ≠ sid → s ∈ sessions d') ∧
  (∀ s', s' ∈ sessions d' → id s' = sid →
     ∃ s, s ∈ sessions d ∧ id s = sid ∧
          task_name s' = default (task_name s) task ∧
          duration_seconds s' = default (duration_seconds s) duration ∧
          start_time s' = default (start_time s) start ∧
          end_time s' = (if end_ is Some e then Some e else end_time s) ∧
          status s' = default (status s) st ∧
          completed_seconds s' = default (completed_seconds s) completed).
Proof.
  cbv zeta. unfold update_session, with_sessions; simpl.
  split.
  { rewrite <- list_fmap_compose. apply list_fmap_ext. intros i x _. simpl.
    by case_decide. }
  split; [done|]. split; [done|]. split.
  { intros Hno. destruct d as [l q ms]; simpl in *. f_equal.
    rewrite <- (list_fmap_id l) at 2. apply list_fmap_ext. intros i x Hx.
    rewrite decide_False; [done|]. intros <-. apply Hno.
    apply list_elem_of_fmap_2. by eapply list_elem_of_lookup_2. }
  split.
  { destruct d as [l q ms]; simpl. f_equal.
    rewrite <- (list_fmap_id l) at 2. apply list_fmap_ext. intros i x _.
    case_decide; [|done]. by destruct x. }
  split.
  { intros s Hs Hne. apply list_elem_of_fmap. exists s.
    by rewrite decide_False. }
  intros s' (s & -> & Hs)%list_elem_of_fmap Hid.
  case_decide as Hd; [|done]. exists s. split; [done|]. split; [done|].
  by destruct task, duration, start, end_, st, completed.
Qed.

(** The delete handler of the server, for an id that is not 0: afterwards
    the session does not exist and has no mapping row, the other sessions
    and rows are as before, and a ledger without orphan rows stays
    without.  [delete_session] alone does not do that: it leaves the
    mapping row of a mapped session behind. *)
Theorem api_delete_session_clean sid d :
  sid ≠ 0 →
  let d' := api_delete_session sid d in
  session_exists sid d' = false ∧
  get_sync_mapping (Some sid) None d' = [] ∧
  sessions d' = filter (λ s, id s ≠ sid) (sessions d) ∧
  mappings d' = filter (λ m, session_id m ≠ sid) (mappings d) ∧
  (no_orphans d → no_orphans d') ∧
  (sid ∈ session_id <$> mappings d → ¬ no_orphans (delete_session sid d)).
Proof.
  intros H0. cbv zeta. unfold api_delete_session, delete_sync_mapping; simpl.
  rewrite decide_False by done. simpl.
  split.
  { unfold session_exists. apply bool_decide_eq_false. simpl.
    rewrite filter_nil_of_filter by (by intros x ? ?). simpl. lia. }
  split.
  { rewrite get_sync_mapping_by_id by done. simpl.
    apply filter_nil_of_filter. by intros x ? ?. }
  split; [done|]. split; [done|]. split.
  - intros Hno m [Hne Hm]%list_elem_of_filter. simpl.
    specialize (Hno m Hm) as (s & Heq & Hs)%list_elem_of_fmap.
    apply list_elem_of_fmap. exists s. split; [done|].
    apply list_elem_of_filter. split; [congruence|done].
  - intros (m & Heq & Hm)%list_elem_of_fmap Hno.
    specialize (Hno m Hm). simpl in Hno.
    apply list_elem_of_fmap in Hno as (s & Hs1 & [Hs2 _]%list_elem_of_filter).
    congruence.
Qed.

End LedgerOps.

Lemma add_session_never_reuses_witness :
  let d := PomodoroDatabase.delete_session 1
             (PomodoroDatabase.add_session "reading" 1500 86400 (Some 87900)
                "completed" 1500 PomodoroDatabase.empty).2 in
  let r := PomodoroDatabase.add_session "writing" 1500 90000 None "completed" 0 d in
  r.1 = sessions_seq d + 1 ∧
  (∀ s, s ∈ sessions d → id s < r.1) ∧
  (∀ sid, (PomodoroDatabase.add_session "writing" 1500 90000 None "completed" 0
             (PomodoroDatabase.delete_session sid d)).1 = r.1) ∧
  PomodoroDatabase.session_exists r.1 r.2 = true ∧
  sessions r.2 =
    sessions d ++
    [ {| id := r.1; task_name := "writing"; duration_seconds := 1500;
         start_time := 90000; end_time := None; status := "completed";
         completed_seconds := 0 |} ] ∧
  NoDup (id <$> sessions r.2).
Proof.
  apply (add_session_never_reuses
           (PomodoroDatabase.delete_session 1
              (PomodoroDatabase.add_session "reading" 1500 86400 (Some 87900)
                 "completed" 1500 PomodoroDatabase.empty).2)).
  apply reach_delete_session, reach_add_session, reach_empty.
Defined.

Lemma set_sync_mapping_lookup_witness :
  let row := {| session_id := 2; calendar_uid := "pomodoro-1@pomodoro-timer";
                calendar_url := None; last_synced := 95000 |} in
  let d := ledger_of [reading] [reading_mapping] in
  let d' := PomodoroDatabase.set_sync_mapping 2 "pomodoro-1@pomodoro-timer" None 95000 d in
  PomodoroDatabase.get_sync_mapping (Some 2) None d' = [row] ∧
  PomodoroDatabase.get_sync_mapping None (Some "pomodoro-1@pomodoro-timer") d' = [row] ∧
  (∀ m, m ∈ mappings d' ↔
        m = row ∨ (m ∈ mappings d ∧ session_id m ≠ 2 ∧
                   calendar_uid m ≠ "pomodoro-1@pomodoro-timer")) ∧
  sessions d' = sessions d ∧
  PomodoroDatabase.get_sync_mapping (Some 2) None
    (PomodoroDatabase.delete_sync_mapping (Some 2) None d') = [] ∧
  PomodoroDatabase.get_sync_mapping None (Some "pomodoro-1@pomodoro-timer")
    (PomodoroDatabase.delete_sync_mapping None (Some "pomodoro-1@pomodoro-timer") d') = [].
Proof.
  apply (set_sync_mapping_lookup 2 "pomodoro-1@pomodoro-timer" None 95000
           (ledger_of [reading] [reading_mapping])); done.
Defined.

Lemma api_delete_session_clean_witness :
  let d := ledger_of [reading] [reading_mapping] in
  let d' := api_delete_session 1 d in
  PomodoroDatabase.session_exists 1 d' = false ∧
  PomodoroDatabase.get_sync_mapping (Some 1) None d' = [] ∧
  sessions d' = filter (λ s, id s ≠ 1) (sessions d) ∧
  mappings d' = filter (λ m, session_id m ≠ 1) (mappings d) ∧
  (no_orphans d → no_orphans d') ∧
  (1 ∈ session_id <$> mappings d →
   ¬ no_orphans (PomodoroDatabase.delete_session 1 d)).
Proof.
  apply (api_delete_session_clean 1 (ledger_of [reading] [reading_mapping])). done.
Defined.

(** * What a sync never does *)

Section EngineFrames.
Import PomodoroDatabase CalDAVSync.

Section Yields.
Context {S : Type}.

Lemma yields_ret {A} (R : A → Prop) a : R a → yields (S:=S) R (ret a).
Proof. intros Ha s a' s' [= <- _]. done. Qed.

Lemma yields_bind {A B} (R : B → Prop) (m : M S A) (k : A → M S B) :
  (∀ a, yields R (k a)) → yields R (bind m k).
Proof.
  intros Hk s b s'. unfold bind. destruct (m s) as [[a|e] s1]; [|done].
  apply Hk.
Qed.

Lemma yields_bind_with {A B} (R1 : A → Prop) (R : B → Prop) (m : M S A)
    (k : A → M S B) :
  yields R1 m → (∀ a, R1 a → yields R (k a)) → yields R (bind m k).
Proof.
  intros Hm Hk s b s'. unfold bind. destruct (m s) as [[a|e] s1] eqn:Hrun; [|done].
  apply Hk. by eapply Hm.
Qed.

Lemma yields_try_catch {A} (R : A → Prop) (m : M S A) h :
  yields R m → (∀ e, yields R (h e)) → yields R (try_catch m h).
Proof.
  intros Hm Hh s a s'. unfold try_catch.
  destruct (m s) as [[a1|e] s1] eqn:Hrun.
  - intros [= <- _]. by eapply Hm.
  - apply Hh.
Qed.

End Yields.

Lemma push_session_counts now s c :
  yields (λ c', c'.1 + c'.2 ≤ S (c.1 + c.2))%nat (push_session now s c).
Proof.
  unfold push_session. apply yields_bind. intros [|m ms].
  - apply yields_bind. intros _. apply yields_bind. intros _.
    apply yields_ret. simpl. lia.
  - apply yields_try_catch.
    + apply yields_bind. intros [|ev evs].
      * apply yields_bind. intros _. apply yields_ret. simpl. lia.
      * apply yields_bind. intros _. apply yields_try_catch.
        -- apply yields_bind. intros ev'. apply yields_bind. intros _.
           apply yields_ret. simpl. lia.
        -- intros e. apply yields_try_catch.
           ++ apply yields_bind. intros _. apply yields_bind. intros _.
              apply yields_ret. simpl. lia.
           ++ intros e'. apply yields_ret. lia.
    + intros e. apply yields_bind. intros _. apply yields_ret. simpl. lia.
Qed.

Lemma push_sessions_counts now l : ∀ c,
  yields (λ c', c'.1 + c'.2 ≤ c.1 + c.2 + length l)%nat
    (for_each (push_session now) l c).
Proof.
  induction l as [|x l IH]; intros c w c' w'.
  - intros [= <- _]. simpl. lia.
  - simpl. unfold bind. destruct (push_session now x c w) as [[c1|e] w1] eqn:Hx;
      [|done].
    intros Hrun. apply IH in Hrun. apply push_session_counts in Hx. lia.
Qed.

Section WorldKept.
Variable P : world → Prop.
Hypothesis P_shrink : shrink_closed P.
Hypothesis P_push : ∀ j, push_closed j P.
Hypothesis P_calendar : ∀ w, P w → P (with_calendar true w).

Lemma preserves_connect : preserves P connect.
Proof.
  unfold connect. apply preserves_bind; [apply preserves_gets|]. intros url.
  destruct (truthy_str url); [|apply preserves_ret].
  apply preserves_try_catch; [|intros; apply preserves_ret].
  apply preserves_bind; [apply preserves_gets|]. intros [|]; [|apply preserves_ret].
  apply preserves_bind; [by apply preserves_request|]. intros _.
  apply preserves_bind; [by apply preserves_modify|]. intros _. apply preserves_ret.
Qed.

Lemma preserves_ensure_calendar : preserves P ensure_calendar.
Proof.
  unfold ensure_calendar. apply preserves_bind; [apply preserves_gets|].
  intros [|]; [apply preserves_ret|].
  apply preserves_bind; [apply preserves_connect|]. intros [[|] e]; apply preserves_ret.
Qed.

Lemma preserves_push_body now : preserves P (push_body now).
Proof.
  intros w r w' HQ Hrun. rewrite push_body_unfold in Hrun. cbv zeta in Hrun.
  refine (preserves_bind P _ _ _ _ w r w' HQ Hrun).
  - apply preserves_for_each. intros x c _. by apply preserves_sweep_mapping.
  - intros n. apply preserves_after_orphans; [done|]. intros x _. apply P_push.
Qed.

Lemma preserves_sync_to_calendar now : preserves P (sync_to_calendar now).
Proof.
  unfold sync_to_calendar. apply preserves_bind; [apply preserves_ensure_calendar|].
  intros [e|]; [apply preserves_ret|].
  apply preserves_try_catch; [apply preserves_push_body|]. intros; apply preserves_ret.
Qed.

End WorldKept.

Section LedgerKept.
Variable Q : database → Prop.
Hypothesis Q_unmap : ∀ d sid uid, Q d → Q (delete_sync_mapping sid uid d).
Hypothesis Q_map : ∀ d k u href t, Q d → Q (set_sync_mapping k u href t d).

Lemma ledger_shrink_closed : shrink_closed (λ w, Q (db w)).
Proof. split; [done|done|]. intros w sid uid. apply Q_unmap. Qed.

Lemma ledger_push_closed j : push_closed j (λ w, Q (db w)).
Proof.
  split; [apply ledger_shrink_closed|done|done|done|].
  intros w now. apply Q_map.
Qed.

Lemma push_keeps_ledger now : preserves (λ w, Q (db w)) (sync_to_calendar now).
Proof.
  apply preserves_sync_to_calendar;
    [apply ledger_shrink_closed|apply ledger_push_closed|done].
Qed.

End LedgerKept.

Lemma push_keeps_config now u :
  preserves (λ w, config_url w = u) (sync_to_calendar now).
Proof. apply preserves_sync_to_calendar; [| |done]; by repeat split. Qed.

Lemma push_body_keeps_calendar now :
  preserves (λ w, calendar w = true) (push_body now).
Proof. apply preserves_push_body; [|]; by repeat split. Qed.

Lemma ids_update_session sid task duration start end_ st completed d :
  id <$> sessions (update_session sid task duration start end_ st completed d)
  = id <$> sessions d.
Proof.
  unfold update_session; simpl. rewrite <- list_fmap_compose.
  apply list_fmap_ext. intros i x _. simpl. by case_decide.
Qed.

Lemma sessions_delete_sync_mapping sid uid d :
  sessions (delete_sync_mapping sid uid d) = sessions d.
Proof.
  unfold delete_sync_mapping. destruct (truthy_int sid); [done|].
  by destruct (truthy_str uid).
Qed.

Section PullKept.
Variable Q : database → Prop.
Hypothesis Q_unmap : ∀ d sid uid, Q d → Q (delete_sync_mapping sid uid d).
Hypothesis Q_map : ∀ d k u href t, Q d → Q (set_sync_mapping k u href t d).
Hypothesis Q_update : ∀ d sid task duration start end_ st completed,
  Q d → Q (update_session sid task duration start end_ st completed d).
Hypothesis Q_add : ∀ d task duration start end_ st completed,
  Q d → Q (add_session task duration start end_ st completed d).2.

Lemma pull_step_ok_same c c' d d' :
  id <$> sessions d' = id <$> sessions d → (Q d → Q d') →
  imported c' = imported c →
  (pulled c' + skipped c' ≤ S (pulled c + skipped c))%nat →
  pull_step_ok Q c d c' d'.
Proof.
  intros Hids HQ Hi Hle. exists []. rewrite app_nil_r. simpl.
  split; [done|]. split; [lia|]. split; [lia|done].
Qed.

Lemma pull_step_ok_pre c c' d d1 d' :
  id <$> sessions d1 = id <$> sessions d → (Q d → Q d1) →
  pull_step_ok Q c d1 c' d' → pull_step_ok Q c d c' d'.
Proof.
  intros Hids HQ (new & Hnew & Hi & Hle & HQ'). exists new.
  rewrite <- Hids. repeat split; auto.
Qed.

Lemma import_session_step now ev uid task start end_ c d :
  ∃ c' d', import_session now ev uid task start end_ c d = (Ok c', d') ∧
           pull_step_ok Q c d c' d'.
Proof.
  unfold import_session, bind, modify, ret. simpl.
  eexists _, _. split; [reflexivity|].
  exists [Z.max (max_rowid (sessions d)) (sessions_seq d) + 1].
  simpl. rewrite fmap_app. simpl.
  split; [done|]. split; [lia|]. split; [lia|].
  intros H0. apply Q_map.
  by apply (Q_add d task (end_ - start) start (Some end_) "completed" (end_ - start)).
Qed.

Lemma pull_event_step mk now ev c d :
  ∃ c' d', pull_event mk now ev c d = (Ok c', d') ∧ pull_step_ok Q c d c' d'.
Proof.
  assert (∀ d', id <$> sessions d' = id <$> sessions d → (Q d → Q d') →
                pull_step_ok Q c d (bump_skipped c) d' ∧ pull_step_ok Q c d (bump_pulled c) d' ∧
                pull_step_ok Q c d c d') as Hsame.
  { intros d' Hids HQ. repeat split; apply pull_step_ok_same; simpl; auto; lia. }
  unfold pull_event, try_catch, pull_event_body.
  destruct (negb (uid_is_pomodoro (ev_uid ev)) &&
            negb (summary_is_pomodoro (ev_summary ev))).
  { eexists _, _. split; [reflexivity|]. by apply Hsame. }
  unfold bind at 1.
  destruct (negb (uid_is_pomodoro (ev_uid ev)) && bool_decide (ev_uid ev = ""));
    destruct (ev_dtstart ev) as [start|]; simpl;
    try (eexists _, _; split; [reflexivity|]; by apply Hsame).
  all: unfold bind at 1, gets at 1.
  all: match goal with
       | |- context [get_sync_mapping None (Some ?u) ?x] =>
           destruct (get_sync_mapping None (Some u) x) as [|m ms]
       end.
  all: unfold bind at 1, gets at 1.
  all: try (destruct (session_exists (session_id m) d)).
  all: try (destruct (find_session_by_time_and_task start
                        (task_label (ev_summary ev)) 5 d) as [s|];
            [unfold bind at 1, gets at 1;
             destruct (get_sync_mapping (Some (id s)) None d)|]).
  all: try (eexists _, _; split; [reflexivity|]; apply Hsame;
            [by rewrite ?ids_update_session|auto]; fail).
  all: try (unfold bind at 1, modify at 1).
  all: try (eexists _, _; split; [reflexivity|]; apply Hsame;
            [exact (ids_update_session _ _ _ _ _ _ _ _)|auto]; fail).
  all: match goal with
       | |- context [import_session ?a ?b ?u ?t ?e ?f ?g ?h] =>
           destruct (import_session_step a b u t e f g h) as (c' & d' & -> & Hok)
       end.
  all: eexists _, _; (split; [reflexivity|]).
  all: try exact Hok.
  all: eapply pull_step_ok_pre; [| |exact Hok]; [by rewrite sessions_delete_sync_mapping|auto].
Qed.


Lemma pull_loop_step mk now l : ∀ c d,
  ∃ c' d' (new : list Z),
    for_each (pull_event mk now) l c d = (Ok c', d') ∧
    id <$> sessions d' = (id <$> sessions d) ++ new ∧
    imported c' = (imported c + length new)%nat ∧
    (imported c' + pulled c' + skipped c' ≤
       imported c + pulled c + skipped c + length l)%nat ∧
    (Q d → Q d').
Proof.
  induction l as [|ev l IH]; intros c d.
  - exists c, d, []. rewrite app_nil_r. simpl. repeat split; [lia|lia|done].
  - destruct (pull_event_step mk now ev c d)
      as (c1 & d1 & Hstep & new1 & Hids1 & Hi1 & Hle1 & HQ1).
    destruct (IH c1 d1) as (c' & d' & new & Hrun & Hids & Hi & Hle & HQ').
    exists c', d', (new1 ++ new). simpl. erewrite bind_ok by exact Hstep.
    split; [done|]. rewrite Hids, Hids1, length_app, (assoc_L (++)).
    split; [done|]. split; [lia|]. split; [lia|auto].
Qed.

End PullKept.

Lemma ensure_calendar_any w :
  ∃ g w1, ensure_calendar w = (Ok g, w1) ∧ db w1 = db w ∧
          events (remote w1) = events (remote w) ∧
          (g = None → calendar w1 = true).
Proof.
  unfold ensure_calendar, connect, bind, gets, try_catch, Server.request, modify, ret.
  destruct (calendar w) eqn:Hc, (truthy_str (config_url w)), (caldav_installed w),
    (tape (remote w)) as [|[e|] t] eqn:Ht; simpl; by eexists _, _.
Qed.

Lemma search_range_any lo hi w r w1 :
  Server.search_range lo hi w = (r, w1) →
  db w1 = db w ∧ events (remote w1) = events (remote w) ∧
  config_url w1 = config_url w ∧
  ∀ l, r = Ok l → (length l ≤ length (events (remote w)))%nat.
Proof.
  unfold Server.search_range, bind, Server.request, gets.
  assert (∀ P (dec : ∀ x, Decision (P x)),
            (length (filter P (events (remote w))) ≤ length (events (remote w)))%nat)
    as Hlen by (intros; apply length_filter).
  destruct (tape (remote w)) as [|[e|] t]; intros [= <- <-]; simpl;
    (split; [done|]); (split; [done|]); (split; [done|]); intros l [= <-]; apply Hlen.
Qed.

(** The push, whatever the server answers: it ends with a result and no
    exception, it leaves the session table alone, and on success it
    counts every session at most once. *)
Theorem push_never_touches_sessions now w :
  ∃ r w',
    sync_to_calendar now w = (Ok r, w') ∧
    sessions (db w') = sessions (db w) ∧
    sessions_seq (db w') = sessions_seq (db w) ∧
    config_url w' = config_url w ∧
    match r with
    | ToOk synced updated _ _ =>
        (synced + updated ≤ length (sessions (db w)))%nat ∧ calendar w' = true
    | ToFail _ => True
    end.
Proof.
  assert (total (sync_to_calendar now)) as Htot.
  { unfold sync_to_calendar. intros w0.
    destruct (ensure_calendar_any w0) as (g & w1 & Hg & _).
    unfold bind. rewrite Hg. destruct g; [by eexists _, _|].
    apply total_try_catch. intros e. apply total_ret. }
  destruct (Htot w) as (r & w' & Hrun). exists r, w'. split; [done|].
  assert (sessions (db w') = sessions (db w) ∧ sessions_seq (db w') = sessions_seq (db w))
    as [Hs Hq].
  { apply (push_keeps_ledger
             (λ d, sessions d = sessions (db w) ∧ sessions_seq d = sessions_seq (db w)))
      with (now := now) (w := w) (r := Ok r); [| |done|done].
    - intros d sid uid [? ?]. by rewrite sessions_delete_sync_mapping;
        unfold delete_sync_mapping; destruct (truthy_int sid), (truthy_str uid).
    - by intros d k u href t [? ?]. }
  split; [done|]. split; [done|].
  split; [by eapply (push_keeps_config now (config_url w) w (Ok r) w')|].
  unfold sync_to_calendar in Hrun.
  destruct (ensure_calendar_any w) as (g & w1 & Hg & Hdb1 & _ & Hcal1).
  erewrite bind_ok in Hrun by exact Hg. destruct g as [e|]; [by injection Hrun as <- _|].
  unfold try_catch in Hrun.
  destruct (push_body now w1) as [[res|e] w2] eqn:Hbody;
    [|by injection Hrun as <- _].
  injection Hrun as -> ->.
  destruct r as [synced updated deleted msg|]; [|done]. split.
  - revert Hbody. rewrite push_body_unfold. cbv zeta. rewrite <- Hdb1.
    rewrite <- (length_get_all_sessions (db w1)).
    set (l := get_all_sessions (db w1)).
    revert synced updated deleted msg.
    assert (yields (λ r, match r with
                        | ToOk s u _ _ => (s + u ≤ length l)%nat
                        | ToFail _ => True
                        end)
              (deleted <- for_each (sweep_mapping (list_to_set (id <$> l))) (mappings (db w1)) 0%nat ;;
               after_orphans now l (list_to_set (id <$> l))
                 (list_to_set ((λ s, session_uid (id s)) <$> l) ∪
                  list_to_set (calendar_uid <$>
                     filter (λ m, session_id m ∈ (list_to_set (id <$> l) : gset Z))
                       (mappings (db w1))))
                 (length (mappings (db w1))) deleted)) as Hy.
    { apply yields_bind. intros n. unfold after_orphans.
      apply yields_bind. intros swept.
      eapply yields_bind_with; [apply push_sessions_counts|].
      intros c Hc. apply yields_ret. simpl in Hc. exact Hc. }
    intros synced updated deleted msg Hrun. exact (Hy _ _ _ Hrun).
  - eapply (push_body_keeps_calendar now w1); [by apply Hcal1|exact Hbody].
Qed.

Section PullWhole.
Variable Q : database → Prop.
Hypothesis Q_unmap : ∀ d sid uid, Q d → Q (delete_sync_mapping sid uid d).
Hypothesis Q_map : ∀ d k u href t, Q d → Q (set_sync_mapping k u href t d).
Hypothesis Q_update : ∀ d sid task duration start end_ st completed,
  Q d → Q (update_session sid task duration start end_ st completed d).
Hypothesis Q_add : ∀ d task duration start end_ st completed,
  Q d → Q (add_session task duration start end_ st completed d).2.

Lemma pull_any mk now w :
  ∃ r w' (new : list Z),
    sync_from_calendar mk now w = (Ok r, w') ∧
    events (remote w') = events (remote w) ∧
    config_url w' = config_url w ∧
    id <$> sessions (db w') = (id <$> sessions (db w)) ++ new ∧
    (Q (db w) → Q (db w')) ∧
    match r with
    | FromOk imp upd tot skp _ =>
        length new = imp ∧ (imp + upd + skp ≤ tot)%nat ∧
        (tot ≤ length (events (remote w)))%nat
    | FromFail _ => db w' = db w
    end.
Proof.
  unfold sync_from_calendar.
  destruct (ensure_calendar_any w) as (g & w1 & Hg & Hdb1 & Hev1 & _).
  assert (config_url w1 = config_url w) as Hcfg1.
  { eapply (preserves_ensure_calendar (λ x, config_url x = config_url w));
      [| |done|exact Hg]; by repeat split. }
  erewrite bind_ok by exact Hg.
  destruct g as [e|].
  { exists (FromFail e), w1, []. rewrite app_nil_r, Hdb1. by repeat split. }
  unfold try_catch, pull_body, bind at 1.
  destruct (Server.search_range (now - year) (now + year) w1) as [[l|e] w2] eqn:Hsearch;
    apply search_range_any in Hsearch as (Hdb2 & Hev2 & Hcfg2 & Hlen).
  - destruct (pull_loop_step Q Q_unmap Q_map Q_update Q_add mk now l
                {| imported := 0; pulled := 0; skipped := 0 |} (db w2))
      as (c' & d' & new & Hrun & Hids & Hi & Hle & HQ).
    unfold bind, on_db. rewrite Hrun. unfold ret.
    eexists _, _, new. split; [reflexivity|]. simpl.
    rewrite Hdb2, Hdb1 in Hids, HQ. rewrite Hev2, Hev1.
    split; [done|]. split; [congruence|].
    split; [done|]. split; [done|]. simpl in Hi, Hle.
    split; [lia|]. split; [lia|]. rewrite <- Hev1. by apply Hlen.
  - exists (FromFail e), w2, []. rewrite app_nil_r, Hdb2, Hdb1, Hev2, Hev1.
    split; [done|]. split; [done|]. split; [congruence|]. by repeat split.
Qed.

End PullWhole.

(** The pull, whatever the server answers: it ends with a result and no
    exception, it changes nothing on the calendar, it removes no session
    and changes no id: new ids are appended, one for every import it
    reports, and the three counters together do not exceed the number of
    objects found. *)
Theorem pull_only_adds_sessions mk now w :
  ∃ r w' (new : list Z),
    sync_from_calendar mk now w = (Ok r, w') ∧
    events (remote w') = events (remote w) ∧
    id <$> sessions (db w') = (id <$> sessions (db w)) ++ new ∧
    match r with
    | FromOk imp upd tot skp _ =>
        length new = imp ∧ (imp + upd + skp ≤ tot)%nat ∧
        (tot ≤ length (events (remote w)))%nat
    | FromFail _ => db w' = db w
    end.
Proof.
  destruct (pull_any (λ _, True)) with (mk := mk) (now := now) (w := w)
    as (r & w' & new & Hrun & Hev & _ & Hids & _ & Hr); try done.
  by exists r, w', new.
Qed.

(** [sync], whatever the server answers and whatever the state: it ends
    with a result and no exception; the overall flag is the conjunction
    of the two halves; no session is removed; a ledger made by the
    database operations stays one, and the two uniqueness constraints of
    the mapping table are kept. *)
Theorem sync_total_and_safe mk now w :
  ∃ r w' (new : list Z),
    sync mk now w = (Ok r, w') ∧
    success r = to_success (to_calendar r) && from_success (from_calendar r) ∧
    id <$> sessions (db w') = (id <$> sessions (db w)) ++ new ∧
    config_url w' = config_url w ∧
    (ledger_reachable (db w) → ledger_reachable (db w')) ∧
    (mapping_unique (mappings (db w)) → mapping_unique (mappings (db w'))).
Proof.
  set (Q := λ d, (ledger_reachable (db w) → ledger_reachable d) ∧
                 (mapping_unique (mappings (db w)) → mapping_unique (mappings d))).
  assert (∀ d sid uid, Q d → Q (delete_sync_mapping sid uid d)) as Q_unmap.
  { intros d sid uid [H1 H2]. split; intros H0.
    - by apply reach_delete_sync_mapping, H1.
    - by apply delete_sync_mapping_unique, H2. }
  assert (∀ d k u href t, Q d → Q (set_sync_mapping k u href t d)) as Q_map.
  { intros d k u href t [H1 H2]. split; intros H0.
    - by apply reach_set_sync_mapping, H1.
    - by apply set_sync_mapping_unique, H2. }
  assert (∀ d sid task duration start end_ st completed,
            Q d → Q (update_session sid task duration start end_ st completed d))
    as Q_update.
  { intros d sid task duration start end_ st completed [H1 H2]. split; intros H0.
    - by apply reach_update_session, H1.
    - by apply H2. }
  assert (∀ d task duration start end_ st completed,
            Q d → Q (add_session task duration start end_ st completed d).2) as Q_add.
  { intros d task duration start end_ st completed [H1 H2]. split; intros H0.
    - by apply reach_add_session, H1.
    - by apply H2. }
  destruct (push_never_touches_sessions now w)
    as (r1 & w1 & Hpush & Hs1 & _ & Hcfg1 & _).
  assert (Q (db w1)) as HQ1.
  { eapply (push_keeps_ledger Q Q_unmap Q_map now w); [|exact Hpush]. by split. }
  destruct (pull_any Q Q_unmap Q_map Q_update Q_add mk now w1)
    as (r2 & w2 & new & Hpull & _ & Hcfg2 & Hids & HQ2 & _).
  exists {| success := to_success r1 && from_success r2;
            to_calendar := r1; from_calendar := r2 |}, w2, new.
  split.
  { unfold sync. erewrite bind_ok by exact Hpush. by erewrite bind_ok by exact Hpull. }
  split; [done|]. rewrite Hs1 in Hids. split; [done|]. split; [congruence|].
  destruct (HQ2 HQ1) as [H1 H2]. by split.
Qed.

End EngineFrames.

(** * The command line: durations, the clock face, titles and UIDs *)

Section CommandLine.
Import PomodoroDatabase CalDAVSync.
Lemma pretty_N_char_digit x :
  (x < 10)%N →
  Py.is_digit (pretty_N_char x) = true ∧ Py.digit_value (pretty_N_char x) = Z.of_N x.
Proof.
  intros Hx.
  assert (x = 0 ∨ x = 1 ∨ x = 2 ∨ x = 3 ∨ x = 4 ∨ x = 5 ∨ x = 6 ∨ x = 7 ∨ x = 8
          ∨ x = 9)%N as Hcases by lia.
  repeat (destruct Hcases as [->|Hcases]; [by split|]). by subst.
Qed.

Lemma string_app_cons c (a b : string) : String c a +:+ b = String c (a +:+ b).
Proof. done. Qed.

Lemma string_app_nil_l (a : string) : "" +:+ a = a.
Proof. done. Qed.

Lemma string_app_assoc (a b c : string) : (a +:+ b) +:+ c = a +:+ (b +:+ c).
Proof. induction a as [|x a IH]; [done|]. rewrite !string_app_cons. by rewrite IH. Qed.

Lemma string_app_nil_r (a : string) : a +:+ "" = a.
Proof. induction a as [|x a IH]; [done|]. rewrite string_app_cons. by rewrite IH. Qed.

Lemma all_digits_app a b :
  all_digits (a +:+ b) = all_digits a && all_digits b.
Proof.
  induction a as [|x a IH]; [done|]. rewrite string_app_cons. simpl.
  rewrite IH. by rewrite andb_assoc.
Qed.

Lemma int_of_digits_go_app acc a b :
  Py.int_of_digits_go acc (a +:+ b) = Py.int_of_digits_go (Py.int_of_digits_go acc a) b.
Proof.
  revert acc. induction a as [|x a IH]; intros acc; [done|].
  rewrite string_app_cons. simpl. apply IH.
Qed.

(** The decimal digits that [pretty] writes in front of [s]. *)
Lemma pretty_N_go_digits x : ∀ s,
  ∃ D, pretty_N_go x s = D +:+ s ∧ all_digits D = true ∧
       ((0 < x)%N → D ≠ "") ∧
       ∀ acc, Py.int_of_digits_go acc D = acc * 10 ^ Z.of_nat (String.length D) + Z.of_N x.
Proof.
  induction (N.lt_wf_0 x) as [x _ IH]. intros s.
  destruct (decide (x = 0)%N) as [->|Hx].
  { exists "". rewrite pretty_N_go_0. repeat split; [lia|]. intros acc. simpl. lia. }
  rewrite pretty_N_go_step by lia.
  destruct (IH (x `div` 10)%N) with (s := String (pretty_N_char (x `mod` 10)) s)
    as (D & HD & Hdig & _ & Hval).
  { apply N.div_lt; lia. }
  destruct (pretty_N_char_digit (x `mod` 10)%N) as [Hc1 Hc2].
  { apply N.mod_lt. lia. }
  exists (D +:+ String (pretty_N_char (x `mod` 10)) "").
  split; [by rewrite HD, string_app_assoc|].
  split; [rewrite all_digits_app, Hdig; simpl; by rewrite Hc1|].
  split; [by destruct D|].
  intros acc. rewrite int_of_digits_go_app, Hval. simpl. rewrite Hc2.
  rewrite string_length_app. simpl.
  rewrite Nat2Z.inj_add, Z.pow_add_r by lia.
  rewrite (N.div_mod x 10) at 3 by lia.
  rewrite N2Z.inj_add, N2Z.inj_mul. lia.
Qed.

Lemma pretty_N_digits (n : N) :
  all_digits (pretty n) = true ∧ pretty n ≠ "" ∧ Py.int_of_digits (pretty n) = Z.of_N n.
Proof.
  unfold pretty, pretty_N. case_decide as Hn; [by subst|].
  destruct (pretty_N_go_digits n "") as (D & HD & Hdig & Hne & Hval).
  rewrite HD, string_app_nil_r. split; [done|]. split; [apply Hne; lia|].
  unfold Py.int_of_digits. rewrite Hval. lia.
Qed.

Lemma pretty_Z_nonneg (z : Z) : 0 ≤ z → pretty z = pretty (Z.to_N z).
Proof. intros Hz. destruct z as [|p|p]; [done|done|lia]. Qed.

Lemma pretty_Z_digits (z : Z) :
  0 ≤ z →
  all_digits (pretty z) = true ∧ pretty z ≠ "" ∧ Py.int_of_digits (pretty z) = z.
Proof.
  intros Hz. rewrite pretty_Z_nonneg by done.
  destruct (pretty_N_digits (Z.to_N z)) as (H1 & H2 & H3).
  split; [done|]. split; [done|]. rewrite H3. lia.
Qed.

(** *** The search for a number with a unit *)

Lemma search_digits_go_run u run D c rest :
  all_digits D = true → Py.is_digit c = false → run +:+ D ≠ "" →
  Py.search_digits_go u run (D +:+ String c rest) =
    if Ascii.eqb c u then Some (run +:+ D) else Py.search_digits_go u "" rest.
Proof.
  revert run. induction D as [|x D IH]; intros run Hdig Hc Hne.
  - rewrite string_app_nil_l, string_app_nil_r in *. simpl. rewrite Hc.
    by destruct run.
  - rewrite string_app_cons. simpl in *. apply andb_true_iff in Hdig as [Hx HD].
    rewrite Hx, IH; [|done|done|].
    + by rewrite string_app_assoc.
    + rewrite string_app_assoc. by destruct run.
Qed.

Lemma search_digits_go_end u run D :
  all_digits D = true → Py.search_digits_go u run D = None.
Proof.
  revert run. induction D as [|x D IH]; intros run Hdig; [done|].
  simpl in *. apply andb_true_iff in Hdig as [Hx HD]. rewrite Hx. by apply IH.
Qed.

Lemma search_digits_unit u D c rest :
  all_digits D = true → D ≠ "" → Py.is_digit c = false →
  Py.search_digits u (D +:+ String c rest) =
    if Ascii.eqb c u then Some D else Py.search_digits u rest.
Proof. intros. unfold Py.search_digits. by rewrite search_digits_go_run. Qed.

(** *** [int] *)

Lemma int_go_digits acc b D :
  all_digits D = true → (D ≠ "" ∨ b = true) →
  Py.int_go acc b D = Some (Py.int_of_digits_go acc D).
Proof.
  revert acc b. induction D as [|x D IH]; intros acc b Hdig Hne.
  - destruct Hne as [?| ->]; done.
  - simpl in *. apply andb_true_iff in Hdig as [Hx HD]. rewrite Hx.
    apply IH; [done|by right].
Qed.

Lemma int_digits D :
  all_digits D = true → D ≠ "" → Py.int D = Some (Py.int_of_digits D).
Proof.
  intros Hdig Hne. unfold Py.int, Py.int_of_digits.
  destruct D as [|x D]; [done|].
  assert (x ≠ "+"%char ∧ x ≠ "-"%char) as [H1 H2].
  { simpl in Hdig. apply andb_true_iff in Hdig as [Hx _].
    split; intros ->; discriminate Hx. }
  rewrite <- (int_go_digits 0 false (String x D)) by (auto).
  destruct x as [[] [] [] [] [] [] [] []]; done.
Qed.

(** *** [lower] and [strip] leave numbers with units alone *)

Lemma lower_app a b : Text.lower (a +:+ b) = Text.lower a +:+ Text.lower b.
Proof.
  induction a as [|x a IH]; [done|]. rewrite string_app_cons. simpl.
  by rewrite IH.
Qed.

Lemma lower_digits D : all_digits D = true → Text.lower D = D.
Proof.
  induction D as [|x D IH]; [done|]. simpl. intros [Hx HD]%andb_true_iff.
  rewrite IH by done. f_equal.
  unfold Py.is_digit in Hx. apply andb_true_iff in Hx as [H1 H2].
  apply Nat.leb_le in H1, H2. unfold Text.lower_ascii.
  destruct (Nat.leb 65 (nat_of_ascii x)) eqn:H3; [|done].
  apply Nat.leb_le in H3. lia.
Qed.

Lemma of_bytes_of s : Text.of_bytes (Text.bytes_of s) = s.
Proof. induction s as [|c s IH]; [done|]. simpl. by rewrite ascii_nat_embedding, IH. Qed.

Lemma strip_go_stop width fuel l : width l = 0%nat → Text.strip_go width fuel l = l.
Proof. intros H. destruct fuel; [done|]. simpl. by rewrite H. Qed.

Lemma strip_unchanged s :
  Text.leading_space (Text.bytes_of s) = 0%nat →
  Text.trailing_space (reverse (Text.bytes_of s)) = 0%nat →
  Text.strip s = s.
Proof.
  intros H1 H2. unfold Text.strip. cbv zeta.
  rewrite (strip_go_stop _ _ _ H1), (strip_go_stop _ _ _ H2).
  by rewrite reverse_involutive, of_bytes_of.
Qed.

(** What is left of [trailing_space] for a byte that starts no pattern. *)
Lemma trailing_rest_zero (r : list nat) :
  match r with
  | 128%nat :: 226%nat :: _ => 0%nat
  | _ => 0%nat
  end = 0%nat.
Proof.
  destruct r as [|b r]; [reflexivity|].
  do 128 (destruct b as [|b]; [reflexivity|]).
  destruct b as [|b]; [|reflexivity].
  destruct r as [|b r]; [reflexivity|].
  do 226 (destruct b as [|b]; [reflexivity|]).
  destruct b as [|b]; reflexivity.
Qed.

(** A printable ASCII byte is not white space, and neither starts nor ends
    a white-space code point of more bytes. *)
Lemma leading_space_plain n r :
  (33 ≤ n ≤ 127)%nat → Text.leading_space (n :: r) = 0%nat.
Proof.
  intros H. do 33 (destruct n as [|n]; [lia|]).
  do 95 (destruct n as [|n]; [reflexivity|]). lia.
Qed.

Lemma trailing_space_plain n r :
  (33 ≤ n ≤ 127)%nat → Text.trailing_space (n :: r) = 0%nat.
Proof.
  intros H. do 33 (destruct n as [|n]; [lia|]).
  do 95 (destruct n as [|n]; [exact (trailing_rest_zero r)|]). lia.
Qed.

Lemma bytes_of_app a b : Text.bytes_of (a +:+ b) = Text.bytes_of a ++ Text.bytes_of b.
Proof. induction a as [|x a IH]; [done|]. rewrite string_app_cons. simpl. by rewrite IH. Qed.

Lemma digit_is_plain c :
  Py.is_digit c = true → (33 ≤ nat_of_ascii c ≤ 127)%nat.
Proof.
  unfold Py.is_digit. intros [H1 H2]%andb_true_iff.
  apply Nat.leb_le in H1, H2. lia.
Qed.

(** A text that begins and ends with a printable ASCII byte is its own
    [strip]. *)
Lemma strip_plain_ends s a t b t' :
  s = String a t → s = t' +:+ String b "" →
  (33 ≤ nat_of_ascii a ≤ 127)%nat → (33 ≤ nat_of_ascii b ≤ 127)%nat →
  Text.strip s = s.
Proof.
  intros Ha Hb Hpa Hpb. apply strip_unchanged.
  - rewrite Ha. simpl. by apply leading_space_plain.
  - rewrite Hb, bytes_of_app. simpl. rewrite reverse_app. simpl.
    by apply trailing_space_plain.
Qed.

Lemma digits_head D : all_digits D = true → D ≠ "" →
  ∃ a t, D = String a t ∧ (33 ≤ nat_of_ascii a ≤ 127)%nat.
Proof.
  intros Hd Hne. destruct D as [|a t]; [done|]. exists a, t. split; [done|].
  simpl in Hd. apply andb_true_iff in Hd as [Ha _]. by apply digit_is_plain.
Qed.

Lemma digits_last D : all_digits D = true → D ≠ "" →
  ∃ b t, D = t +:+ String b "" ∧ (33 ≤ nat_of_ascii b ≤ 127)%nat.
Proof.
  induction D as [|a D IH]; [done|]. intros Hd _.
  simpl in Hd. apply andb_true_iff in Hd as [Ha HD].
  destruct D as [|a' D'].
  - exists a, "". split; [done|]. by apply digit_is_plain.
  - destruct IH as (b & t & -> & Hb); [done|done|].
    exists b, (String a t). by rewrite string_app_cons.
Qed.

Lemma plain_h : (33 ≤ nat_of_ascii "h" ≤ 127)%nat.
Proof. split; by apply Nat.leb_le. Qed.
Lemma plain_m : (33 ≤ nat_of_ascii "m" ≤ 127)%nat.
Proof. split; by apply Nat.leb_le. Qed.

(** The shape of the words that the theorem below reads: a number, then
    optionally a unit. *)
Lemma number_unit_normal D (rest : string) b t' :
  all_digits D = true → D ≠ "" →
  D +:+ rest = t' +:+ String b "" → (33 ≤ nat_of_ascii b ≤ 127)%nat →
  Text.lower rest = rest →
  D +:+ rest ≠ "" ∧ Text.strip (Text.lower (D +:+ rest)) = D +:+ rest.
Proof.
  intros Hd Hne Hlast Hb Hlow.
  destruct (digits_head D Hd Hne) as (a0 & t0 & -> & Ha0).
  split; [done|].
  rewrite lower_app, (lower_digits _ Hd), Hlow.
  eapply strip_plain_ends; [rewrite string_app_cons; reflexivity|exact Hlast|done|done].
Qed.

Lemma parse_duration_words (h m : Z) :
  0 ≤ h → 0 ≤ m →
  parse_duration (pretty h +:+ "h" +:+ pretty m +:+ "m") =
    (if decide (0 < h ∨ 0 < m) then 3600 * h + 60 * m else 1500) ∧
  parse_duration (pretty h +:+ "h") = (if decide (0 < h) then 3600 * h else 1500) ∧
  parse_duration (pretty m +:+ "m") = (if decide (0 < m) then 60 * m else 1500) ∧
  parse_duration (pretty m) = (if decide (0 < m) then 60 * m else 1500).
Proof.
  intros Hh Hm.
  destruct (pretty_Z_digits h Hh) as (Hdh & Hnh & Hvh).
  destruct (pretty_Z_digits m Hm) as (Hdm & Hnm & Hvm).
  set (Dh := pretty h) in *. set (Dm := pretty m) in *.
  assert (∀ (c : ascii) x, (33 ≤ nat_of_ascii c ≤ 127)%nat →
            ∃ b t', x +:+ String c "" = t' +:+ String b "" ∧
                    (33 ≤ nat_of_ascii b ≤ 127)%nat) as Hend.
  { intros c x Hc. by exists c, x. }
  split; [|split; [|split]].
  - unfold parse_duration.
    destruct (number_unit_normal Dh ("h" +:+ Dm +:+ "m") "m" (Dh +:+ "h" +:+ Dm))
      as [Hne Hnorm]; [done|done| |apply plain_m|by rewrite !lower_app, (lower_digits Dm)|].
    { by rewrite !string_app_assoc. }
    rewrite decide_False by done. rewrite Hnorm. cbv zeta.
    change (Dh +:+ "h" +:+ Dm +:+ "m") with (Dh +:+ String "h" (Dm +:+ String "m" "")).
    rewrite (search_digits_unit "h" Dh "h") by done. simpl Ascii.eqb. cbv iota.
    rewrite (search_digits_unit "m" Dh "h") by done. simpl Ascii.eqb. cbv iota.
    rewrite (search_digits_unit "m" Dm "m") by done. simpl Ascii.eqb. cbv iota.
    rewrite Hvh, Hvm. repeat case_decide; lia.
  - unfold parse_duration.
    destruct (number_unit_normal Dh "h" "h" Dh)
      as [Hne Hnorm]; [done|done|done|apply plain_h|done|].
    rewrite decide_False by done. rewrite Hnorm. cbv zeta.
    change (Dh +:+ "h") with (Dh +:+ String "h" "").
    rewrite (search_digits_unit "h" Dh "h") by done. simpl Ascii.eqb. cbv iota.
    rewrite (search_digits_unit "m" Dh "h") by done. simpl Ascii.eqb. cbv iota.
    change (Py.search_digits "m" "") with (@None string).
    rewrite Hvh. repeat case_decide; lia.
  - unfold parse_duration.
    destruct (number_unit_normal Dm "m" "m" Dm)
      as [Hne Hnorm]; [done|done|done|apply plain_m|done|].
    rewrite decide_False by done. rewrite Hnorm. cbv zeta.
    change (Dm +:+ "m") with (Dm +:+ String "m" "").
    rewrite (search_digits_unit "h" Dm "m") by done. simpl Ascii.eqb. cbv iota.
    rewrite (search_digits_unit "m" Dm "m") by done. simpl Ascii.eqb. cbv iota.
    change (Py.search_digits "h" "") with (@None string).
    rewrite Hvm. repeat case_decide; lia.
  - unfold parse_duration.
    destruct (digits_last Dm Hdm Hnm) as (b & t' & Hlast & Hb).
    destruct (number_unit_normal Dm "" b t')
      as [Hne Hnorm]; [done|done|by rewrite string_app_nil_r|done|done|].
    rewrite string_app_nil_r in Hne, Hnorm.
    rewrite decide_False by done. rewrite Hnorm. cbv zeta.
    unfold Py.search_digits. rewrite !search_digits_go_end by done.
    rewrite int_digits by done. rewrite Hvm. repeat case_decide; lia.
Qed.

(** [parse_duration] reads back the words it is meant for: [<h>h<m>m],
    [<h>h], [<m>m], and a bare number of minutes.  A result of 0 seconds
    is replaced by the default of 25 minutes. *)
Theorem parse_duration_numbers (h m : Z) :
  0 ≤ h < 10 ^ 2000 → 0 ≤ m < 10 ^ 2000 →
  parse_duration (pretty h +:+ "h" +:+ pretty m +:+ "m") =
    (if decide (0 < h ∨ 0 < m) then 3600 * h + 60 * m else 1500) ∧
  parse_duration (pretty h +:+ "h") = (if decide (0 < h) then 3600 * h else 1500) ∧
  parse_duration (pretty m +:+ "m") = (if decide (0 < m) then 60 * m else 1500) ∧
  parse_duration (pretty m) = (if decide (0 < m) then 60 * m else 1500).
Proof. intros [Hh _] [Hm _]. by apply parse_duration_words. Qed.

(** What the statistics print as a duration, read as a duration: from one
    minute on, [parse_duration] gives back the seconds that
    [format_time_display] showed, which are the whole minutes. *)
Theorem display_then_parse (s : Z) :
  60 ≤ s < 10 ^ 2000 →
  parse_duration (format_time_display s) = 60 * (s `div` 60).
Proof.
  intros [Hs _]. unfold format_time_display. cbv zeta.
  set (hours := s `div` 3600). set (minutes := (s `mod` 3600) `div` 60).
  assert (0 ≤ hours ∧ 0 ≤ minutes ∧ 3600 * hours + 60 * minutes = 60 * (s `div` 60) ∧
          (hours ≤ 0 → 0 < minutes)) as (Hh & Hm & Hsum & Hpos).
  { unfold hours, minutes. Z.div_mod_to_equations. lia. }
  case_decide as Hcase.
  - destruct (pretty_Z_digits hours Hh) as (Hdh & Hnh & Hvh).
    destruct (pretty_Z_digits minutes Hm) as (Hdm & Hnm & Hvm).
    set (Dh := pretty hours) in *. set (Dm := pretty minutes) in *.
    unfold parse_duration.
    destruct (number_unit_normal Dh ("h " +:+ Dm +:+ "m") "m" (Dh +:+ "h " +:+ Dm))
      as [Hne Hnorm]; [done|done| |apply plain_m|by rewrite !lower_app, (lower_digits Dm)|].
    { by rewrite !string_app_assoc. }
    rewrite decide_False by done. rewrite Hnorm. cbv zeta.
    change (Dh +:+ "h " +:+ Dm +:+ "m")
      with (Dh +:+ String "h" (String " " (Dm +:+ String "m" ""))).
    rewrite (search_digits_unit "h" Dh "h") by done. simpl Ascii.eqb. cbv iota.
    rewrite (search_digits_unit "m" Dh "h") by done. simpl Ascii.eqb. cbv iota.
    change (Py.search_digits "m" (String " " (Dm +:+ String "m" "")))
      with (Py.search_digits "m" (Dm +:+ String "m" "")).
    rewrite (search_digits_unit "m" Dm "m") by done. simpl Ascii.eqb. cbv iota.
    rewrite Hvh, Hvm. case_decide; lia.
  - destruct (parse_duration_words 0 minutes) as (_ & _ & -> & _); [done|done|].
    rewrite decide_True by lia. lia.
Qed.

(** *** Words without a digit *)

Lemma no_digit_bytes s :
  no_digit s = true ↔ Forall plain_byte (Text.bytes_of s).
Proof.
  induction s as [|c s IH]; simpl; [split; [constructor|done]|].
  rewrite andb_true_iff, Forall_cons, IH, negb_true_iff.
  unfold plain_byte, Py.is_digit. cbv zeta.
  pose proof (nat_ascii_bounded c).
  rewrite andb_false_iff, !Nat.leb_gt. split; intros [? ?]; (split; [lia|done]).
Qed.

Lemma bytes_of_bytes l :
  Forall (λ n, n < 256)%nat l → Text.bytes_of (Text.of_bytes l) = l.
Proof.
  induction 1 as [|n l Hn _ IH]; [done|]. simpl.
  by rewrite nat_ascii_embedding, IH.
Qed.

Lemma strip_go_drop width fuel l : ∃ k, Text.strip_go width fuel l = drop k l.
Proof.
  revert l. induction fuel as [|fuel IH]; intros l; [by exists 0%nat|].
  simpl. destruct (width l) as [|n] eqn:Hw; [by exists 0%nat|].
  destruct (IH (drop (S n) l)) as (k & ->). exists (S n + k)%nat.
  by rewrite drop_drop.
Qed.

Lemma no_digit_strip s : no_digit s = true → no_digit (Text.strip s) = true.
Proof.
  rewrite !no_digit_bytes. intros Hs. unfold Text.strip. cbv zeta.
  destruct (strip_go_drop Text.leading_space (length (Text.bytes_of s))
              (Text.bytes_of s)) as (k1 & ->).
  destruct (strip_go_drop Text.trailing_space (length (drop k1 (Text.bytes_of s)))
              (reverse (drop k1 (Text.bytes_of s)))) as (k2 & ->).
  assert (Forall plain_byte
            (reverse (drop k2 (reverse (drop k1 (Text.bytes_of s)))))) as Hall.
  { apply Forall_reverse, Forall_drop, Forall_reverse, Forall_drop, Hs. }
  rewrite bytes_of_bytes; [done|].
  eapply Forall_impl; [exact Hall|]. by intros n [? _].
Qed.

Lemma no_digit_lower s : no_digit s = true → no_digit (Text.lower s) = true.
Proof.
  induction s as [|c s IH]; [done|]. simpl.
  intros [Hc Hs]%andb_true_iff. rewrite IH by done. rewrite andb_true_r.
  apply negb_true_iff in Hc. apply negb_true_iff.
  unfold Text.lower_ascii. cbv zeta.
  destruct (Nat.leb 65 (nat_of_ascii c) && Nat.leb (nat_of_ascii c) 90) eqn:Hup;
    [|done].
  apply andb_true_iff in Hup as [H1 H2]. apply Nat.leb_le in H1, H2.
  unfold Py.is_digit. cbv zeta. rewrite nat_ascii_embedding by lia.
  apply andb_false_iff. right. apply Nat.leb_gt. lia.
Qed.

Lemma search_digits_none u s : no_digit s = true → Py.search_digits u s = None.
Proof.
  unfold Py.search_digits. induction s as [|c s IH]; [done|]. simpl.
  intros [Hc Hs]%andb_true_iff. apply negb_true_iff in Hc. rewrite Hc. by apply IH.
Qed.

Lemma int_go_none acc s : no_digit s = true → Py.int_go acc false s = None.
Proof.
  destruct s as [|c s]; [done|]. simpl.
  intros [Hc Hs]%andb_true_iff. apply negb_true_iff in Hc. rewrite Hc.
  by rewrite andb_false_r.
Qed.

Lemma int_none s : no_digit s = true → Py.int s = None.
Proof.
  intros Hs. unfold Py.int. destruct s as [|c s]; [done|].
  assert (no_digit s = true) as Hs' by (simpl in Hs; by apply andb_true_iff in Hs as [_ ?]).
  pose proof (int_go_none 0 (String c s) Hs) as H0.
  pose proof (int_go_none 0 s Hs') as H1.
  destruct c as [[] [] [] [] [] [] [] []]; try exact H0; by rewrite H1.
Qed.

(** [parse_duration] never returns 0 or a negative number of seconds: the
    timer always gets a positive duration.  The empty word and every word
    without a digit give the default of 25 minutes. *)
Theorem parse_duration_positive s :
  cli_word s →
  0 < parse_duration s ∧
  (s = "" → parse_duration s = 1500) ∧
  (no_digit s = true → parse_duration s = 1500).
Proof.
  intros _. split; [|split].
  - unfold parse_duration. repeat case_match; lia.
  - by intros ->.
  - intros Hs. unfold parse_duration. case_decide; [done|]. cbv zeta.
    assert (no_digit (Text.strip (Text.lower s)) = true) as Hn
      by (by apply no_digit_strip, no_digit_lower).
    by rewrite !search_digits_none, int_none.
Qed.

(** *** Titles and UIDs *)


Lemma startswith_app p s : Text.startswith p (p +:+ s) = true.
Proof.
  induction p as [|a p IH]; [done|]. rewrite string_app_cons. simpl.
  by rewrite Ascii.eqb_refl.
Qed.

Lemma contains_app p a b : Text.contains p (a +:+ p +:+ b) = true.
Proof.
  induction a as [|x a IH].
  - rewrite string_app_nil_l. destruct (p +:+ b) eqn:Heq; simpl;
      rewrite <- Heq, startswith_app; done.
  - rewrite string_app_cons. simpl. rewrite IH. apply orb_true_r.
Qed.

Lemma contains_suffix p a : Text.contains p (a +:+ p) = true.
Proof. rewrite <- (string_app_nil_r p) at 2. apply contains_app. Qed.

Lemma remove_go_absent old s :
  Text.contains old s = false → Text.remove_go old 0 s = s.
Proof.
  induction s as [|c s IH]; [done|]. simpl.
  intros [H1 H2]%orb_false_iff. rewrite H1. by rewrite IH.
Qed.

Lemma strip_leading_blank s : Text.strip (String " " s) = Text.strip s.
Proof. done. Qed.

(** The title the push gives a session gives the task name back to the
    pull, when the name does not contain the marker, has no white space
    at either end and is not empty. *)
Theorem task_label_round_trip (s : session) :
  Text.contains Text.tomato (task_name s) = false →
  Text.strip (task_name s) = task_name s →
  task_name s ≠ "" →
  task_label (summary_of s) = task_name s ∧
  summary_is_pomodoro (summary_of s) = true.
Proof.
  intros Hfree Hstrip Hne. split; [|done].
  unfold task_label, summary_of, Text.remove.
  change (Text.remove_go Text.tomato 0 (Text.tomato +:+ " " +:+ task_name s))
    with (String " " (Text.remove_go Text.tomato 0 (task_name s))).
  rewrite remove_go_absent by done.
  rewrite strip_leading_blank, Hstrip. unfold Text.or_else. by rewrite decide_False.
Qed.

Lemma pretty_Z_head (k : Z) :
  ∃ c t, pretty k = String c t ∧ (Py.is_digit c = true ∨ c = "-"%char).
Proof.
  destruct (decide (0 ≤ k)) as [Hk|Hk].
  - destruct (pretty_Z_digits k Hk) as (Hd & Hn & _).
    destruct (pretty k) as [|c t]; [done|]. exists c, t. split; [done|]. left.
    simpl in Hd. by apply andb_true_iff in Hd as [? _].
  - destruct k as [|p|p]; [lia|lia|]. exists "-"%char, (pretty p). split; [done|by right].
Qed.

(** The UIDs of the engine.  The UID derived from a session id is
    recognised by the pull and determines the id; the UID made up for a
    hand-made object is recognised too, and is never the UID of a
    session. *)
Theorem uid_shapes (k h : Z) :
  uid_is_pomodoro (session_uid k) = true ∧
  uid_is_pomodoro ("pomodoro-manual-" +:+ pretty h +:+ "@pomodoro-timer") = true ∧
  session_uid k ≠ "pomodoro-manual-" +:+ pretty h +:+ "@pomodoro-timer" ∧
  (∀ k', session_uid k = session_uid k' → k = k').
Proof.
  unfold uid_is_pomodoro, session_uid. split; [|split; [|split]].
  - rewrite startswith_app. simpl.
    rewrite <- string_app_assoc. apply contains_suffix.
  - rewrite <- (string_app_assoc "pomodoro-manual-").
    rewrite contains_suffix, andb_true_r.
    change "pomodoro-manual-" with ("pomodoro-" +:+ "manual-").
    rewrite !string_app_assoc. apply startswith_app.
  - intros Heq. apply (inj (String.app "pomodoro-")) in Heq.
    destruct (pretty_Z_head k) as (c & t & Hk & Hc). rewrite Hk in Heq.
    injection Heq as -> _. by destruct Hc.
  - intros k'. apply session_uid_inj.
Qed.

(** *** The clock face *)

Lemma pad2_digits x :
  0 ≤ x →
  all_digits (Py.pad2 x) = true ∧ Py.int_of_digits (Py.pad2 x) = x ∧
  (x < 100 → String.length (Py.pad2 x) = 2%nat).
Proof.
  intros Hx. destruct (pretty_Z_digits x Hx) as (Hd & Hn & Hv).
  unfold Py.pad2. case_decide as Hsmall.
  - split; [by rewrite string_app_cons, string_app_nil_l; simpl; rewrite Hd|].
    split.
    + unfold Py.int_of_digits in *. by rewrite int_of_digits_go_app.
    + intros _.
      assert (x = 0 ∨ x = 1 ∨ x = 2 ∨ x = 3 ∨ x = 4 ∨ x = 5 ∨ x = 6 ∨ x = 7 ∨
              x = 8 ∨ x = 9) as Hc by lia.
      repeat (destruct Hc as [->|Hc]; [done|]). by subst.
  - split; [done|]. split; [done|]. intros Hlt.
    assert (∃ a b, 0 ≤ a < 10 ∧ 0 ≤ b < 10 ∧ 0 < a ∧ x = 10 * a + b)
      as (a & b & Ha & Hb & Ha0 & ->).
    { exists (x `div` 10), (x `mod` 10). Z.div_mod_to_equations. lia. }
    rewrite pretty_Z_nonneg by lia. unfold pretty, pretty_N.
    rewrite decide_False by lia.
    rewrite pretty_N_go_step by lia.
    replace (Z.to_N (10 * a + b) `div` 10)%N with (Z.to_N a)
      by (apply N2Z.inj; rewrite N2Z.inj_div, !Z2N.id by lia;
          Z.div_mod_to_equations; lia).
    rewrite pretty_N_go_step by lia.
    replace (Z.to_N a `div` 10)%N with 0%N
      by (apply N2Z.inj; rewrite N2Z.inj_div, !Z2N.id by lia;
          Z.div_mod_to_equations; lia).
    by rewrite pretty_N_go_0.
Qed.

Lemma digits_colon_split D1 D2 R1 R2 :
  all_digits D1 = true → all_digits D2 = true →
  D1 +:+ String ":" R1 = D2 +:+ String ":" R2 → D1 = D2 ∧ R1 = R2.
Proof.
  revert D2. induction D1 as [|a D1 IH]; intros [|b D2] H1 H2 Heq.
  - by injection Heq as ->.
  - injection Heq as <- _. simpl in H2. done.
  - injection Heq as -> _. simpl in H1. done.
  - rewrite !string_app_cons in Heq. injection Heq as -> Heq.
    simpl in H1, H2. apply andb_true_iff in H1 as [_ H1], H2 as [_ H2].
    destruct (IH D2 H1 H2 Heq) as [-> ->]. done.
Qed.

(** The clock face of the timer, for a time that is not negative: two
    fields of digits around a colon, the first reads as the minutes and
    the second as the seconds below 60; up to 99:59 the face has five
    characters; and two different times never look the same. *)
Theorem format_time_reads_back (seconds : Z) :
  0 ≤ seconds →
  (∃ mins secs, format_time seconds = mins +:+ ":" +:+ secs ∧
          all_digits mins = true ∧ all_digits secs = true ∧
          Py.int_of_digits mins = seconds `div` 60 ∧
          Py.int_of_digits secs = seconds `mod` 60 ∧
          String.length secs = 2%nat ∧
          (seconds < 6000 → String.length (format_time seconds) = 5%nat)) ∧
  (∀ other, 0 ≤ other → format_time other = format_time seconds → other = seconds).
Proof.
  intros Hs.
  assert (∀ x, 0 ≤ x → 0 ≤ x `div` 60 ∧ 0 ≤ x `mod` 60 < 60) as Hdm
    by (intros; Z.div_mod_to_equations; lia).
  destruct (Hdm seconds Hs) as [Hm Hsec].
  destruct (pad2_digits (seconds `div` 60) Hm) as (Hd1 & Hv1 & Hl1).
  destruct (pad2_digits (seconds `mod` 60)) as (Hd2 & Hv2 & Hl2); [lia|].
  split.
  - exists (Py.pad2 (seconds `div` 60)), (Py.pad2 (seconds `mod` 60)).
    split; [done|]. split; [done|]. split; [done|]. split; [done|]. split; [done|].
    split; [apply Hl2; lia|]. intros Hlt. unfold format_time. cbv zeta.
    rewrite !string_length_app, Hl1, Hl2 by (Z.div_mod_to_equations; lia). done.
  - intros other Ho Heq. destruct (Hdm other Ho) as [Hm' Hsec'].
    destruct (pad2_digits (other `div` 60) Hm') as (Hd1' & Hv1' & _).
    destruct (pad2_digits (other `mod` 60)) as (Hd2' & Hv2' & _); [lia|].
    unfold format_time in Heq. cbv zeta in Heq.
    apply digits_colon_split in Heq as [H1 H2]; [|done|done].
    apply (f_equal Py.int_of_digits) in H1, H2.
    rewrite Hv1, Hv1' in H1. rewrite Hv2, Hv2' in H2.
    rewrite (Z.div_mod other 60), (Z.div_mod seconds 60) by lia. lia.
Qed.

End CommandLine.

Lemma parse_duration_numbers_witness :
  parse_duration (pretty 2 +:+ "h" +:+ pretty 30 +:+ "m") =
    (if decide (0 < 2 ∨ 0 < 30) then 3600 * 2 + 60 * 30 else 1500) ∧
  parse_duration (pretty 2 +:+ "h") = (if decide (0 < 2) then 3600 * 2 else 1500) ∧
  parse_duration (pretty 30 +:+ "m") = (if decide (0 < 30) then 60 * 30 else 1500) ∧
  parse_duration (pretty 30) = (if decide (0 < 30) then 60 * 30 else 1500).
Proof. apply (parse_duration_numbers 2 30); split; [lia|reflexivity|lia|reflexivity]. Defined.

Lemma parse_duration_positive_witness :
  0 < parse_duration "2h30m" ∧
  ("2h30m" = "" → parse_duration "2h30m" = 1500) ∧
  (no_digit "2h30m" = true → parse_duration "2h30m" = 1500).
Proof.
  apply (parse_duration_positive "2h30m"). split.
  - unfold is_ascii. simpl. repeat constructor.
  - apply Nat.leb_le. reflexivity.
Defined.

Lemma display_then_parse_witness :
  parse_duration (format_time_display 3725) = 60 * (3725 `div` 60).
Proof. apply (display_then_parse 3725). split; [lia|reflexivity]. Defined.

Lemma task_label_round_trip_witness :
  CalDAVSync.task_label (CalDAVSync.summary_of reading) = task_name reading ∧
  CalDAVSync.summary_is_pomodoro (CalDAVSync.summary_of reading) = true.
Proof.
  apply (task_label_round_trip reading); [reflexivity|reflexivity|discriminate].
Defined.

Lemma format_time_reads_back_witness :
  (∃ mins secs, format_time 1500 = mins +:+ ":" +:+ secs ∧
          all_digits mins = true ∧ all_digits secs = true ∧
          Py.int_of_digits mins = 1500 `div` 60 ∧
          Py.int_of_digits secs = 1500 `mod` 60 ∧
          String.length secs = 2%nat ∧
          (1500 < 6000 → String.length (format_time 1500) = 5%nat)) ∧
  (∀ other, 0 ≤ other → format_time other = format_time 1500 → other = 1500).
Proof. apply (format_time_reads_back 1500). lia. Defined.

(** * Ports and statistics *)

Section PortsAndStats.
Import PomodoroDatabase CalDAVSync.

(** *** Ports *)



(** *** Statistics *)

Lemma sum_completed_app a b : sum_completed (a ++ b) = sum_completed a + sum_completed b.
Proof. induction a as [|x a IH]; simpl; [done|]. rewrite IH. lia. Qed.

Lemma sum_Z_perm l l' : l ≡ₚ l' → sum_Z l = sum_Z l'.
Proof. induction 1; simpl; lia. Qed.

Section Groups.
Context {K : Type} `{EqDecision K} (key : session → K).

(** The rows split by key: the groups of the keys of a list without
    repetition that covers the keys of the rows take every row once. *)
Lemma groups_partition (keys : list K) : ∀ rows,
  NoDup keys → (∀ s, s ∈ rows → key s ∈ keys) →
  sum_Z ((λ k, Z.of_nat (length (filter (λ s, key s = k) rows))) <$> keys)
    = Z.of_nat (length rows) ∧
  sum_Z ((λ k, sum_completed (filter (λ s, key s = k) rows)) <$> keys)
    = sum_completed rows.
Proof.
  induction keys as [|k keys IH]; intros rows Hnd Hcov.
  - destruct rows as [|s rows]; [done|].
    specialize (Hcov s (ltac:(left))). by apply elem_of_nil in Hcov.
  - apply NoDup_cons in Hnd as [Hk Hnd].
    set (rest := filter (λ s, key s ≠ k) rows).
    destruct (IH rest Hnd) as [IH1 IH2].
    { intros s [Hne Hs]%list_elem_of_filter.
      specialize (Hcov s Hs). apply elem_of_cons in Hcov as [?|?]; done. }
    assert (∀ k', k' ∈ keys →
              filter (λ s, key s = k') rows = filter (λ s, key s = k') rest) as Hsame.
    { intros k' Hk'. unfold rest. rewrite list_filter_filter.
      apply list_filter_iff. intros s. split; [|tauto].
      intros ->. split; [done|]. by intros ->. }
    assert (Z.of_nat (length rows) =
              Z.of_nat (length (filter (λ s, key s = k) rows)) +
              Z.of_nat (length rest) ∧
            sum_completed rows =
              sum_completed (filter (λ s, key s = k) rows) + sum_completed rest)
      as [Hlen Hsum].
    { unfold rest. clear. induction rows as [|s rows [IH1 IH2]]; [done|].
      rewrite !filter_cons. destruct (decide (key s = k)) as [He|He].
      - rewrite decide_False by tauto. simpl. lia.
      - rewrite decide_True by done. simpl. lia. }
    rewrite !fmap_cons. simpl. rewrite Hlen, Hsum, <- IH1, <- IH2.
    split; f_equal; f_equal; apply list_fmap_ext; intros i k' Hi;
      by rewrite Hsame by (by eapply list_elem_of_lookup_2).
Qed.

End Groups.

Local Instance longer_first_trans : Transitive longer_first.
Proof. unfold longer_first. intros a b c ? ?. lia. Qed.
Local Instance longer_first_total : Total longer_first.
Proof. unfold longer_first. intros a b. lia. Qed.
Local Instance later_first_trans : Transitive later_first.
Proof. unfold later_first. intros a b c ? ?. lia. Qed.
Local Instance later_first_total : Total later_first.
Proof. unfold later_first. intros a b. lia. Qed.

Lemma length_filter_mono {A} (P Q : A → Prop) `{!∀ x, Decision (P x)}
    `{!∀ x, Decision (Q x)} (l : list A) :
  (∀ x, P x → Q x) → (length (filter P l) ≤ length (filter Q l))%nat.
Proof.
  intros Himp. induction l as [|x l IH]; [done|]. rewrite !filter_cons.
  destruct (decide (P x)) as [HP|HP].
  - rewrite decide_True by auto. simpl. lia.
  - destruct (decide (Q x)); simpl; lia.
Qed.

(** The groups of [get_stats] take every session of the period once: the
    counts of [by_task] add up to [total_sessions] and its times to
    [total_time_all], and the same holds for [by_date].  Every task name
    and every day has one row, no row is empty, [by_task] is in
    descending order of time and [by_date] in descending order of day. *)
Theorem get_stats_totals period now d :
  let st := get_stats period now d in
  sum_Z ((λ r, Z.of_nat (stat_count r)) <$> by_task st) = Z.of_nat (total_sessions st) ∧
  sum_Z (stat_total_time <$> by_task st) = total_time_all st ∧
  sum_Z ((λ r, Z.of_nat (day_count r)) <$> by_date st) = Z.of_nat (total_sessions st) ∧
  sum_Z (day_total_time <$> by_date st) = total_time_all st ∧
  NoDup (stat_task_name <$> by_task st) ∧
  NoDup (day_date <$> by_date st) ∧
  (∀ r, r ∈ by_task st → (1 ≤ stat_count r)%nat) ∧
  (∀ r, r ∈ by_date st → (1 ≤ day_count r)%nat) ∧
  StronglySorted (λ a b, stat_total_time b ≤ stat_total_time a) (by_task st) ∧
  StronglySorted (λ a b, day_date b ≤ day_date a) (by_date st).
Proof.
  cbv zeta. unfold get_stats. cbv zeta. simpl.
  set (rows := filter (since (period_start period (date_of now))) (sessions d)).
  set (names := remove_dups (task_name <$> rows)).
  set (days := remove_dups ((λ s, date_of (start_time s)) <$> rows)).
  pose proof (merge_sort_Permutation longer_first (task_group rows <$> names)) as Hp1.
  pose proof (merge_sort_Permutation later_first (date_group rows <$> days)) as Hp2.
  destruct (groups_partition task_name names rows) as [Hc1 Ht1];
    [apply NoDup_remove_dups|intros s Hs; apply elem_of_remove_dups;
      by apply list_elem_of_fmap_2|].
  destruct (groups_partition (λ s, date_of (start_time s)) days rows) as [Hc2 Ht2];
    [apply NoDup_remove_dups|intros s Hs; apply elem_of_remove_dups;
      by apply (list_elem_of_fmap_2 (λ s, date_of (start_time s)))|].
  split; [|split; [|split; [|split]]].
  - erewrite sum_Z_perm by (apply fmap_Permutation, Hp1).
    by rewrite <- list_fmap_compose.
  - erewrite sum_Z_perm by (apply fmap_Permutation, Hp1).
    by rewrite <- list_fmap_compose.
  - erewrite sum_Z_perm by (apply fmap_Permutation, Hp2).
    by rewrite <- list_fmap_compose.
  - erewrite sum_Z_perm by (apply fmap_Permutation, Hp2).
    by rewrite <- list_fmap_compose.
  - split; [|split; [|split; [|split; [|split]]]].
    + rewrite Hp1, <- list_fmap_compose.
      assert (stat_task_name ∘ task_group rows <$> names = names) as ->.
      { rewrite <- (list_fmap_id names) at 2. by apply list_fmap_ext. }
      apply NoDup_remove_dups.
    + rewrite Hp2, <- list_fmap_compose.
      assert (day_date ∘ date_group rows <$> days = days) as ->.
      { rewrite <- (list_fmap_id days) at 2. by apply list_fmap_ext. }
      apply NoDup_remove_dups.
    + intros r Hr. rewrite Hp1 in Hr.
      apply list_elem_of_fmap in Hr as (name & -> & Hname).
      apply elem_of_remove_dups, list_elem_of_fmap in Hname as (s & -> & Hs).
      simpl. assert (s ∈ filter (λ s', task_name s' = task_name s) rows) as Hin
        by (by apply list_elem_of_filter).
      destruct (filter _ rows); [by apply elem_of_nil in Hin|simpl; lia].
    + intros r Hr. rewrite Hp2 in Hr.
      apply list_elem_of_fmap in Hr as (day & -> & Hday).
      apply elem_of_remove_dups, list_elem_of_fmap in Hday as (s & -> & Hs).
      simpl.
      assert (s ∈ filter (λ s', date_of (start_time s') = date_of (start_time s)) rows)
        as Hin by (by apply list_elem_of_filter).
      destruct (filter _ rows); [by apply elem_of_nil in Hin|simpl; lia].
    + apply (StronglySorted_merge_sort longer_first).
    + apply (StronglySorted_merge_sort later_first).
Qed.

(** The periods of [get_stats]: a week is part of a month, a month of a
    year, a year of all time; all time takes every session of the table;
    and a period name that is none of the three means all time. *)
Theorem get_stats_periods now d :
  (total_sessions (get_stats "week" now d) ≤ total_sessions (get_stats "month" now d))%nat ∧
  (total_sessions (get_stats "month" now d) ≤ total_sessions (get_stats "year" now d))%nat ∧
  (total_sessions (get_stats "year" now d) ≤ total_sessions (get_stats "all" now d))%nat ∧
  total_sessions (get_stats "all" now d) = length (sessions d) ∧
  total_time_all (get_stats "all" now d) = sum_completed (sessions d) ∧
  (∀ s, s ∈ sessions d → date_of now - 7 ≤ date_of (start_time s) →
        total_sessions (get_stats "week" now d) ≠ 0%nat) ∧
  (∀ p, p ≠ "week" → p ≠ "month" → p ≠ "year" →
        total_sessions (get_stats p now d) = length (sessions d) ∧
        total_time_all (get_stats p now d) = sum_completed (sessions d) ∧
        by_task (get_stats p now d) = by_task (get_stats "all" now d) ∧
        by_date (get_stats p now d) = by_date (get_stats "all" now d)).
Proof.
  assert (∀ p, p ≠ "week" → p ≠ "month" → p ≠ "year" →
            filter (since (period_start p (date_of now))) (sessions d) = sessions d)
    as Hall.
  { intros p H1 H2 H3. unfold period_start.
    rewrite !decide_False by done. by apply filter_all. }
  split; [|split; [|split; [|split; [|split; [|split]]]]].
  - apply length_filter_mono. simpl. lia.
  - apply length_filter_mono. simpl. lia.
  - apply length_filter_mono. by simpl.
  - unfold get_stats; simpl. by rewrite (filter_all _ (sessions d)).
  - unfold get_stats; simpl. by rewrite (filter_all _ (sessions d)).
  - intros s Hs Hday. unfold get_stats; simpl.
    assert (s ∈ filter (since (Some (date_of now - 7))) (sessions d)) as Hin
      by (by apply list_elem_of_filter).
    destruct (filter _ (sessions d)); [by apply elem_of_nil in Hin|done].
  - intros p H1 H2 H3. unfold get_stats. cbv zeta. simpl.
    rewrite (Hall p H1 H2 H3), (Hall "all") by done. done.
Qed.

End PortsAndStats.
(** * Objects that no row names *)

Section StrayObjects.
Import PomodoroDatabase CalDAVSync.

Lemma sweep_mappings_idle (ids : gset Z) l n w :
  (∀ m, m ∈ l → session_id m ∈ ids) →
  for_each (sweep_mapping ids) l n w = (Ok n, w).
Proof.
  induction l as [|m l IH]; intros Hlive; [done|]. simpl.
  erewrite bind_ok by (apply sweep_mapping_live, Hlive; left).
  apply IH. intros x Hx. apply Hlive. by right.
Qed.

(** One object of the second sweep, when the server answers: objects that
    have another UID stay, and no mapping row is added. *)
Lemma sweep_event_ff ids (exp : gset string) x n w :
  fault_free w →
  ∃ n' w',
    sweep_event ids exp x n w = (Ok n', w') ∧ fault_free w' ∧
    (∀ e, e ∈ events (remote w) → ev_uid e ≠ ev_uid x → e ∈ events (remote w')) ∧
    (∀ r, r ∈ mappings (db w') → r ∈ mappings (db w)).
Proof.
  intros Hff. unfold sweep_event.
  destruct (is_pomodoro x && bool_decide (ev_uid x ∉ exp)); [|by exists n, w].
  erewrite bind_ok by apply on_db_gets.
  destruct (get_sync_mapping None (Some (ev_uid x)) (db w)) as [|m ms] eqn:Hget.
  - erewrite bind_ok by (by apply delete_with_fallback_ff).
    eexists _, _. split; [reflexivity|]. split; [done|]. split; [|done].
    intros e He Hne. simpl. by apply list_elem_of_filter.
  - destruct (bool_decide (session_id m ∉ ids)); [|by exists n, w].
    erewrite bind_ok by (by apply delete_with_fallback_ff).
    eexists _, _. split; [reflexivity|]. split; [done|]. split.
    + intros e He Hne. simpl. by apply list_elem_of_filter.
    + intros r Hr. simpl in Hr. by apply mappings_delete_subset in Hr.
Qed.

(** The second sweep removes a recognised object that nothing expects. *)
Lemma sweep_events_gone ids (exp : gset string) l n w ev :
  fault_free w → no_row (ev_uid ev) w → ev ∈ l →
  is_pomodoro ev = true → ev_uid ev ∉ exp → ev_uid ev ≠ "" →
  ∃ n' w',
    for_each (sweep_event ids exp) l n w = (Ok n', w') ∧
    gone (ev_uid ev) w' ∧ fault_free w'.
Proof.
  intros Hff Hrow Hin Hp Hexp Hu.
  destruct (total_for_each (sweep_event ids exp) l n (total_sweep_event ids exp) w)
    as (n' & w' & Hrun).
  exists n', w'. split; [done|]. split; last first.
  { eapply (preserves_for_each fault_free); [|exact Hff|exact Hrun].
    intros z c _. apply preserves_sweep_event, fault_free_shrink_closed. }
  revert n w Hff Hrow Hrun. induction l as [|y l IH]; intros n w Hff Hrow Hrun;
    [by apply elem_of_nil in Hin|].
  simpl in Hrun.
  destruct (total_sweep_event ids exp y n w) as (n1 & w1 & Hstep).
  erewrite bind_ok in Hrun by exact Hstep.
  destruct (decide (ev = y)) as [<-|Hne].
  - eapply (preserves_for_each (gone (ev_uid ev))); [|..|exact Hrun].
    + intros z c _. apply preserves_sweep_event, gone_shrink_closed.
    + unfold sweep_event in Hstep. rewrite Hp in Hstep.
      rewrite bool_decide_true in Hstep by done. simpl in Hstep.
      erewrite bind_ok in Hstep by apply on_db_gets.
      assert (get_sync_mapping None (Some (ev_uid ev)) (db w) = []) as Hget.
      { rewrite get_sync_mapping_by_uid by done. apply filter_none.
        intros r Hr. by apply Hrow. }
      rewrite Hget in Hstep.
      erewrite bind_ok in Hstep by (by apply delete_with_fallback_ff).
      injection Hstep as _ <-. split; simpl.
      * exact Hrow.
      * by intros (e & -> & [? _]%list_elem_of_filter)%list_elem_of_fmap.
  - apply elem_of_cons in Hin as [?|Hin]; [done|].
    eapply (IH Hin n1 w1); [| |done].
    + eapply (preserves_sweep_event fault_free fault_free_shrink_closed); done.
    + eapply (preserves_sweep_event (no_row (ev_uid ev)) (no_row_shrink_closed _)); done.
Qed.

(** The second sweep leaves alone an object whose UID none of the objects
    it examines has. *)
Lemma sweep_events_keep_other ids (exp : gset string) l ev : ∀ n w,
  fault_free w → ev ∈ events (remote w) → no_row (ev_uid ev) w →
  (∀ x, x ∈ l → ev_uid x ≠ ev_uid ev) →
  ∃ n' w',
    for_each (sweep_event ids exp) l n w = (Ok n', w') ∧
    fault_free w' ∧ ev ∈ events (remote w') ∧ no_row (ev_uid ev) w'.
Proof.
  induction l as [|x l IH]; intros n w Hff Hev Hrow Hother; [by exists n, w|].
  destruct (sweep_event_ff ids exp x n w Hff) as (n1 & w1 & Hstep & Hff1 & Hkeep & Hsub).
  destruct (IH n1 w1) as (n' & w' & Hrun & Hff' & Hev' & Hrow').
  - done.
  - apply Hkeep; [done|]. intros Heq. by apply (Hother x); [left|].
  - intros r Hr. by apply Hrow, Hsub.
  - intros y Hy. apply Hother. by right.
  - exists n', w'. split; [simpl; by erewrite bind_ok|done].
Qed.

Lemma update_events_keeps j u' evs e :
  e ∈ evs → ev_uid e ≠ u' → e ∈ update_events j u' evs.
Proof.
  intros He Hne. unfold update_events.
  assert (∀ l, e ∈ l → e ∈ put_event j u' l) as Hput.
  { intros l Hl. unfold put_event. apply elem_of_app. left.
    by apply list_elem_of_filter. }
  destruct (objects_with u' evs) as [|ev0 rest] eqn:Hobj; [by apply Hput|].
  apply objects_with_head in Hobj as [_ Hu0].
  assert (e ∈ filter (λ x, ev_uid x ≠ ev_uid ev0) evs) as Hf
    by (apply list_elem_of_filter; split; [congruence|done]).
  destruct (ev_dtstart ev0), (ev_dtend ev0); try (by apply Hput).
  apply list_elem_of_fmap. exists e. split; [|done].
  rewrite decide_False; [done|congruence].
Qed.

(** One session of the third loop, when the server answers: an object
    whose UID is neither mapped nor derived from this session stays. *)
Lemma push_session_keeps_other now j c w ev :
  fault_free w → ev ∈ events (remote w) → no_row (ev_uid ev) w →
  session_uid (id j) ≠ ev_uid ev →
  ∃ c' w',
    push_session now j c w = (Ok c', w') ∧
    fault_free w' ∧ ev ∈ events (remote w') ∧ no_row (ev_uid ev) w'.
Proof.
  intros Hff Hev Hrow Hne.
  destruct (get_sync_mapping (Some (id j)) None (db w)) as [|m ms] eqn:Hget.
  - eexists _, _. split; [by apply push_session_unmapped_ff|].
    split; [done|]. split; simpl.
    + unfold put_event. apply elem_of_app. left. apply list_elem_of_filter.
      split; [congruence|done].
    + intros r [[_ Hr]%list_elem_of_filter| ->%list_elem_of_singleton]%elem_of_app;
        [by apply Hrow|done].
  - assert (m ∈ mappings (db w)) as Hm.
    { eapply (get_sync_mapping_subset (Some (id j)) None). rewrite Hget. left. }
    eexists _, _. split; [by eapply push_session_mapped_ff|].
    split; [done|]. split; [|done]. simpl.
    apply update_events_keeps; [done|]. intros Heq. by apply (Hrow m).
Qed.

Lemma push_sessions_keep_other now l ev : ∀ c w,
  fault_free w → ev ∈ events (remote w) → no_row (ev_uid ev) w →
  (∀ j, j ∈ l → session_uid (id j) ≠ ev_uid ev) →
  ∃ c' w',
    for_each (push_session now) l c w = (Ok c', w') ∧
    fault_free w' ∧ ev ∈ events (remote w') ∧ no_row (ev_uid ev) w'.
Proof.
  induction l as [|j l IH]; intros c w Hff Hev Hrow Hne; [by exists c, w|].
  destruct (push_session_keeps_other now j c w ev)
    as (c1 & w1 & Hstep & Hff1 & Hev1 & Hrow1); [done|done|done|apply Hne; left|].
  destruct (IH c1 w1) as (c' & w' & Hrun & ?); [done|done|done| |].
  { intros x Hx. apply Hne. by right. }
  exists c', w'. split; [simpl; by erewrite bind_ok|done].
Qed.

(** A recognised object of the calendar that no mapping row names and
    that is not the object of any session (what is left on the calendar
    when a session is deleted through the server's delete handler, which
    removes the mapping row first).  The next push, with a server that
    answers, removes it when it lies in the window of one year around
    now, and leaves it in place when it lies outside. *)
Theorem stray_object_window now w ev :
  fault_free w → calendar w = true → no_orphans (db w) →
  ev ∈ events (remote w) → is_pomodoro ev = true → ev_uid ev ≠ "" →
  no_row (ev_uid ev) w →
  (∀ j, j ∈ sessions (db w) → session_uid (id j) ≠ ev_uid ev) →
  ∃ synced updated deleted msg w',
    sync_to_calendar now w = (Ok (ToOk synced updated deleted msg), w') ∧
    (Server.in_range (now - year) (now + year) ev →
       objects_with (ev_uid ev) (events (remote w')) = []) ∧
    (¬ Server.in_range (now - year) (now + year) ev →
       (∀ x, x ∈ events (remote w) → x ≠ ev → ev_uid x ≠ ev_uid ev) →
       ev ∈ events (remote w')).
Proof.
  intros Hff Hcal Horph Hev Hp Hu Hrow Hder.
  set (l := get_all_sessions (db w)).
  set (ids := list_to_set (id <$> l) : gset Z).
  set (exp := (list_to_set ((λ s, session_uid (id s)) <$> l) ∪
               list_to_set (calendar_uid <$>
                  filter (λ m, session_id m ∈ ids) (mappings (db w)))) : gset string).
  assert (ev_uid ev ∉ exp) as Hexp.
  { unfold exp. rewrite elem_of_union, !elem_of_list_to_set.
    intros [(j & Hj & Hin)%list_elem_of_fmap|(m & Hm & Hin)%list_elem_of_fmap].
    - apply elem_of_get_all_sessions in Hin. by apply (Hder j).
    - apply list_elem_of_filter in Hin as [_ Hin]. by apply (Hrow m). }
  assert (for_each (sweep_mapping ids) (mappings (db w)) 0%nat w = (Ok 0%nat, w))
    as Hloop1.
  { apply sweep_mappings_idle. intros m Hm. unfold ids.
    rewrite elem_of_list_to_set. apply ids_get_all_sessions. by apply Horph. }
  assert (∀ x, x ∈ l → session_uid (id x) ≠ ev_uid ev) as Hder'.
  { intros x Hx. apply Hder. by apply elem_of_get_all_sessions. }
  assert (∀ r w', after_orphans now l ids exp (length (mappings (db w))) 0%nat w
                    = (r, w') →
                  sync_to_calendar now w = (r, w') ∨ ∃ e, r = Raise e) as Hwhole.
  { intros r w' Hrun. unfold sync_to_calendar.
    erewrite bind_ok by (by apply ensure_calendar_held). cbv beta iota.
    unfold try_catch. rewrite push_body_unfold. cbv zeta. fold l. fold ids. fold exp.
    erewrite bind_ok by exact Hloop1. rewrite Hrun.
    destruct r as [a|e]; [by left|right; by exists e]. }
  destruct (decide (Server.in_range (now - year) (now + year) ev)) as [Hin|Hout].
  - (* in the window: the second sweep deletes it *)
    assert (ev ∈ filter (Server.in_range (now - year) (now + year)) (events (remote w)))
      as Hfound by (by apply list_elem_of_filter).
    destruct (sweep_events_gone ids exp _ 0%nat w ev Hff Hrow Hfound Hp Hexp Hu)
      as (n2 & w2 & Hloop2 & Hgone2 & Hff2).
    destruct (push_sessions_ok_ff now l (0%nat, 0%nat) w2 Hff2)
      as (c & w3 & Hloop3 & Hff3).
    assert (gone (ev_uid ev) w3) as [_ Hgone3].
    { eapply (preserves_for_each (gone (ev_uid ev))); [|exact Hgone2|exact Hloop3].
      intros x c0 Hx. apply preserves_push_session, gone_push_closed. by apply Hder'. }
    destruct (Hwhole (Ok (ToOk c.1 c.2 n2
                (to_message c.1 c.2 n2 (length l) (length (mappings (db w)))
                   (Some (length (filter (Server.in_range (now - year) (now + year))
                                    (events (remote w))))))))
               w3) as [Hrun|[e He]]; [|by eexists _, _, _, _, w3; split;
                                         [exact Hrun|split; [intros _; by apply objects_with_nil|done]]
                                      |done].
    unfold after_orphans.
    erewrite bind_ok; last first.
    { erewrite try_catch_ok; [reflexivity|].
      erewrite bind_ok by (by apply search_range_ff).
      erewrite bind_ok by exact Hloop2. reflexivity. }
    by erewrite bind_ok by exact Hloop3.
  - (* outside the window: nothing looks at it *)
    destruct (decide (Forall (λ x, x ≠ ev → ev_uid x ≠ ev_uid ev) (events (remote w))))
      as [Hsingle|Hdup]; last first.
    { (* the statement asks nothing here; any run will do *)
      destruct (after_orphans_ok_ff now l ids exp (length (mappings (db w))) 0%nat w Hff)
        as (a1 & a2 & a3 & msg & w' & Hrun).
      destruct (Hwhole _ _ Hrun) as [Hrun'|[e He]]; [|done].
      exists a1, a2, a3, msg, w'. split; [done|]. split; [done|].
      intros _ Hsingle. exfalso. apply Hdup. by apply Forall_forall. }
    rewrite Forall_forall in Hsingle.
    destruct (sweep_events_keep_other ids exp
                (filter (Server.in_range (now - year) (now + year)) (events (remote w)))
                ev 0%nat w Hff Hev Hrow)
      as (n2 & w2 & Hloop2 & Hff2 & Hev2 & Hrow2).
    { intros x [Hx1 Hx2]%list_elem_of_filter. apply Hsingle; [done|].
      intros ->. by apply Hout. }
    destruct (push_sessions_keep_other now l ev (0%nat, 0%nat) w2 Hff2 Hev2 Hrow2 Hder')
      as (c & w3 & Hloop3 & Hff3 & Hev3 & _).
    destruct (Hwhole (Ok (ToOk c.1 c.2 n2
                (to_message c.1 c.2 n2 (length l) (length (mappings (db w)))
                   (Some (length (filter (Server.in_range (now - year) (now + year))
                                    (events (remote w))))))))
               w3) as [Hrun|[e He]]; [|by eexists _, _, _, _, w3|done].
    unfold after_orphans.
    erewrite bind_ok; last first.
    { erewrite try_catch_ok; [reflexivity|].
      erewrite bind_ok by (by apply search_range_ff).
      erewrite bind_ok by exact Hloop2. reflexivity. }
    by erewrite bind_ok by exact Hloop3.
Qed.

End StrayObjects.

Lemma stray_object_window_witness :
  ∃ synced updated deleted msg w',
    CalDAVSync.sync_to_calendar 95000 after_api_delete
    = (Ok (ToOk synced updated deleted msg), w') ∧
    objects_with "pomodoro-1@pomodoro-timer" (events (remote w')) = [].
Proof.
  assert (fault_free after_api_delete) as Hff by reflexivity.
  assert (no_orphans (db after_api_delete)) as Horph.
  { intros m Hm. by apply elem_of_nil in Hm. }
  assert (stale_reading_event ∈ events (remote after_api_delete)) as Hev by left.
  assert (ev_uid stale_reading_event ≠ "") as Hu by discriminate.
  assert (no_row (ev_uid stale_reading_event) after_api_delete) as Hrow.
  { intros m Hm. by apply elem_of_nil in Hm. }
  assert (∀ j, j ∈ sessions (db after_api_delete) →
               CalDAVSync.session_uid (id j) ≠ ev_uid stale_reading_event) as Hder.
  { intros j Hj. by apply elem_of_nil in Hj. }
  destruct (stray_object_window 95000 after_api_delete stale_reading_event
              Hff eq_refl Horph Hev eq_refl Hu Hrow Hder)
    as (synced & updated & deleted & msg & w' & Hrun & Hin & _).
  exists synced, updated, deleted, msg, w'. split; [exact Hrun|].
  apply Hin. vm_compute. by split.
Defined.
(** * Task colours *)

Section ColorFacts.
Import PomodoroDatabase TaskColorManager.
Variable generate_color : string → string.

Lemma get_color_lookup n colors n' :
  (get_color generate_color n colors).2 !! n' =
    match colors !! n' with
    | Some c => Some c
    | None => if decide (n' = n) then Some (generate_color n) else None
    end.
Proof.
  unfold get_color. destruct (colors !! n) as [c|] eqn:Hn; simpl.
  - destruct (colors !! n') as [c'|] eqn:Hn'; [done|].
    case_decide; [congruence|done].
  - destruct (decide (n' = n)) as [->|Hne].
    + by rewrite lookup_insert_eq, Hn.
    + rewrite lookup_insert_ne by done. by destruct (colors !! n').
Qed.

Lemma fold_get_color_spec (names : gset string) colors n' :
  ∀ c,
  set_fold (λ n c, (get_color generate_color n c).2) colors names !! n' = Some c ↔
  colors !! n' = Some c ∨
  (colors !! n' = None ∧ n' ∈ names ∧ c = generate_color n').
Proof.
  apply (set_fold_ind_L
    (λ r X, ∀ c, r !! n' = Some c ↔
            colors !! n' = Some c ∨
            (colors !! n' = None ∧ n' ∈ X ∧ c = generate_color n'))).
  - set_solver.
  - intros n X r Hn IH c. rewrite get_color_lookup.
    destruct (r !! n') as [c'|] eqn:Hr.
    + assert (Some c' = Some c') as Hcc by done.
      apply (proj1 (IH c')) in Hcc. split.
      * intros [= <-]. set_solver.
      * intros [Hc|(Hc & _ & ->)]; [apply IH; by left|].
        destruct Hcc as [?|(_ & _ & ->)]; [congruence|done].
    + case_decide as Heq.
      * subst n'. split.
        -- intros [= <-]. right. split; [|set_solver].
           destruct (colors !! n) as [s|] eqn:Hc; [|done].
           assert (@None string = Some s) as Habs; [|done]. apply IH. by left.
        -- intros [Hc|(Hc & _ & ->)]; [|done].
           assert (@None string = Some c) as Habs; [|done]. apply IH. by left.
      * split; [done|]. intros Hcase. apply IH. set_solver.
Qed.

Lemma fold_get_color_lookup (names : gset string) colors n' :
  set_fold (λ n c, (get_color generate_color n c).2) colors names !! n' =
    match colors !! n' with
    | Some c => Some c
    | None => if decide (n' ∈ names) then Some (generate_color n') else None
    end.
Proof.
  destruct (set_fold _ colors names !! n') as [c|] eqn:Hf.
  - apply fold_get_color_spec in Hf as [->|(-> & Hin & ->)]; [done|].
    by rewrite decide_True.
  - destruct (colors !! n') as [c|] eqn:Hc.
    + assert (set_fold (λ n c, (get_color generate_color n c).2) colors names !! n'
              = Some c) as Habs by (apply fold_get_color_spec; by left).
      congruence.
    + case_decide as Hin; [|done].
      assert (set_fold (λ n c, (get_color generate_color n c).2) colors names !! n'
              = Some (generate_color n')) as Habs
        by (apply fold_get_color_spec; by right).
      congruence.
Qed.

(** The colours of the tasks.  A colour set by hand is what [get_color]
    returns afterwards; [get_color] gives the same colour when asked
    again and never changes a colour that is there; and the colour
    listing of the server gives every task of the ledger with a name a
    colour, keeps every colour that was there, and adds nothing else. *)
Theorem task_colors_kept (d : database) (colors : gmap string string) :
  (∀ n c, get_color generate_color n (set_color n c colors) = (c, set_color n c colors)) ∧
  (∀ n, get_color generate_color n (get_color generate_color n colors).2 =
          get_color generate_color n colors) ∧
  (∀ n n' c, colors !! n' = Some c →
             (get_color generate_color n colors).2 !! n' = Some c) ∧
  (∀ n, api_get_task_colors generate_color d colors !! n =
          match colors !! n with
          | Some c => Some c
          | None =>
              if decide (n ≠ "" ∧ n ∈ task_name <$> sessions d)
              then Some (generate_color n) else None
          end).
Proof.
  split; [|split; [|split]].
  - intros n c. unfold get_color, set_color. by rewrite lookup_insert_eq.
  - intros n. unfold get_color. destruct (colors !! n) as [c|] eqn:Hn; simpl.
    + by rewrite Hn.
    + by rewrite lookup_insert_eq.
  - intros n n' c Hc. by rewrite get_color_lookup, Hc.
  - intros n. unfold api_get_task_colors, get_all_colors. cbv zeta.
    rewrite fold_get_color_lookup. destruct (colors !! n) as [c|]; [done|].
    apply decide_ext.
    rewrite elem_of_list_to_set, list_elem_of_filter, !list_elem_of_fmap.
    split.
    + intros [Hne (s & -> & Hs)]. split; [done|]. exists s.
      by apply elem_of_get_all_sessions in Hs.
    + intros [Hne (s & -> & Hs)]. split; [done|]. exists s. split; [done|].
      by apply elem_of_get_all_sessions.
Qed.

End ColorFacts.
